(** * Chimera-4: the Telegram interface actor

    A shallow embedding of [src/actors/telegram_actor.py]
    (class [TelegramInterfaceActor]) and the verification of its polling
    loop, its typing-task pool and its outbound message splitter.

    Conventions of the embedding:
    - a Python [int] is a [Z]; [len] returns a [Z];
    - a Python [str] is the list of its Unicode code points ([N]);
    - the [dict] [_typing_tasks] is an association list in insertion order
      (the eviction code depends on that order);
    - the coroutines run in a state-and-exception monad over the actor's
      fields; every [await] of the outside world (HTTP call, bus send,
      sleep) asks an oracle indexed by a logical clock, and every observable
      action is appended to a trace;
    - a typing task is its handle: [_typing_loop] runs in the background
      and only its creation, its cancellation and the answer of
      [task.done()] (an oracle) matter to the actor; [initialize] is not
      modelled, the HTTP session is taken to be open. *)

From Stdlib Require Import List ZArith NArith Bool Lia String Ascii
  RelationClasses.
Import ListNotations.
Open Scope Z_scope.

(** ** Python strings *)

Module Str.

Definition char := N.
Definition str := list char.

Definition NL : char := 10%N.
Definition SLASH : char := 47%N.

(** The separator ["\n\n"]. *)
Definition NLNL : str := [NL; NL].

Definition len (s : str) : Z := Z.of_nat (List.length s).

(** Truth value of a string: [if current:]. *)
Definition truthy (s : str) : bool :=
  match s with [] => false | _ :: _ => true end.

(** [str.isspace] on one code point: the white-space table of CPython
    ([_PyUnicode_IsWhitespace]). *)
Definition isspace (c : char) : bool :=
  ((9 <=? c) && (c <=? 13) || (28 <=? c) && (c <=? 32)
   || (c =? 133) || (c =? 160) || (c =? 5760)
   || (8192 <=? c) && (c <=? 8202)
   || (c =? 8232) || (c =? 8233) || (c =? 8239) || (c =? 8287)
   || (c =? 12288))%N.

Fixpoint lstrip (s : str) : str :=
  match s with
  | [] => []
  | c :: s' => if isspace c then lstrip s' else s
  end.

Definition rstrip (s : str) : str := rev (lstrip (rev s)).

(** [s.strip()] *)
Definition strip (s : str) : str := rstrip (lstrip s).

Definition cons_hd (c : char) (l : list str) : list str :=
  match l with
  | [] => [[c]]
  | p :: ps => (c :: p) :: ps
  end.

(** [s.split("\n\n")]: left-to-right, non-overlapping occurrences of the
    separator; the result always has at least one piece. *)
Fixpoint split_nlnl (s : str) : list str :=
  match s with
  | [] => [[]]
  | c1 :: s1 =>
      match s1 with
      | [] => [[c1]]
      | c2 :: s2 =>
          if ((c1 =? NL) && (c2 =? NL))%N then [] :: split_nlnl s2
          else cons_hd c1 (split_nlnl s1)
      end
  end.

(** [sep.join(l)] *)
Fixpoint join (sep : str) (l : list str) : str :=
  match l with
  | [] => []
  | x :: r =>
      match r with
      | [] => x
      | _ :: _ => x ++ sep ++ join sep r
      end
  end.

(** [s.startswith("/")] *)
Definition startswith_slash (s : str) : bool :=
  match s with
  | c :: _ => (c =? SLASH)%N
  | [] => false
  end.

(** A string with at least one character that neither begins nor ends
    with white space: [strip] leaves it alone. *)
Definition starts_black (s : str) : bool :=
  match s with
  | [] => false
  | c :: _ => negb (isspace c)
  end.

Definition clean (s : str) : bool :=
  starts_black s && starts_black (rev s).

(** Literals for examples: a text, and a text given by its paragraphs. *)
Definition of_string (s : string) : str :=
  map N_of_ascii (list_ascii_of_string s).

Definition paras (l : list string) : str := join NLNL (map of_string l).

End Str.
Import Str.

(** ** The message splitter: [_split_long_message] *)

(** One turn of [for paragraph in text.split("\n\n")], on the pair
    [(chunks, current)]. *)
Definition split_step (C : Z) (acc : list str * str) (paragraph : str)
  : list str * str :=
  let '(chunks, current) := acc in
  if len current + len paragraph + 2 >? C then
    ((if truthy current then chunks ++ [strip current] else chunks),
     paragraph)
  else
    (chunks,
     (if truthy current then current ++ NLNL else current) ++ paragraph).

(** [C] is [TELEGRAM_MAX_MESSAGE_LENGTH]. *)
Definition split_long_message (C : Z) (text : str) : list str :=
  if len text <=? C then [text]
  else
    let '(chunks, current) :=
      fold_left (split_step C) (split_nlnl text) ([], []) in
    if truthy current then chunks ++ [strip current] else chunks.

(** ** The dictionary [_typing_tasks]

    A Python [dict] keeps its keys in insertion order; [next(iter(d))] is
    the oldest key. *)

Module Dict.
Section Ops.
Variable V : Type.

Definition dict := list (Z * V).

Definition keys (d : dict) : list Z := map fst d.

(** [len(d)] *)
Definition size (d : dict) : Z := Z.of_nat (List.length d).

(** [d.get(k)] *)
Fixpoint get (k : Z) (d : dict) : option V :=
  match d with
  | [] => None
  | (k', v) :: d' => if k' =? k then Some v else get k d'
  end.

(** [k in d] *)
Definition mem (k : Z) (d : dict) : bool :=
  match get k d with Some _ => true | None => false end.

(** [del d[k]], for a key that is present. *)
Fixpoint del (k : Z) (d : dict) : dict :=
  match d with
  | [] => []
  | (k', v) :: d' => if k' =? k then d' else (k', v) :: del k d'
  end.

(** [d[k] = v]: a present key keeps its place, a new key goes last. *)
Fixpoint set (k : Z) (v : V) (d : dict) : dict :=
  match d with
  | [] => [(k, v)]
  | (k', v') :: d' =>
      if k' =? k then (k, v) :: d' else (k', v') :: set k v d'
  end.

(** [next(iter(d))]; [None] stands for [StopIteration]. *)
Definition first_key (d : dict) : option Z :=
  match d with
  | [] => None
  | (k, _) :: _ => Some k
  end.
End Ops.
Arguments keys {V} d.
Arguments size {V} d.
Arguments get {V} k d.
Arguments mem {V} k d.
Arguments del {V} k d.
Arguments set {V} k v d.
Arguments first_key {V} d.
End Dict.

(** ** Wire data, exceptions, events *)

(** The [message] object of an update: [message["chat"]["id"]],
    [message["from"]["id"]], [message["from"].get("username")],
    [message.get("text")]. *)
Record message := mkMessage {
  chat_id : Z;
  from_id : Z;
  username : option str;
  text : option str
}.

Record update := mkUpdate {
  update_id : Z;
  upd_message : option message
}.

(** A background typing task is known by its handle. *)
Definition task := nat.

Inductive exn :=
| TimeoutError      (* asyncio.TimeoutError *)
| CancelledError    (* asyncio.CancelledError: a BaseException, not an Exception *)
| RuntimeError      (* StopIteration leaving a coroutine *)
| Error.            (* any other Exception: API rejection, network failure *)

(** [except Exception] catches everything but the cancellation. *)
Definition is_Exception (e : exn) : bool :=
  match e with CancelledError => false | _ => true end.

Inductive request :=
| GetUpdates (offset timeout : Z)
| SendMessage (chat : Z) (body : str) (markdown : bool)
| SendChatAction (chat : Z)
| GetMe.

(** What an HTTP call meets: a JSON answer with [ok] true and its
    [result], a JSON answer with [ok] false, or an exception raised by the
    transport. *)
Inductive response :=
| Ok (result : list update)
| NotOk
| Throws (e : exn).

Inductive level := Debug | Info | Warning | Err.

Inductive bus_message :=
| ProcessUserMessage (user chat : Z) (name : option str) (body : str)
| UserMessage (user chat : Z) (name : option str) (body : str)
| BotResponse (chat : Z) (body : str).

Inductive event :=
| EvApi (r : request) (timeout : Z)   (* session.post *)
| EvLog (l : level) (msg : string)
| EvSleep (secs : Z)
| EvOffset (z : Z)                    (* assignment to _update_offset *)
| EvProcess (id : Z)                  (* entry into _process_update *)
| EvCancel (t : task)                 (* task.cancel() *)
| EvCreateTask (t : task) (chat : Z)  (* asyncio.create_task(_typing_loop(chat)) *)
| EvBus (target : string) (m : bus_message)
| EvCancelPolling
| EvCloseSession.

(** The settings imported from [config.settings] and the texts taken from
    [USER_MESSAGES] of [config.messages] (the welcome text already
    formatted); that code is not part of the actor, so the values are
    parameters. *)
Record config := mkConfig {
  TELEGRAM_POLLING_TIMEOUT : Z;
  TELEGRAM_MAX_MESSAGE_LENGTH : Z;
  TELEGRAM_TYPING_CLEANUP_THRESHOLD : Z;
  TELEGRAM_API_DEFAULT_TIMEOUT : Z;
  TELEGRAM_MAX_TYPING_TASKS : Z;
  welcome_text : str;
  unknown_command_text : str;
  api_error_text : str;
  error_text : str -> option str
}.

(** The outside world, asked at every suspension point; the [nat] is the
    logical clock of the asking state. *)
Record world := mkWorld {
  cancel_at : nat -> bool;               (* the task is cancelled while it waits *)
  api : nat -> request -> response;      (* the remote API *)
  bus : nat -> option exn;               (* actor_system.send_message *)
  task_done : nat -> task -> bool;       (* task.done() *)
  running : nat -> bool;                 (* self.is_running *)
  has_actor_system : bool                (* self.get_actor_system() *)
}.

(** The fields of the actor, with the clock and the trace. *)
Record state := mkState {
  update_offset : Z;
  typing_tasks : Dict.dict task;
  typing_cleanup_counter : Z;
  next_task : task;
  clock : nat;
  trace : list event
}.

Definition init : state := mkState 0 [] 0 0%nat 0%nat [].

(** ** The monad of the coroutines *)

Inductive result (A : Type) :=
| Val (a : A)
| Exc (e : exn).
Arguments Val {A} a.
Arguments Exc {A} e.

Definition M (A : Type) := state -> result A * state.

Definition ret {A} (a : A) : M A := fun st => (Val a, st).

Definition raise {A} (e : exn) : M A := fun st => (Exc e, st).

Definition bind {A B} (m : M A) (f : A -> M B) : M B :=
  fun st =>
    match m st with
    | (Val a, st') => f a st'
    | (Exc e, st') => (Exc e, st')
    end.

(** [try: m except ...: h e]; a handler that does not match re-raises. *)
Definition try_except {A} (m : M A) (h : exn -> M A) : M A :=
  fun st =>
    match m st with
    | (Val a, st') => (Val a, st')
    | (Exc e, st') => h e st'
    end.

Declare Scope monad_scope.
Delimit Scope monad_scope with monad.
Notation "x <- m ;; k" := (bind m (fun x => k))
  (at level 61, m at next level, right associativity) : monad_scope.
Notation "m ;; k" := (bind m (fun _ => k))
  (at level 61, right associativity) : monad_scope.
Open Scope monad_scope.

Definition gets {A} (f : state -> A) : M A := fun st => (Val (f st), st).

Definition modify (f : state -> state) : M unit := fun st => (Val tt, f st).

Definition emit (e : event) : M unit :=
  modify (fun st =>
    mkState (update_offset st) (typing_tasks st) (typing_cleanup_counter st)
            (next_task st) (clock st) (trace st ++ [e])).

Definition tick : M nat :=
  fun st =>
    (Val (clock st),
     mkState (update_offset st) (typing_tasks st) (typing_cleanup_counter st)
             (next_task st) (S (clock st)) (trace st)).

Definition set_offset (z : Z) : M unit :=
  modify (fun st =>
    mkState z (typing_tasks st) (typing_cleanup_counter st)
            (next_task st) (clock st) (trace st));;
  emit (EvOffset z).

Definition set_tasks (d : Dict.dict task) : M unit :=
  modify (fun st =>
    mkState (update_offset st) d (typing_cleanup_counter st)
            (next_task st) (clock st) (trace st)).

Definition set_counter (z : Z) : M unit :=
  modify (fun st =>
    mkState (update_offset st) (typing_tasks st) z
            (next_task st) (clock st) (trace st)).

Definition fresh_task : M task :=
  fun st =>
    (Val (next_task st),
     mkState (update_offset st) (typing_tasks st) (typing_cleanup_counter st)
             (S (next_task st)) (clock st) (trace st)).

Definition log (l : level) (msg : string) : M unit := emit (EvLog l msg).

(** [for x in l: f x] *)
Fixpoint for_each {A} (f : A -> M unit) (l : list A) : M unit :=
  match l with
  | [] => ret tt
  | x :: l' => f x;; for_each f l'
  end.

(** [for _ in range(n): m] *)
Fixpoint repeat_ (n : nat) (m : M unit) : M unit :=
  match n with
  | O => ret tt
  | S n' => m;; repeat_ n' m
  end.

(** ** The actor *)

(** Messages delivered to [handle_message] by the actor system. *)
Inductive actor_message :=
| MsgProcessUserMessage (user chat : Z) (name : option str) (body : str)
| MsgBotResponse (chat : Z) (body : str)
| MsgError (chat : Z) (error_type : option str)
| MsgStreamingChunk
| MsgOther.

(** What one turn of a [while] loop asks for. *)
Inductive control := Continue | Break.

Section Actor.
Variable cfg : config.
Variable w : world.

(** Every suspension point lets a pending cancellation in. *)
Definition suspend : M nat :=
  now <- tick;;
  if cancel_at w now then raise CancelledError else ret now.

(** [timeout or TELEGRAM_API_DEFAULT_TIMEOUT] *)
Definition effective_timeout (timeout : option Z) : Z :=
  match timeout with
  | Some t => if t =? 0 then TELEGRAM_API_DEFAULT_TIMEOUT cfg else t
  | None => TELEGRAM_API_DEFAULT_TIMEOUT cfg
  end.

(** [_api_call]: one POST; an answer whose [ok] is false raises. The
    value is the [result] field (an absent field reads as the empty
    list). *)
Definition api_call (r : request) (timeout : option Z) : M (list update) :=
  emit (EvApi r (effective_timeout timeout));;
  now <- suspend;;
  match api w now r with
  | Ok res => ret res
  | NotOk => raise Error
  | Throws e => raise e
  end.

(** [asyncio.sleep] *)
Definition sleep (secs : Z) : M unit :=
  emit (EvSleep secs);;
  _ <- suspend;;
  ret tt.

(** [if self.get_actor_system(): await ....send_message(target, m)] *)
Definition send_to_bus (target : string) (m : bus_message) : M unit :=
  if has_actor_system w then
    emit (EvBus target m);;
    now <- suspend;;
    match bus w now with
    | Some e => raise e
    | None => ret tt
    end
  else ret tt.

(** [_get_updates] *)
Definition get_updates : M (list update) :=
  try_except
    (off <- gets update_offset;;
     updates <- api_call (GetUpdates off (TELEGRAM_POLLING_TIMEOUT cfg))
                         (Some (TELEGRAM_POLLING_TIMEOUT cfg + 5));;
     match updates with
     | [] => ret tt
     | u0 :: _ => set_offset (update_id (last updates u0) + 1)
     end;;
     ret updates)
    (fun e =>
       match e with
       | TimeoutError => ret []
       | CancelledError => raise CancelledError
       | _ => log Err "Failed to get updates";; ret []
       end).

(** The body of [for chunk in chunks] in [_send_message]. *)
Definition send_chunk (chat : Z) (chunk : str) : M unit :=
  try_except
    (_ <- api_call (SendMessage chat chunk true) None;; ret tt)
    (fun e =>
       if is_Exception e then
         log Err "Failed to send message";;
         try_except
           (_ <- api_call (SendMessage chat chunk false) None;; ret tt)
           (fun e2 =>
              if is_Exception e2 then log Err "Failed to send plain message"
              else raise e2)
       else raise e).

(** [_send_message] *)
Definition send_message (chat : Z) (body : str) : M unit :=
  for_each (send_chunk chat)
           (split_long_message (TELEGRAM_MAX_MESSAGE_LENGTH cfg) body).

(** [_handle_command] *)
Definition handle_command (chat : Z) (command : str) : M unit :=
  if list_eq_dec N.eq_dec command (of_string "/start")
  then send_message chat (welcome_text cfg)
  else send_message chat (unknown_command_text cfg).

(** [_stop_typing] *)
Definition stop_typing (chat : Z) : M unit :=
  d <- gets typing_tasks;;
  match Dict.get chat d with
  | Some t => emit (EvCancel t);; set_tasks (Dict.del chat d)
  | None => ret tt
  end.

(** [_cleanup_typing_tasks] *)
Definition cleanup_typing_tasks : M unit :=
  d <- gets typing_tasks;;
  now <- gets clock;;
  let completed_chats :=
    map fst (filter (fun kv => task_done w now (snd kv)) d) in
  set_tasks (fold_left (fun d' k => Dict.del k d') completed_chats d);;
  match completed_chats with
  | [] => ret tt
  | _ :: _ => log Debug "Cleaned completed typing tasks"
  end.

(** The body of [for _ in range(to_remove)] in [_start_typing]. *)
Definition evict_oldest : M unit :=
  d <- gets typing_tasks;;
  match Dict.first_key d with
  | None => raise RuntimeError
  | Some oldest_chat_id =>
      match Dict.get oldest_chat_id d with
      | Some t => emit (EvCancel t)
      | None => raise Error
      end;;
      set_tasks (Dict.del oldest_chat_id d)
  end.

(** [_start_typing] *)
Definition start_typing (chat : Z) : M unit :=
  stop_typing chat;;
  c <- gets typing_cleanup_counter;;
  set_counter (c + 1);;
  (if c + 1 >=? TELEGRAM_TYPING_CLEANUP_THRESHOLD cfg
   then cleanup_typing_tasks;; set_counter 0
   else ret tt);;
  d <- gets typing_tasks;;
  (if Dict.size d >=? TELEGRAM_MAX_TYPING_TASKS cfg then
     log Warning "Typing tasks limit reached, forcing cleanup";;
     cleanup_typing_tasks;;
     d' <- gets typing_tasks;;
     if Dict.size d' >=? TELEGRAM_MAX_TYPING_TASKS cfg then
       let to_remove := Z.max 1 (Dict.size d' / 10) in
       repeat_ (Z.to_nat to_remove) evict_oldest;;
       log Warning "Forcefully removed oldest typing tasks"
     else ret tt
   else ret tt);;
  t <- fresh_task;;
  emit (EvCreateTask t chat);;
  d <- gets typing_tasks;;
  set_tasks (Dict.set chat t d).

(** [_process_update] *)
Definition process_update (u : update) : M unit :=
  emit (EvProcess (update_id u));;
  match upd_message u with
  | None => ret tt
  | Some m =>
      let txt := match text m with Some t => t | None => [] end in
      if negb (truthy txt) then ret tt
      else if startswith_slash txt then handle_command (chat_id m) txt
      else
        start_typing (chat_id m);;
        send_to_bus "telegram"
          (ProcessUserMessage (from_id m) (chat_id m) (username m) txt);;
        log Debug "Queued message"
  end.

(** [_send_bot_response] *)
Definition send_bot_response (chat : Z) (body : str) : M unit :=
  stop_typing chat;;
  send_message chat body;;
  send_to_bus "user_session" (BotResponse chat body).

(** [_send_error_message] *)
Definition send_error_message (chat : Z) (error_type : option str)
  : M unit :=
  let key := match error_type with
             | Some k => k
             | None => of_string "api_error"
             end in
  stop_typing chat;;
  send_message chat
    (match error_text cfg key with
     | Some t => t
     | None => api_error_text cfg
     end).

(** [handle_message] *)
Definition handle_message (m : actor_message) : M unit :=
  match m with
  | MsgProcessUserMessage user chat name body =>
      send_to_bus "user_session" (UserMessage user chat name body)
  | MsgBotResponse chat body => send_bot_response chat body
  | MsgError chat error_type => send_error_message chat error_type
  | MsgStreamingChunk => ret tt
  | MsgOther => ret tt
  end.

(** The [try] block of [_polling_loop]. *)
Definition polling_body : M unit :=
  updates <- get_updates;;
  for_each process_update updates.

(** One turn of [while self.is_running] in [_polling_loop], with its
    two handlers. *)
Definition polling_iteration : M control :=
  try_except
    (polling_body;; ret Continue)
    (fun e =>
       match e with
       | CancelledError => ret Break
       | _ => log Err "Polling error";; sleep 5;; ret Continue
       end).

(** The [while] loop; [false] when the fuel ran out with the loop still
    going. *)
Fixpoint polling_while (fuel : nat) : M bool :=
  match fuel with
  | O => ret false
  | S fuel' =>
      now <- gets clock;;
      if running w now then
        c <- polling_iteration;;
        match c with
        | Break => ret true
        | Continue => polling_while fuel'
        end
      else ret true
  end.

(** [_polling_loop] *)
Definition polling_loop (fuel : nat) : M bool :=
  log Info "Started Telegram polling";;
  finished <- polling_while fuel;;
  (if finished then log Info "Stopped Telegram polling" else ret tt);;
  ret finished.

(** [shutdown], for an actor whose polling task and session exist. *)
Definition shutdown : M unit :=
  emit EvCancelPolling;;
  d <- gets typing_tasks;;
  for_each (fun kv => emit (EvCancel (snd kv))) d;;
  set_tasks [];;
  emit EvCloseSession;;
  log Info "TelegramInterfaceActor shutdown".

End Actor.

(** ** Runs of the actor *)

(** What can happen to the actor between two observations. The
    operations run one after the other, as the cooperative scheduler runs
    them when none is suspended; two coroutines interleaved at their
    suspension points are not part of the model. *)
Inductive op :=
| OpPoll                          (* one turn of the polling loop *)
| OpHandle (m : actor_message)    (* one message from the actor system *)
| OpStart (chat : Z)              (* the typing manager's start *)
| OpStop (chat : Z)               (* the typing manager's stop *)
| OpShutdown.

Definition run_op (cfg : config) (w : world) (o : op) (st : state) : state :=
  match o with
  | OpPoll => snd (polling_iteration cfg w st)
  | OpHandle m => snd (handle_message cfg w m st)
  | OpStart chat => snd (start_typing cfg w chat st)
  | OpStop chat => snd (stop_typing chat st)
  | OpShutdown => snd (shutdown st)
  end.

Definition run_ops (cfg : config) (w : world) (ops : list op) (st : state)
  : state :=
  fold_left (fun s o => run_op cfg w o s) ops st.

(** ** Reading traces *)

Definition processed (tr : list event) : list Z :=
  flat_map (fun e => match e with EvProcess i => [i] | _ => [] end) tr.

Definition offsets (tr : list event) : list Z :=
  flat_map (fun e => match e with EvOffset z => [z] | _ => [] end) tr.

Definition cancels (tr : list event) : list task :=
  flat_map (fun e => match e with EvCancel t => [t] | _ => [] end) tr.

Definition sleeps (tr : list event) : list Z :=
  flat_map (fun e => match e with EvSleep s => [s] | _ => [] end) tr.

Definition api_calls (tr : list event) : list request :=
  flat_map (fun e => match e with EvApi r _ => [r] | _ => [] end) tr.

(** [max(ids)] of a batch known to be non-empty. *)
Definition max_id (u0 : update) (us : list update) : Z :=
  fold_left Z.max (map update_id us) (update_id u0).

(** Ascending update ids. *)
Fixpoint ascending (ids : list Z) : bool :=
  match ids with
  | [] => true
  | a :: r =>
      match r with
      | [] => true
      | b :: _ => (a <=? b) && ascending r
      end
  end.

(** ** Vocabulary of the statements about the splitter *)

(** A string within the limit [C]. *)
Definition short (C : Z) (s : str) : Prop := len s <= C.

(** The paragraphs of a chunk in the making, as [current] holds them: an
    empty [current] takes the next paragraph without a separator, so the
    empty paragraphs at the head leave nothing. *)
Fixpoint drop_empty (g : list str) : list str :=
  match g with
  | [] => []
  | p :: r => if truthy p then p :: r else drop_empty r
  end.

(** The chunk made of the whole paragraphs [g]: they are joined by the
    separator and the two ends are stripped; no chunk when nothing is
    left to join. *)
Definition chunk_of (g : list str) : list str :=
  if truthy (join NLNL (drop_empty g))
  then [strip (join NLNL (drop_empty g))]
  else [].

(** [chunks] cuts [text] between paragraphs only: it is the text itself,
    or the paragraphs of the text, cut into consecutive groups, give the
    chunks group by group. *)
Definition whole_paragraphs (text : str) (chunks : list str) : Prop :=
  chunks = [text]
  \/ exists groups,
       List.concat groups = split_nlnl text
       /\ chunks = flat_map chunk_of groups.

(** The state of the loop after the paragraphs [done], when every
    paragraph is [clean]: nothing yet, or chunks that join to [done]. *)
Definition joins_to (done : list str) (acc : list str * str) : Prop :=
  (done = [] /\ acc = ([], []))
  \/ (done <> [] /\ clean (snd acc) = true
      /\ join NLNL (fst acc ++ [snd acc]) = join NLNL done).

(** A text of [k] separators and nothing else. *)
Definition blank (k : nat) : str := List.concat (repeat NLNL k).

(** ** Vocabulary of the statements about the coroutines *)

(** The exception an HTTP call ends with, if any. *)
Definition failure (r : response) : option exn :=
  match r with
  | Ok _ => None
  | NotOk => Some Error
  | Throws e => Some e
  end.

(** The state with its clock advanced by [n] suspensions and its trace
    extended by [tr]. *)
Definition later (n : nat) (tr : list event) (st : state) : state :=
  mkState (update_offset st) (typing_tasks st) (typing_cleanup_counter st)
          (next_task st) (n + clock st) (trace st ++ tr).

(** Settings and worlds for the examples. *)
Definition cfg0 : config :=
  mkConfig 30 4096 10 10 100
           (of_string "welcome") (of_string "unknown command")
           (of_string "error") (fun _ => None).

(** Small limits: messages of 9 characters, a pool of 2 tasks. *)
Definition small : config :=
  mkConfig 30 9 10 10 2
           (of_string "welcome") (of_string "unknown command")
           (of_string "error") (fun _ => None).

(** A world in which the first typing task has finished. *)
Definition first_task_finished : world :=
  mkWorld (fun _ => false) (fun _ _ => Ok []) (fun _ => None)
          (fun _ t => Nat.eqb t 0) (fun _ => true) true.

(** A remote API that answers every call with [res]. *)
Definition answering (res : response) : world :=
  mkWorld (fun _ => false) (fun _ _ => res) (fun _ => None)
          (fun _ _ => false) (fun _ => true) true.

(** A remote API that answers the calls one after the other with the
    responses of [script], then with empty results. *)
Definition scripted (script : list response) : world :=
  mkWorld (fun _ => false) (fun now _ => nth now script (Ok []))
          (fun _ => None) (fun _ _ => false) (fun _ => true) true.

(** An update that carries no message. *)
Definition bare (id : Z) : update := mkUpdate id None.

(** A remote API that answers a fetch with one update, whose id is the
    offset asked for. *)
Definition prompt : world :=
  mkWorld (fun _ => false)
          (fun _ r => match r with
                      | GetUpdates off _ => Ok [bare off]
                      | _ => Ok []
                      end)
          (fun _ => None) (fun _ _ => false) (fun _ => true) true.

(** ** Vocabulary of the statements about the pool *)

(** What [_stop_typing] does to the task it finds. *)
Definition stop_events (found : option task) : list event :=
  match found with
  | Some t => [EvCancel t]
  | None => []
  end.

(** The pool without its finished tasks. *)
Definition sweep (done : task -> bool) (d : Dict.dict task) : Dict.dict task :=
  filter (fun kv => negb (done (snd kv))) d.

(** The number of entries the capacity check takes away from a pool
    already swept, for the maximum [M]. *)
Definition evictions (M : Z) (swept : Dict.dict task) : nat :=
  if Dict.size swept >=? M then Z.to_nat (Z.max 1 (Dict.size swept / 10))
  else 0%nat.

(** The pool that reaches the eviction test of [_start_typing]: without
    the task of [chat], and without the finished tasks when one of the two
    clean-ups ran. *)
Definition swept_pool (cfg : config) (w : world) (chat : Z) (st : state)
  : Dict.dict task :=
  let d1 := Dict.del chat (typing_tasks st) in
  if (typing_cleanup_counter st + 1 >=? TELEGRAM_TYPING_CLEANUP_THRESHOLD cfg)
     || (Dict.size d1 >=? TELEGRAM_MAX_TYPING_TASKS cfg)
  then sweep (task_done w (clock st)) d1
  else d1.

(** The state with pool [d], counter [c] and [tr] more in its trace. *)
Definition pool_state (d : Dict.dict task) (c : Z) (tr : list event)
           (st : state) : state :=
  mkState (update_offset st) d c (next_task st) (clock st) (trace st ++ tr).

(** [m] takes every state to one related to it by [R], whether it returns
    or raises. *)
Definition respects (R : state -> state -> Prop) {A} (m : M A) : Prop :=
  forall st, R st (snd (m st)).

(** A piece of trace with no assignment to the offset and no dispatch. *)
Definition quiet (tr : list event) : Prop :=
  offsets tr = [] /\ processed tr = [].

Definition quiet_event (e : event) : bool :=
  match e with
  | EvOffset _ | EvProcess _ => false
  | _ => true
  end.

(** The trace only grows, by a quiet piece. *)
Definition grows_quietly (s s' : state) : Prop :=
  exists tr, trace s' = trace s ++ tr /\ quiet tr.

(** Input and output only: the offset and the pool are left alone. *)
Definition io_only (s s' : state) : Prop :=
  update_offset s' = update_offset s
  /\ typing_tasks s' = typing_tasks s
  /\ grows_quietly s s'.

Definition distinct_keys (s : state) : Prop :=
  NoDup (Dict.keys (typing_tasks s)).

(** Work on the pool: the offset is left alone and the keys of the pool
    stay distinct. *)
Definition pool_only (s s' : state) : Prop :=
  update_offset s' = update_offset s
  /\ (distinct_keys s -> distinct_keys s')
  /\ grows_quietly s s'.

Definition keeps_distinct (s s' : state) : Prop :=
  distinct_keys s -> distinct_keys s'.

(** The pool stays a dictionary of at most [M] entries. *)
Definition within_limit (M : Z) (s s' : state) : Prop :=
  distinct_keys s /\ Dict.size (typing_tasks s) <= M ->
  distinct_keys s' /\ Dict.size (typing_tasks s') <= M.

Definition offset_grows (s s' : state) : Prop :=
  update_offset s <= update_offset s'.

(** The remote API honours the requested offset: every update it returns
    has an id at or above it. *)
Definition honours_offset (w : world) : Prop :=
  forall now off timeout res,
    api w now (GetUpdates off timeout) = Ok res ->
    Forall (fun u => off <= update_id u) res.

(** ** Vocabulary of the further properties *)

(** The chunks closed so far, and one more if [current] is not empty. *)
Definition pending (acc : list str * str) : nat :=
  (List.length (fst acc) + if truthy (snd acc) then 1 else 0)%nat.

(** Every exception that [m] lets out satisfies [P]. *)
Definition raises_only (P : exn -> Prop) {A} (m : M A) : Prop :=
  forall st e, fst (m st) = Exc e -> P e.

Definition is_cancellation (e : exn) : Prop := e = CancelledError.

Definition is_failure (e : exn) : Prop := is_Exception e = true.

(** A world in which nothing is ever cancelled. *)
Definition calm (w : world) : Prop :=
  forall now,
    cancel_at w now = false
    /\ (forall r, api w now r <> Throws CancelledError)
    /\ bus w now <> Some CancelledError.

(** The trace grows, by events that satisfy [allowed] only. *)
Definition emits_only (allowed : event -> bool) (s s' : state) : Prop :=
  exists tr, trace s' = trace s ++ tr /\ forallb allowed tr = true.

(** Calls of the remote API and lines of the log. *)
Definition is_wire (e : event) : bool :=
  match e with
  | EvApi _ _ | EvLog _ _ => true
  | _ => false
  end.

(** Calls of the remote API, lines of the log and sends to the bus. *)
Definition is_outbound (e : event) : bool :=
  match e with
  | EvApi _ _ | EvLog _ _ | EvBus _ _ => true
  | _ => false
  end.

(** The conversation whose typing task a message of the actor system
    stops. *)
Definition conversation_of (m : actor_message) : option Z :=
  match m with
  | MsgBotResponse chat _ | MsgError chat _ => Some chat
  | _ => None
  end.

(** The message and the text of an update that is neither dropped nor a
    command: the updates [_process_update] forwards. *)
Definition plain_text (u : update) : option (message * str) :=
  match upd_message u with
  | None => None
  | Some m =>
      let txt := match text m with Some t => t | None => [] end in
      if negb (truthy txt) then None
      else if startswith_slash txt then None
      else Some (m, txt)
  end.

(** ** The typing task: [_typing_loop] *)

Section TypingLoop.
Variable cfg : config.
Variable w : world.

(** [TELEGRAM_TYPING_UPDATE_INTERVAL], a setting the record of the
    settings does not hold. *)
Variable interval : Z.

(** One turn of [while True]. *)
Definition typing_turn (chat : Z) : M unit :=
  _ <- api_call cfg w (SendChatAction chat) None;;
  sleep w interval.

(** The loop [while True], which only an exception ends; [false] when the
    fuel ran out. *)
Fixpoint typing_while (fuel : nat) (chat : Z) : M bool :=
  match fuel with
  | O => ret false
  | S fuel' => typing_turn chat;; typing_while fuel' chat
  end.

(** [_typing_loop]; [true] when the coroutine returned. *)
Definition typing_loop (fuel : nat) (chat : Z) : M bool :=
  try_except
    (typing_while fuel chat)
    (fun e =>
       match e with
       | CancelledError => ret true
       | _ => raise e
       end).

(** What [n] turns of the loop leave in the trace. *)
Definition typing_trace (n : nat) (chat : Z) : list event :=
  List.concat
    (repeat [EvApi (SendChatAction chat) (TELEGRAM_API_DEFAULT_TIMEOUT cfg);
             EvSleep interval] n).

(** The first [n] turns from the state [st] go well: no cancellation, and
    the remote API accepts the call. *)
Definition good_turns (n : nat) (chat : Z) (st : state) : Prop :=
  forall i, (i < n)%nat ->
    cancel_at w (2 * i + clock st) = false
    /\ failure (api w (2 * i + clock st) (SendChatAction chat)) = None
    /\ cancel_at w (S (2 * i + clock st)) = false.
End TypingLoop.

(** The calls [_send_message] makes for [chunks], when [retried] tells for
    each chunk whether the send with Markdown failed. *)
Definition sends (chat : Z) (chunks : list str) (retried : list bool)
  : list request :=
  flat_map
    (fun cr : str * bool =>
       SendMessage chat (fst cr) true
       :: if snd cr then [SendMessage chat (fst cr) false] else [])
    (combine chunks retried).


(** The clean-up counter is left alone. *)
Definition keeps_counter (s s' : state) : Prop :=
  typing_cleanup_counter s' = typing_cleanup_counter s.

(** The clean-up counter stays at or above 0 and below [T]. *)
Definition counter_in_range (T : Z) (s s' : state) : Prop :=
  0 <= typing_cleanup_counter s < T -> 0 <= typing_cleanup_counter s' < T.

(** For each chunk, whether its send with Markdown fails, when the call
    for the first chunk is made at the time [now]: a chunk takes one call,
    and a second one when the first fails. *)
Fixpoint retries (w : world) (chat : Z) (now : nat) (chunks : list str)
  : list bool :=
  match chunks with
  | [] => []
  | chunk :: rest =>
      match failure (api w now (SendMessage chat chunk true)) with
      | Some _ => true :: retries w chat (S (S now)) rest
      | None => false :: retries w chat (S now) rest
      end
  end.

(** The state of the actor after [n] turns of the loop of [_polling_loop]. *)
Fixpoint after_turns (cfg : config) (w : world) (n : nat) (st : state)
  : state :=
  match n with
  | O => st
  | S n' => after_turns cfg w n' (snd (polling_iteration cfg w st))
  end.

(** The first [n] turns of the loop from [st] go on: the actor is running
    when each of them begins, and each ends with the loop still going
    (it is not cancelled). *)
Definition turns_go_on (cfg : config) (w : world) (n : nat) (st : state)
  : Prop :=
  forall i, (i < n)%nat ->
    running w (clock (after_turns cfg w i st)) = true
    /\ fst (polling_iteration cfg w (after_turns cfg w i st)) = Val Continue.

(** No suspension point is passed: the clock is left alone. *)
Definition keeps_clock (s s' : state) : Prop := clock s' = clock s.
(** * Theorems *)

(** ** Strings *)

Lemma len_nonneg (s : str) : 0 <= len s.
Proof. unfold len. lia. Qed.

Lemma len_app (s t : str) : len (s ++ t) = len s + len t.
Proof. unfold len. rewrite length_app. lia. Qed.

Lemma lstrip_length (s : str) : (List.length (lstrip s) <= List.length s)%nat.
Proof.
  induction s as [|c s IH]; simpl; [lia|].
  destruct (isspace c); simpl; lia.
Qed.

Lemma strip_len (s : str) : len (strip s) <= len s.
Proof.
  unfold strip, rstrip, len.
  rewrite length_rev.
  pose proof (lstrip_length (rev (lstrip s))) as H1.
  rewrite length_rev in H1.
  pose proof (lstrip_length s). lia.
Qed.

Lemma lstrip_black (s : str) : starts_black s = true -> lstrip s = s.
Proof.
  destruct s as [|c r]; [discriminate|].
  simpl. intros H. apply negb_true_iff in H. now rewrite H.
Qed.

Lemma strip_clean (s : str) : clean s = true -> strip s = s.
Proof.
  unfold clean, strip, rstrip. intros H.
  apply andb_true_iff in H as [H1 H2].
  rewrite (lstrip_black s H1), (lstrip_black (rev s) H2).
  apply rev_involutive.
Qed.

Lemma starts_black_app (a b : str) :
  starts_black a = true -> starts_black (a ++ b) = true.
Proof. destruct a; [discriminate|trivial]. Qed.

Lemma clean_truthy (s : str) : clean s = true -> truthy s = true.
Proof. destruct s; [discriminate|reflexivity]. Qed.

Lemma clean_glue (a b : str) :
  clean a = true -> clean b = true -> clean (a ++ NLNL ++ b) = true.
Proof.
  unfold clean. intros Ha Hb.
  apply andb_true_iff in Ha as [Ha _], Hb as [_ Hb].
  apply andb_true_iff. split.
  - now apply starts_black_app.
  - rewrite !rev_app_distr, <- app_assoc. now apply starts_black_app.
Qed.

Lemma split_nlnl_nonempty (s : str) : split_nlnl s <> [].
Proof.
  destruct s as [|c1 [|c2 s2]]; try discriminate.
  change (split_nlnl (c1 :: c2 :: s2))
    with (if ((c1 =? NL) && (c2 =? NL))%N then [] :: split_nlnl s2
          else cons_hd c1 (split_nlnl (c2 :: s2))).
  destruct ((c1 =? NL) && (c2 =? NL))%N; [discriminate|].
  unfold cons_hd. destruct (split_nlnl (c2 :: s2)); discriminate.
Qed.

Lemma join_cons_hd (sep : str) (c : char) (l : list str) :
  l <> [] -> join sep (cons_hd c l) = c :: join sep l.
Proof.
  intros H. destruct l as [|p [|q r]]; [congruence| |]; reflexivity.
Qed.

Lemma join_cons (sep x : str) (l : list str) :
  l <> [] -> join sep (x :: l) = x ++ sep ++ join sep l.
Proof. intros H. destruct l; [congruence|reflexivity]. Qed.

Lemma join_snoc (sep x : str) (l : list str) :
  l <> [] -> join sep (l ++ [x]) = join sep l ++ sep ++ x.
Proof.
  induction l as [|a l IH]; [congruence|]. intros _.
  destruct l as [|b l].
  - reflexivity.
  - change ((a :: b :: l) ++ [x]) with (a :: ((b :: l) ++ [x])).
    rewrite join_cons by discriminate.
    rewrite IH by discriminate.
    rewrite (join_cons sep a (b :: l)) by discriminate.
    now rewrite <- !app_assoc.
Qed.

(** Splitting at the separator and joining with it gives the text back. *)
Lemma join_split_nlnl (s : str) : join NLNL (split_nlnl s) = s.
Proof.
  remember (List.length s) as n eqn:Hn.
  revert s Hn.
  induction n as [n IH] using lt_wf_ind. intros s Hn.
  destruct s as [|c1 [|c2 s2]]; try reflexivity.
  change (split_nlnl (c1 :: c2 :: s2))
    with (if ((c1 =? NL) && (c2 =? NL))%N then [] :: split_nlnl s2
          else cons_hd c1 (split_nlnl (c2 :: s2))).
  destruct ((c1 =? NL) && (c2 =? NL))%N eqn:E.
  - apply andb_true_iff in E as [E1 E2].
    apply N.eqb_eq in E1, E2. subst c1 c2.
    rewrite join_cons by apply split_nlnl_nonempty.
    rewrite (IH (List.length s2)); [reflexivity| |reflexivity].
    subst n. simpl. lia.
  - rewrite join_cons_hd by apply split_nlnl_nonempty.
    rewrite (IH (List.length (c2 :: s2))); [reflexivity| |reflexivity].
    subst n. simpl. lia.
Qed.

(** ** The message splitter *)

Lemma split_step_short (C : Z) (chunks : list str) (current p : str) :
  Forall (short C) chunks -> short C current -> short C p ->
  Forall (short C) (fst (split_step C (chunks, current) p))
  /\ short C (snd (split_step C (chunks, current) p)).
Proof.
  unfold short, split_step. intros Hch Hcur Hp.
  destruct (len current + len p + 2 >? C) eqn:E; simpl.
  - split; [|assumption].
    destruct (truthy current); [|assumption].
    apply Forall_app. split; [assumption|].
    constructor; [|constructor].
    pose proof (strip_len current). unfold short. lia.
  - split; [assumption|].
    rewrite Z.gtb_ltb in E. apply Z.ltb_ge in E.
    destruct (truthy current); rewrite !len_app.
    + change (len NLNL) with 2. lia.
    + pose proof (len_nonneg current). lia.
Qed.

Lemma fold_split_step_short (C : Z) (ps : list str) :
  Forall (short C) ps ->
  forall acc,
    Forall (short C) (fst acc) -> short C (snd acc) ->
    Forall (short C) (fst (fold_left (split_step C) ps acc))
    /\ short C (snd (fold_left (split_step C) ps acc)).
Proof.
  induction 1 as [|p ps Hp Hps IH]; intros [chunks current] H1 H2.
  - auto.
  - cbn [fold_left]. cbn [fst snd] in H1, H2.
    destruct (split_step_short C chunks current p H1 H2 Hp) as [H3 H4].
    destruct (split_step C (chunks, current) p) as [chunks' current'].
    apply IH; assumption.
Qed.

Lemma join_snoc_glue (chunks : list str) (a b : str) :
  join NLNL (chunks ++ [(a ++ NLNL) ++ b])
  = join NLNL (chunks ++ [a]) ++ NLNL ++ b.
Proof.
  destruct chunks as [|c chunks].
  - simpl. now rewrite <- app_assoc.
  - rewrite !join_snoc by discriminate. now rewrite <- !app_assoc.
Qed.

Lemma split_step_joins (C : Z) (done : list str) (acc : list str * str)
      (p : str) :
  clean p = true -> joins_to done acc ->
  joins_to (done ++ [p]) (split_step C acc p).
Proof.
  intros Hp [[-> ->]|(Hd & Hc & Hj)]; right.
  - split; [discriminate|].
    unfold split_step. simpl truthy.
    destruct (len [] + len p + 2 >? C); simpl; auto.
  - destruct acc as [chunks current]. simpl in Hc, Hj.
    split; [now destruct done|].
    unfold split_step. rewrite (clean_truthy current Hc).
    destruct (len current + len p + 2 >? C); simpl.
    + split; [assumption|].
      rewrite (strip_clean current Hc).
      rewrite join_snoc by now destruct chunks.
      rewrite Hj. symmetry. now apply join_snoc.
    + split; [rewrite <- app_assoc; now apply clean_glue|].
      rewrite join_snoc_glue, Hj. symmetry. now apply join_snoc.
Qed.

Lemma fold_split_step_joins (C : Z) (ps : list str) :
  Forall (fun p => clean p = true) ps ->
  forall done acc,
    joins_to done acc ->
    joins_to (done ++ ps) (fold_left (split_step C) ps acc).
Proof.
  induction 1 as [|p ps Hp Hps IH]; intros done acc H; simpl.
  - now rewrite app_nil_r.
  - change (p :: ps) with ([p] ++ ps). rewrite app_assoc.
    apply IH. now apply split_step_joins.
Qed.

Lemma split_nlnl_blank (k : nat) : split_nlnl (blank k) = repeat [] (S k).
Proof.
  induction k as [|k IH]; [reflexivity|].
  change (blank (S k)) with (NL :: NL :: blank k).
  change (split_nlnl (NL :: NL :: blank k)) with ([] :: split_nlnl (blank k)).
  now rewrite IH.
Qed.

Lemma len_blank (k : nat) : len (blank k) = 2 * Z.of_nat k.
Proof.
  induction k as [|k IH]; [reflexivity|].
  change (blank (S k)) with (NLNL ++ blank k).
  rewrite len_app, IH. change (len NLNL) with 2. lia.
Qed.

Lemma fold_split_step_empty (C : Z) (n : nat) :
  fold_left (split_step C) (repeat [] n) ([], []) = ([], []).
Proof.
  induction n as [|n IH]; [reflexivity|].
  simpl. destruct (2 >? C); exact IH.
Qed.

Lemma split_long_message_blank (C : Z) (k : nat) :
  C < 2 * Z.of_nat k -> split_long_message C (blank k) = [].
Proof.
  intros H. unfold split_long_message.
  rewrite len_blank.
  destruct (2 * Z.of_nat k <=? C) eqn:E; [apply Z.leb_le in E; lia|].
  now rewrite split_nlnl_blank, fold_split_step_empty.
Qed.

Lemma join_drop_empty_one (p : str) : join NLNL (drop_empty [p]) = p.
Proof. destruct p; reflexivity. Qed.

Lemma truthy_join_cons (c : char) (q : str) (r : list str) :
  truthy (join NLNL ((c :: q) :: r)) = true.
Proof. destruct r; reflexivity. Qed.

(** What one more paragraph makes of [current]. *)
Lemma join_drop_empty_snoc (g : list str) (p : str) :
  join NLNL (drop_empty (g ++ [p]))
  = (if truthy (join NLNL (drop_empty g))
     then join NLNL (drop_empty g) ++ NLNL
     else join NLNL (drop_empty g)) ++ p.
Proof.
  induction g as [|q r IH].
  - simpl app. rewrite join_drop_empty_one. reflexivity.
  - destruct q as [|c q].
    + exact IH.
    + change (drop_empty (((c :: q) :: r) ++ [p]))
        with (((c :: q) :: r) ++ [p]).
      change (drop_empty ((c :: q) :: r)) with ((c :: q) :: r).
      rewrite truthy_join_cons.
      rewrite join_snoc by discriminate. now rewrite <- app_assoc.
Qed.

Lemma flat_map_chunk_of_snoc (gs : list (list str)) (g : list str) :
  flat_map chunk_of (gs ++ [g])
  = if truthy (join NLNL (drop_empty g))
    then flat_map chunk_of gs ++ [strip (join NLNL (drop_empty g))]
    else flat_map chunk_of gs.
Proof.
  rewrite flat_map_app. simpl. rewrite app_nil_r. unfold chunk_of.
  destruct (truthy (join NLNL (drop_empty g))); [reflexivity|].
  apply app_nil_r.
Qed.

(** A turn of the loop closes the group of paragraphs in the making, or
    puts the paragraph into it. *)
Lemma split_step_groups (C : Z) (gs : list (list str)) (g : list str)
      (p : str) :
  exists gs' g',
    List.concat gs' ++ g' = List.concat gs ++ g ++ [p]
    /\ split_step C (flat_map chunk_of gs, join NLNL (drop_empty g)) p
       = (flat_map chunk_of gs', join NLNL (drop_empty g')).
Proof.
  unfold split_step.
  destruct (len (join NLNL (drop_empty g)) + len p + 2 >? C).
  - exists (gs ++ [g]), [p]. split.
    + rewrite concat_app. simpl. now rewrite app_nil_r, <- app_assoc.
    + now rewrite flat_map_chunk_of_snoc, join_drop_empty_one.
  - exists gs, (g ++ [p]). split; [reflexivity|].
    now rewrite join_drop_empty_snoc.
Qed.

Lemma fold_split_step_groups (C : Z) (ps : list str) :
  forall (gs : list (list str)) (g : list str),
  exists gs' g',
    List.concat gs' ++ g' = List.concat gs ++ g ++ ps
    /\ fold_left (split_step C) ps
         (flat_map chunk_of gs, join NLNL (drop_empty g))
       = (flat_map chunk_of gs', join NLNL (drop_empty g')).
Proof.
  induction ps as [|p ps IH]; intros gs g.
  - exists gs, g. split; [now rewrite app_nil_r|reflexivity].
  - destruct (split_step_groups C gs g p) as (gs1 & g1 & E1 & S1).
    destruct (IH gs1 g1) as (gs2 & g2 & E2 & S2).
    exists gs2, g2. split.
    + rewrite E2, app_assoc, E1. now rewrite <- !app_assoc.
    + cbn [fold_left]. now rewrite S1.
Qed.

(** The chunks are made of whole paragraphs, whatever their lengths. *)
Lemma split_long_message_groups (C : Z) (body : str) :
  whole_paragraphs body (split_long_message C body).
Proof.
  unfold split_long_message.
  destruct (len body <=? C); [now left|]. right.
  destruct (fold_split_step_groups C (split_nlnl body) [] [])
    as (gs & g & E & F).
  change (List.concat [] ++ [] ++ split_nlnl body) with (split_nlnl body) in E.
  change (flat_map chunk_of [], join NLNL (drop_empty []))
    with (@nil str, @nil char) in F.
  rewrite F.
  exists (gs ++ [g]). split.
  - rewrite concat_app. simpl. now rewrite app_nil_r.
  - now rewrite flat_map_chunk_of_snoc.
Qed.

(** C2 (as amended). When no paragraph of the text is longer than the
    limit [C], every chunk produced by the splitter has length at most
    [C]; and the splitter never cuts inside a paragraph: the chunks are
    the text itself, or the paragraphs of the text, cut into consecutive
    groups, give the chunks group by group, each the join of whole
    paragraphs with its two ends stripped. *)
Theorem split_long_message_short (C : Z) (body : str) :
  Forall (short C) (split_nlnl body) ->
  Forall (short C) (split_long_message C body)
  /\ whole_paragraphs body (split_long_message C body).
Proof.
  intros H. split; [|apply split_long_message_groups].
  unfold split_long_message.
  destruct (len body <=? C) eqn:E.
  - apply Z.leb_le in E. now repeat constructor.
  - destruct (fold_split_step_short C _ H ([], [])) as [H1 H2].
    + constructor.
    + unfold short. simpl. pose proof (len_nonneg body).
      apply Z.leb_gt in E.
      destruct (split_nlnl body) as [|p ps] eqn:Es;
        [now apply split_nlnl_nonempty in Es|].
      inversion H; subst. unfold short in *. pose proof (len_nonneg p).
      change (len []) with 0. lia.
    + destruct (fold_left (split_step C) (split_nlnl body) ([], []))
        as [chunks current]. simpl in H1, H2.
      destruct (truthy current); [|assumption].
      apply Forall_app. split; [assumption|].
      constructor; [|constructor].
      pose proof (strip_len current). unfold short in *. lia.
Qed.

Lemma split_long_message_short_witness :
  Forall (short 9) (split_nlnl (paras ["aaa"; "bbb"; "ccc"]%string))
  /\ Forall (short 9) (split_long_message 9 (paras ["aaa"; "bbb"; "ccc"]%string))
  /\ whole_paragraphs (paras ["aaa"; "bbb"; "ccc"]%string)
       (split_long_message 9 (paras ["aaa"; "bbb"; "ccc"]%string)).
Proof.
  assert (H : Forall (short 9) (split_nlnl (paras ["aaa"; "bbb"; "ccc"]%string))).
  { change (split_nlnl (paras ["aaa"; "bbb"; "ccc"]%string))
      with [of_string "aaa"; of_string "bbb"; of_string "ccc"].
    repeat (apply Forall_cons; [vm_compute; discriminate|]). apply Forall_nil. }
  split; [exact H|].
  apply (split_long_message_short 9 (paras ["aaa"; "bbb"; "ccc"]%string) H).
Defined.

(** The groups of a text of three paragraphs under a limit of 9: the
    first two paragraphs make one chunk, the third the other. *)
Example groups_of_three_paragraphs :
  split_long_message 9 (paras ["aaa"; "bbb"; "ccc"]%string)
  = flat_map chunk_of [[of_string "aaa"; of_string "bbb"]; [of_string "ccc"]].
Proof. reflexivity. Qed.

(** C2 as stated fails: a paragraph longer than the limit is kept whole,
    as one chunk longer than the limit. *)
Lemma long_paragraph_kept_whole :
  split_long_message 4 (paras ["abcdef"; "gh"]%string)
  = [of_string "abcdef"; of_string "gh"]
  /\ ~ Forall (short 4) (split_long_message 4 (paras ["abcdef"; "gh"]%string)).
Proof.
  split; [reflexivity|].
  intros H. inversion H as [|? ? H1 _]; subst.
  vm_compute in H1. now apply H1.
Qed.

(** C4 (as amended). When every paragraph of the text is non-empty and
    neither begins nor ends with white space, joining the chunks with the
    separator gives the text back, whatever the lengths of the paragraphs
    are. *)
Theorem join_split_long_message (C : Z) (body : str) :
  Forall (fun p => clean p = true) (split_nlnl body) ->
  join NLNL (split_long_message C body) = body.
Proof.
  intros H. unfold split_long_message.
  destruct (len body <=? C); [reflexivity|].
  pose proof (fold_split_step_joins C _ H [] ([], [])) as J.
  simpl app in J.
  destruct J as [[E _]|(_ & Hc & Hj)]; [now left| |].
  - now apply split_nlnl_nonempty in E.
  - destruct (fold_left (split_step C) (split_nlnl body) ([], []))
      as [chunks current]. simpl in Hc, Hj.
    rewrite (clean_truthy current Hc), (strip_clean current Hc), Hj.
    apply join_split_nlnl.
Qed.

Lemma join_split_long_message_witness :
  Forall (fun p => clean p = true) (split_nlnl (paras ["aaa"; "bbb"; "ccc"]%string))
  /\ join NLNL (split_long_message 9 (paras ["aaa"; "bbb"; "ccc"]%string))
     = paras ["aaa"; "bbb"; "ccc"]%string.
Proof.
  assert (H : Forall (fun p => clean p = true)
                     (split_nlnl (paras ["aaa"; "bbb"; "ccc"]%string))).
  { change (split_nlnl (paras ["aaa"; "bbb"; "ccc"]%string))
      with [of_string "aaa"; of_string "bbb"; of_string "ccc"].
    repeat constructor. }
  split; [exact H|].
  apply (join_split_long_message 9 (paras ["aaa"; "bbb"; "ccc"]%string) H).
Defined.

(** C4 as stated fails: no paragraph exceeds the limit, yet [strip] drops
    the blank that begins the first chunk. *)
Lemma strip_loses_edge_whitespace :
  Forall (short 3) (split_nlnl (paras [" a"; "b"]%string))
  /\ split_long_message 3 (paras [" a"; "b"]%string) = [of_string "a"; of_string "b"]
  /\ join NLNL (split_long_message 3 (paras [" a"; "b"]%string)) <> paras [" a"; "b"]%string.
Proof.
  split; [|split].
  - change (split_nlnl (paras [" a"; "b"]%string))
      with [of_string " a"; of_string "b"].
    repeat (apply Forall_cons; [vm_compute; discriminate|]). apply Forall_nil.
  - reflexivity.
  - discriminate.
Qed.

(** An empty paragraph is lost as well. *)
Example empty_paragraph_lost :
  split_long_message 3 (paras ["a"; ""; "b"]%string) = [of_string "a"; of_string "b"].
Proof. reflexivity. Qed.

(** The scenario of three paragraphs that exceed the limit only together:
    two chunks, cut between the second and the third. *)
Example split_three_paragraphs :
  split_long_message 9 (paras ["aaa"; "bbb"; "ccc"]%string)
  = [paras ["aaa"; "bbb"]%string; of_string "ccc"].
Proof. reflexivity. Qed.

(** ** Reasoning about the coroutines *)

Section Respects.
Context (R : state -> state -> Prop) `{!PreOrder R}.

Lemma respects_ret {A} (a : A) : respects R (ret a).
Proof. intros st. reflexivity. Qed.

Lemma respects_raise {A} (e : exn) : respects R (@raise A e).
Proof. intros st. reflexivity. Qed.

Lemma respects_gets {A} (f : state -> A) : respects R (gets f).
Proof. intros st. reflexivity. Qed.

Lemma respects_bind {A B} (m : M A) (f : A -> M B) :
  respects R m -> (forall a, respects R (f a)) -> respects R (bind m f).
Proof.
  intros Hm Hf st. unfold bind.
  specialize (Hm st). destruct (m st) as [[a|e] st1]; simpl in *.
  - etransitivity; [exact Hm|apply Hf].
  - exact Hm.
Qed.

Lemma respects_try_except {A} (m : M A) (h : exn -> M A) :
  respects R m -> (forall e, respects R (h e)) ->
  respects R (try_except m h).
Proof.
  intros Hm Hh st. unfold try_except.
  specialize (Hm st). destruct (m st) as [[a|e] st1]; simpl in *.
  - exact Hm.
  - etransitivity; [exact Hm|apply Hh].
Qed.

Lemma respects_for_each {A} (f : A -> M unit) (l : list A) :
  (forall a, respects R (f a)) -> respects R (for_each f l).
Proof.
  intros Hf. induction l as [|x l IH]; simpl.
  - apply respects_ret.
  - apply respects_bind; auto.
Qed.

Lemma respects_repeat (n : nat) (m : M unit) :
  respects R m -> respects R (repeat_ n m).
Proof.
  intros Hm. induction n as [|n IH]; simpl.
  - apply respects_ret.
  - apply respects_bind; auto.
Qed.
End Respects.

Lemma respects_weaken (R R' : state -> state -> Prop) {A} (m : M A) :
  (forall s s', R s s' -> R' s s') -> respects R m -> respects R' m.
Proof. intros H Hm st. apply H, Hm. Qed.

Create HintDb respects.

(** Takes a goal [respects R m] apart along the shape of [m]. *)
Ltac respects_tac :=
  repeat (intros;
    match goal with
    | |- _ => solve [auto with respects]
    | |- respects _ (bind _ _) => apply respects_bind; [typeclasses eauto| |]
    | |- respects _ (try_except _ _) =>
        apply respects_try_except; [typeclasses eauto| |]
    | |- respects _ (for_each _ _) =>
        apply respects_for_each; [typeclasses eauto|]
    | |- respects _ (repeat_ _ _) =>
        apply respects_repeat; [typeclasses eauto|]
    | |- respects _ (ret _) => apply respects_ret; typeclasses eauto
    | |- respects _ (raise _) => apply respects_raise; typeclasses eauto
    | |- respects _ (gets _) => apply respects_gets; typeclasses eauto
    | |- respects _ (match ?x with _ => _ end) => destruct x
    | |- respects _ _ => progress cbv zeta
    end).

Lemma offsets_app (a b : list event) : offsets (a ++ b) = offsets a ++ offsets b.
Proof. apply flat_map_app. Qed.

Lemma processed_app (a b : list event) :
  processed (a ++ b) = processed a ++ processed b.
Proof. apply flat_map_app. Qed.

Lemma cancels_app (a b : list event) : cancels (a ++ b) = cancels a ++ cancels b.
Proof. apply flat_map_app. Qed.

Lemma quiet_nil : quiet [].
Proof. split; reflexivity. Qed.

Lemma quiet_app (a b : list event) : quiet a -> quiet b -> quiet (a ++ b).
Proof.
  intros [A1 A2] [B1 B2]. split.
  - now rewrite offsets_app, A1, B1.
  - now rewrite processed_app, A2, B2.
Qed.

Lemma quiet_one (e : event) : quiet_event e = true -> quiet [e].
Proof. destruct e; try discriminate; intros _; split; reflexivity. Qed.

#[local] Instance grows_quietly_preorder : PreOrder grows_quietly.
Proof.
  split.
  - intros s. exists []. split; [now rewrite app_nil_r|apply quiet_nil].
  - intros a b c (t1 & E1 & Q1) (t2 & E2 & Q2).
    exists (t1 ++ t2). split; [|now apply quiet_app].
    now rewrite E2, E1, app_assoc.
Qed.

#[local] Instance io_only_preorder : PreOrder io_only.
Proof.
  split.
  - intros s. repeat split; reflexivity.
  - intros a b c (A1 & A2 & A3) (B1 & B2 & B3).
    repeat split; try congruence. etransitivity; eassumption.
Qed.

#[local] Instance pool_only_preorder : PreOrder pool_only.
Proof.
  split.
  - intros s. repeat split; try reflexivity. auto.
  - intros a b c (A1 & A2 & A3) (B1 & B2 & B3).
    repeat split; try congruence; auto. etransitivity; eassumption.
Qed.

#[local] Instance keeps_distinct_preorder : PreOrder keeps_distinct.
Proof. split; unfold keeps_distinct; [intros s|intros a b c]; auto. Qed.

#[local] Instance offset_grows_preorder : PreOrder offset_grows.
Proof.
  split; unfold offset_grows; [intros s|intros a b c]; lia.
Qed.

Lemma io_only_pool_only (s s' : state) : io_only s s' -> pool_only s s'.
Proof.
  intros (H1 & H2 & H3). repeat split; auto.
  unfold distinct_keys. now rewrite H2.
Qed.

Lemma pool_only_keeps_distinct (s s' : state) :
  pool_only s s' -> keeps_distinct s s'.
Proof. intros (_ & H & _). exact H. Qed.

Lemma pool_only_offset_grows (s s' : state) :
  pool_only s s' -> offset_grows s s'.
Proof. intros (H & _). unfold offset_grows. lia. Qed.

(** ** The dictionary *)

Section DictFacts.
Context {V : Type}.
Implicit Types (d : Dict.dict V) (k : Z) (v : V).

Lemma size_nonneg d : 0 <= Dict.size d.
Proof. unfold Dict.size. lia. Qed.

Lemma in_keys_del k x d :
  In x (Dict.keys (Dict.del k d)) -> In x (Dict.keys d).
Proof.
  induction d as [|[k' v'] d IH]; simpl; [tauto|].
  destruct (k' =? k); simpl; tauto.
Qed.

Lemma nodup_del k d :
  NoDup (Dict.keys d) -> NoDup (Dict.keys (Dict.del k d)).
Proof.
  induction d as [|[k' v'] d IH]; simpl; [auto|].
  intros H. inversion H as [|? ? Hn Hd]; subst.
  destruct (k' =? k); simpl; [assumption|].
  constructor; [|auto].
  intros Hin. apply Hn. eapply in_keys_del, Hin.
Qed.

Lemma size_del_le k d : Dict.size (Dict.del k d) <= Dict.size d.
Proof.
  unfold Dict.size.
  induction d as [|[k' v'] d IH]; simpl; [lia|].
  destruct (k' =? k); simpl List.length; lia.
Qed.

Lemma in_keys_set k v x d :
  In x (Dict.keys (Dict.set k v d)) -> x = k \/ In x (Dict.keys d).
Proof.
  induction d as [|[k' v'] d IH]; simpl; [intuition congruence|].
  destruct (k' =? k) eqn:E; simpl.
  - apply Z.eqb_eq in E. subst. intuition congruence.
  - intuition congruence.
Qed.

Lemma nodup_set k v d :
  NoDup (Dict.keys d) -> NoDup (Dict.keys (Dict.set k v d)).
Proof.
  induction d as [|[k' v'] d IH]; simpl.
  - intros _. repeat constructor. simpl. tauto.
  - intros H. inversion H as [|? ? Hn Hd]; subst.
    destruct (k' =? k) eqn:E; simpl.
    + apply Z.eqb_eq in E. subst. now constructor.
    + constructor; [|auto].
      intros Hin. apply in_keys_set in Hin as [->|Hin]; [|tauto].
      rewrite Z.eqb_refl in E. discriminate.
Qed.

Lemma get_none_not_in k d : Dict.get k d = None -> ~ In k (Dict.keys d).
Proof.
  induction d as [|[k' v'] d IH]; simpl; [tauto|].
  destruct (k' =? k) eqn:E; [discriminate|].
  apply Z.eqb_neq in E. intros H [H1|H1]; [congruence|now apply IH].
Qed.

Lemma del_absent k d : Dict.get k d = None -> Dict.del k d = d.
Proof.
  induction d as [|[k' v'] d IH]; simpl; [reflexivity|].
  destruct (k' =? k); [discriminate|].
  intros H. now rewrite IH.
Qed.

Lemma set_absent k v d : Dict.get k d = None -> Dict.set k v d = d ++ [(k, v)].
Proof.
  induction d as [|[k' v'] d IH]; simpl; [reflexivity|].
  destruct (k' =? k); [discriminate|].
  intros H. now rewrite IH.
Qed.

Lemma get_del_same k d : NoDup (Dict.keys d) -> Dict.get k (Dict.del k d) = None.
Proof.
  induction d as [|[k' v'] d IH]; simpl; [reflexivity|].
  intros H. inversion H as [|? ? Hn Hd]; subst.
  destruct (k' =? k) eqn:E; simpl.
  - apply Z.eqb_eq in E. subst.
    destruct (Dict.get k d) eqn:G; [|reflexivity].
    exfalso. apply Hn. clear -G.
    induction d as [|[k' v'] d IH]; simpl in *; [discriminate|].
    destruct (k' =? k) eqn:E; [apply Z.eqb_eq in E; auto|auto].
  - rewrite E. auto.
Qed.

Lemma fold_del_nodup (ks : list Z) d :
  NoDup (Dict.keys d) ->
  NoDup (Dict.keys (fold_left (fun d' k => Dict.del k d') ks d)).
Proof.
  revert d. induction ks as [|k ks IH]; simpl; intros d H; [assumption|].
  apply IH. now apply nodup_del.
Qed.

Lemma fold_del_size (ks : list Z) d :
  Dict.size (fold_left (fun d' k => Dict.del k d') ks d) <= Dict.size d.
Proof.
  revert d. induction ks as [|k ks IH]; simpl; intros d; [lia|].
  specialize (IH (Dict.del k d)). pose proof (size_del_le k d). lia.
Qed.
End DictFacts.

(** ** What each coroutine leaves alone *)

Lemma io_emit (e : event) : quiet_event e = true -> respects io_only (emit e).
Proof.
  intros H st. repeat split. exists [e]. split; [reflexivity|].
  now apply quiet_one.
Qed.

Lemma io_tick : respects io_only tick.
Proof.
  intros st. repeat split. exists [].
  split; [simpl; now rewrite app_nil_r|apply quiet_nil].
Qed.

#[local] Hint Resolve io_emit io_tick : respects.
#[local] Hint Extern 1 (quiet_event _ = true) => reflexivity : respects.

Section Frames.
Variable cfg : config.
Variable w : world.

Lemma io_suspend : respects io_only (suspend w).
Proof. unfold suspend. respects_tac. Qed.
Hint Resolve io_suspend : respects.

Lemma io_log (l : level) (msg : string) : respects io_only (log l msg).
Proof. unfold log. respects_tac. Qed.
Hint Resolve io_log : respects.

Lemma io_api_call (r : request) (timeout : option Z) :
  respects io_only (api_call cfg w r timeout).
Proof. unfold api_call. respects_tac. Qed.
Hint Resolve io_api_call : respects.

Lemma io_sleep (secs : Z) : respects io_only (sleep w secs).
Proof. unfold sleep. respects_tac. Qed.
Hint Resolve io_sleep : respects.

Lemma io_send_to_bus (target : string) (m : bus_message) :
  respects io_only (send_to_bus w target m).
Proof. unfold send_to_bus. respects_tac. Qed.
Hint Resolve io_send_to_bus : respects.

Lemma io_send_chunk (chat : Z) (chunk : str) :
  respects io_only (send_chunk cfg w chat chunk).
Proof. unfold send_chunk. respects_tac. Qed.
Hint Resolve io_send_chunk : respects.

Lemma io_send_message (chat : Z) (body : str) :
  respects io_only (send_message cfg w chat body).
Proof. unfold send_message. respects_tac. Qed.
Hint Resolve io_send_message : respects.

Lemma io_handle_command (chat : Z) (command : str) :
  respects io_only (handle_command cfg w chat command).
Proof. unfold handle_command. respects_tac. Qed.
Hint Resolve io_handle_command : respects.

Lemma pool_of_io {A} (m : M A) : respects io_only m -> respects pool_only m.
Proof. apply respects_weaken, io_only_pool_only. Qed.
Hint Resolve pool_of_io : respects.

Lemma pool_only_intro (s s' : state) (tr : list event) :
  update_offset s' = update_offset s ->
  (NoDup (Dict.keys (typing_tasks s)) -> NoDup (Dict.keys (typing_tasks s'))) ->
  trace s' = trace s ++ tr -> quiet tr ->
  pool_only s s'.
Proof. intros H1 H2 H3 H4. repeat split; auto. now exists tr. Qed.

Lemma pool_set_counter (z : Z) : respects pool_only (set_counter z).
Proof.
  intros st. apply (pool_only_intro _ _ []); simpl; auto using quiet_nil.
  now rewrite app_nil_r.
Qed.

Lemma pool_fresh_task : respects pool_only fresh_task.
Proof.
  intros st. apply (pool_only_intro _ _ []); simpl; auto using quiet_nil.
  now rewrite app_nil_r.
Qed.

Lemma pool_clear : respects pool_only (set_tasks []).
Proof.
  intros st. apply (pool_only_intro _ _ []); simpl; auto using quiet_nil.
  - intros _. constructor.
  - now rewrite app_nil_r.
Qed.
Hint Resolve pool_set_counter pool_fresh_task pool_clear : respects.

Lemma pool_stop_typing (chat : Z) : respects pool_only (stop_typing chat).
Proof.
  intros st. unfold stop_typing, bind, gets. simpl.
  destruct (Dict.get chat (typing_tasks st)) as [t|]; simpl.
  - apply (pool_only_intro _ _ [EvCancel t]); simpl; auto.
    + apply nodup_del.
    + split; reflexivity.
  - reflexivity.
Qed.
Hint Resolve pool_stop_typing : respects.

Lemma pool_cleanup_typing_tasks : respects pool_only (cleanup_typing_tasks w).
Proof.
  intros st. unfold cleanup_typing_tasks, bind, gets. simpl.
  destruct (map fst (filter _ (typing_tasks st))) as [|k ks] eqn:E.
  - apply (pool_only_intro _ _ []); simpl; auto using quiet_nil.
    now rewrite app_nil_r.
  - eapply (pool_only_intro _ _ [_]); simpl; auto.
    + intros H. apply (fold_del_nodup ks). now apply nodup_del.
    + split; reflexivity.
Qed.
Hint Resolve pool_cleanup_typing_tasks : respects.

Lemma pool_evict_oldest : respects pool_only evict_oldest.
Proof.
  intros st. unfold evict_oldest, bind, gets. simpl.
  destruct (Dict.first_key (typing_tasks st)) as [k|]; simpl; [|reflexivity].
  destruct (Dict.get k (typing_tasks st)) as [t|]; simpl; [|reflexivity].
  apply (pool_only_intro _ _ [EvCancel t]); simpl; auto.
  - apply nodup_del.
  - split; reflexivity.
Qed.
Hint Resolve pool_evict_oldest : respects.

Lemma pool_put_task (chat : Z) (t : task) :
  respects pool_only
    (bind (gets typing_tasks) (fun d => set_tasks (Dict.set chat t d))).
Proof.
  intros st. unfold bind, gets. simpl.
  apply (pool_only_intro _ _ []); simpl; auto using quiet_nil.
  - apply nodup_set.
  - now rewrite app_nil_r.
Qed.
Hint Resolve pool_put_task : respects.

Lemma pool_start_typing (chat : Z) :
  respects pool_only (start_typing cfg w chat).
Proof. unfold start_typing. respects_tac. Qed.
Hint Resolve pool_start_typing : respects.

Lemma start_typing_after_stop (chat : Z) :
  exists rest,
    start_typing cfg w chat = bind (stop_typing chat) (fun _ => rest)
    /\ respects pool_only rest.
Proof. eexists. split; [reflexivity|]. respects_tac. Qed.

Lemma pool_shutdown : respects pool_only shutdown.
Proof. unfold shutdown. respects_tac. Qed.

Lemma pool_send_bot_response (chat : Z) (body : str) :
  respects pool_only (send_bot_response cfg w chat body).
Proof. unfold send_bot_response. respects_tac. Qed.

Lemma pool_send_error_message (chat : Z) (error_type : option str) :
  respects pool_only (send_error_message cfg w chat error_type).
Proof. unfold send_error_message. respects_tac. Qed.
Hint Resolve pool_send_bot_response pool_send_error_message : respects.

Lemma pool_handle_message (m : actor_message) :
  respects pool_only (handle_message cfg w m).
Proof. unfold handle_message. respects_tac. Qed.

(** [_process_update] after its mark in the trace. *)
Lemma pool_process_update_body (u : update) :
  exists body,
    process_update cfg w u = bind (emit (EvProcess (update_id u))) (fun _ => body)
    /\ respects pool_only body.
Proof.
  eexists. split; [reflexivity|]. respects_tac.
Qed.
End Frames.

(** ** Sending a message *)

(** An HTTP call that is not cancelled while it waits. *)
Lemma api_call_run (cfg : config) (w : world) (r : request)
      (timeout : option Z) (st : state) :
  cancel_at w (clock st) = false ->
  api_call cfg w r timeout st
  = (match api w (clock st) r with
     | Ok res => Val res
     | NotOk => Exc Error
     | Throws e => Exc e
     end,
     later 1 [EvApi r (effective_timeout cfg timeout)] st).
Proof.
  intros H. unfold api_call, suspend, bind, emit, modify, tick. simpl.
  rewrite H. unfold later. simpl.
  destruct (api w (clock st) r); reflexivity.
Qed.

(** The loop over the chunks, once the first of them are through. *)
Lemma for_each_app_val {A} (f : A -> M unit) (a b : list A)
      (st st1 : state) :
  for_each f a st = (Val tt, st1) ->
  for_each f (a ++ b) st = for_each f b st1.
Proof.
  revert st. induction a as [|x a IH]; intros st H.
  - simpl in H. unfold ret in H. injection H as <-. reflexivity.
  - simpl in *. unfold bind in *.
    destruct (f x st) as [[[]|e] s]; [now apply IH|discriminate].
Qed.

(** C9. When the send of a chunk with Markdown fails, the chunk is sent
    again exactly once, as plain text; when that fails too the failure is
    logged and nothing more is tried; either way the sender goes on with
    the next chunk: when the chunk is one of the chunks of the text that
    [_send_message] is given, and the chunks before it have been gone
    through, [_send_message] makes these two calls for it and goes on
    with the chunks after it. *)
Theorem send_chunk_plain_retry (cfg : config) (w : world) (chat : Z)
        (chunk : str) (st : state) (e : exn) :
  cancel_at w (clock st) = false ->
  cancel_at w (S (clock st)) = false ->
  failure (api w (clock st) (SendMessage chat chunk true)) = Some e ->
  is_Exception e = true ->
  failure (api w (S (clock st)) (SendMessage chat chunk false))
    <> Some CancelledError ->
  let t := TELEGRAM_API_DEFAULT_TIMEOUT cfg in
  let tr :=
    [EvApi (SendMessage chat chunk true) t;
     EvLog Err "Failed to send message";
     EvApi (SendMessage chat chunk false) t]
    ++ match failure (api w (S (clock st)) (SendMessage chat chunk false)) with
       | Some _ => [EvLog Err "Failed to send plain message"]
       | None => []
       end in
  send_chunk cfg w chat chunk st = (Val tt, later 2 tr st)
  /\ api_calls tr
     = [SendMessage chat chunk true; SendMessage chat chunk false]
  /\ (forall rest,
       for_each (send_chunk cfg w chat) (chunk :: rest) st
       = for_each (send_chunk cfg w chat) rest (later 2 tr st))
  /\ (forall body before after st0,
       split_long_message (TELEGRAM_MAX_MESSAGE_LENGTH cfg) body
       = before ++ chunk :: after ->
       for_each (send_chunk cfg w chat) before st0 = (Val tt, st) ->
       send_message cfg w chat body st0
       = for_each (send_chunk cfg w chat) after (later 2 tr st)).
Proof.
  intros C1 C2 F1 E1 F2 t tr.
  assert (R : send_chunk cfg w chat chunk st = (Val tt, later 2 tr st)).
  { unfold send_chunk, try_except, bind.
    rewrite (api_call_run cfg w _ None st C1).
    destruct (api w (clock st) (SendMessage chat chunk true)) as [res| |e1];
      simpl in F1; [discriminate| |];
      injection F1 as <-; simpl is_Exception; try rewrite E1;
      unfold log, emit, modify, ret; simpl;
      (rewrite api_call_run by exact C2); simpl clock;
      subst tr;
      destruct (api w (S (clock st)) (SendMessage chat chunk false))
        as [res2| |e2]; simpl in *; unfold later; simpl;
      try (destruct e2; try congruence; simpl);
      rewrite <- ?app_assoc; reflexivity. }
  assert (N : forall rest,
             for_each (send_chunk cfg w chat) (chunk :: rest) st
             = for_each (send_chunk cfg w chat) rest (later 2 tr st)).
  { intros rest. simpl. unfold bind at 1. now rewrite R. }
  split; [exact R|]. split; [|split; [exact N|]].
  - subst tr. simpl.
    destruct (failure (api w (S (clock st)) _)); reflexivity.
  - intros body before after st0 S B. unfold send_message. rewrite S.
    rewrite (for_each_app_val _ before (chunk :: after) st0 st B).
    apply N.
Qed.

Lemma send_chunk_plain_retry_witness :
  send_message small (answering NotOk) 7 (paras ["aaa"; "bbb"; "ccc"]%string)
               init
  = for_each (send_chunk small (answering NotOk) 7) [of_string "ccc"]
      (later 2 [EvApi (SendMessage 7 (paras ["aaa"; "bbb"]%string) true) 10;
                EvLog Err "Failed to send message";
                EvApi (SendMessage 7 (paras ["aaa"; "bbb"]%string) false) 10;
                EvLog Err "Failed to send plain message"] init).
Proof.
  destruct (send_chunk_plain_retry small (answering NotOk) 7
              (paras ["aaa"; "bbb"]%string) init Error)
    as (_ & _ & _ & K);
    [reflexivity|reflexivity|reflexivity|reflexivity|discriminate|].
  apply (K (paras ["aaa"; "bbb"; "ccc"]%string) [] [of_string "ccc"] init);
    reflexivity.
Defined.

(** A message of two chunks that the remote API rejects throughout: two
    calls for each chunk, in order. *)
Example send_message_all_rejected :
  api_calls (trace (snd (send_message
     small (answering NotOk) 7 (paras ["aaa"; "bbb"; "ccc"]%string) init)))
  = [SendMessage 7 (paras ["aaa"; "bbb"]%string) true;
     SendMessage 7 (paras ["aaa"; "bbb"]%string) false;
     SendMessage 7 (of_string "ccc") true;
     SendMessage 7 (of_string "ccc") false].
Proof. reflexivity. Qed.

(** C10. Whatever the limit, some non-empty text longer than the limit
    (separators and nothing else) is split into no chunk at all, and
    sending it makes no call and leaves the actor as it was. *)
Theorem blank_message_sends_nothing (cfg : config) (w : world) (chat : Z)
        (st : state) :
  exists body,
    truthy body = true
    /\ TELEGRAM_MAX_MESSAGE_LENGTH cfg < len body
    /\ split_long_message (TELEGRAM_MAX_MESSAGE_LENGTH cfg) body = []
    /\ send_message cfg w chat body st = (Val tt, st).
Proof.
  set (C := TELEGRAM_MAX_MESSAGE_LENGTH cfg).
  assert (H : C < 2 * Z.of_nat (S (Z.to_nat C))) by lia.
  exists (blank (S (Z.to_nat C))).
  split; [reflexivity|]. split; [rewrite len_blank; exact H|].
  split; [now apply split_long_message_blank|].
  unfold send_message. fold C.
  now rewrite split_long_message_blank.
Qed.

(** With the limit at 4, six line breaks are such a text. *)
Example six_line_breaks :
  split_long_message 4 (blank 3) = [] /\ len (blank 3) = 6.
Proof. split; reflexivity. Qed.

(** ** Fetching updates *)

Lemma last_map_id (u0 : update) (l : list update) :
  last (map update_id l) (update_id u0) = update_id (last l u0).
Proof.
  induction l as [|a l IH]; [reflexivity|].
  destruct l as [|b l]; [reflexivity|]. exact IH.
Qed.

Lemma last_cons_default {A} (a d d' : A) (l : list A) :
  last (a :: l) d = last (a :: l) d'.
Proof.
  revert a. induction l as [|b l IH]; intros a; [reflexivity|].
  change (last (b :: l) d = last (b :: l) d'). apply IH.
Qed.

Lemma ascending_max_last (a : Z) (l : list Z) :
  ascending (a :: l) = true -> fold_left Z.max l a = last l a.
Proof.
  revert a. induction l as [|b l IH]; intros a H; [reflexivity|].
  change (ascending (a :: b :: l)) with ((a <=? b) && ascending (b :: l)) in H.
  apply andb_true_iff in H as [H1 H2]. apply Z.leb_le in H1.
  simpl fold_left. rewrite Z.max_r by exact H1.
  rewrite (IH b H2). destruct l as [|c l]; [reflexivity|].
  change (last (b :: c :: l) a) with (last (c :: l) a).
  apply last_cons_default.
Qed.

Lemma max_id_last (u0 : update) (batch : list update) :
  ascending (map update_id (u0 :: batch)) = true ->
  max_id u0 batch = update_id (last (u0 :: batch) u0).
Proof.
  intros H. unfold max_id.
  change (map update_id (u0 :: batch))
    with (update_id u0 :: map update_id batch) in H.
  rewrite (ascending_max_last _ _ H), last_map_id.
  destruct batch as [|u1 batch]; [reflexivity|].
  change (last (u0 :: u1 :: batch) u0) with (last (u1 :: batch) u0).
  reflexivity.
Qed.

(** The state after a fetch that returned the batch [u0 :: batch]. *)
Lemma get_updates_batch (cfg : config) (w : world) (st : state)
      (u0 : update) (batch : list update) :
  cancel_at w (clock st) = false ->
  api w (clock st)
      (GetUpdates (update_offset st) (TELEGRAM_POLLING_TIMEOUT cfg))
  = Ok (u0 :: batch) ->
  let z := update_id (last (u0 :: batch) u0) + 1 in
  get_updates cfg w st
  = (Val (u0 :: batch),
     mkState z (typing_tasks st) (typing_cleanup_counter st) (next_task st)
       (S (clock st))
       (trace st
        ++ [EvApi (GetUpdates (update_offset st) (TELEGRAM_POLLING_TIMEOUT cfg))
                  (effective_timeout cfg (Some (TELEGRAM_POLLING_TIMEOUT cfg + 5)));
            EvOffset z])).
Proof.
  intros C A z. unfold get_updates, try_except, bind, gets.
  rewrite (api_call_run cfg w _ _ st C), A.
  unfold set_offset, bind, modify, emit, ret, later. simpl.
  now rewrite <- app_assoc.
Qed.

(** A fetch that fails, for any reason that is an [Exception] other than
    the timeout, is logged and read as an empty batch. *)
Lemma get_updates_failure (cfg : config) (w : world) (st : state) (e : exn) :
  cancel_at w (clock st) = false ->
  failure (api w (clock st)
             (GetUpdates (update_offset st) (TELEGRAM_POLLING_TIMEOUT cfg)))
  = Some e ->
  is_Exception e = true ->
  get_updates cfg w st
  = (Val [],
     later 1
       ([EvApi (GetUpdates (update_offset st) (TELEGRAM_POLLING_TIMEOUT cfg))
               (effective_timeout cfg (Some (TELEGRAM_POLLING_TIMEOUT cfg + 5)))]
        ++ match e with
           | TimeoutError => []
           | _ => [EvLog Err "Failed to get updates"]
           end) st).
Proof.
  intros C F E. unfold get_updates, try_except, bind, gets.
  rewrite (api_call_run cfg w _ _ st C).
  destruct (api w (clock st) _) as [res| |e1]; simpl in F;
    [discriminate| |]; injection F as <-.
  - unfold log, emit, modify, bind, ret, later. simpl.
    now rewrite <- app_assoc.
  - destruct e1; try discriminate;
      unfold log, emit, modify, bind, ret, later; simpl;
      now rewrite <- ?app_assoc.
Qed.

(** After a failed fetch the loop goes straight to its next turn: the
    pause of the handler in [_polling_loop] is not reached. *)
Lemma polling_iteration_failure (cfg : config) (w : world) (st : state)
      (e : exn) :
  cancel_at w (clock st) = false ->
  failure (api w (clock st)
             (GetUpdates (update_offset st) (TELEGRAM_POLLING_TIMEOUT cfg)))
  = Some e ->
  is_Exception e = true ->
  exists st',
    polling_iteration cfg w st = (Val Continue, st')
    /\ st' = snd (get_updates cfg w st)
    /\ sleeps (trace st') = sleeps (trace st).
Proof.
  intros C F E. eexists. split; [|split].
  - unfold polling_iteration, try_except, polling_body, bind.
    rewrite (get_updates_failure cfg w st e C F E). reflexivity.
  - now rewrite (get_updates_failure cfg w st e C F E).
  - unfold later. simpl. unfold sleeps. rewrite !flat_map_app. simpl.
    destruct e; simpl; now rewrite app_nil_r.
Qed.

(** C3, at a fetch that fails with an error of the network: the failure is
    logged inside [_get_updates], the loop takes it for an empty batch and
    goes on at once; no pause is made. *)
Theorem failed_fetch_makes_no_pause :
  polling_iteration cfg0 (answering (Throws Error)) init
  = (Val Continue,
     later 1 [EvApi (GetUpdates 0 30) 35; EvLog Err "Failed to get updates"]
           init)
  /\ sleeps (trace (snd (polling_loop cfg0 (answering (Throws Error)) 3 init)))
     = []
  /\ api_calls (trace (snd (polling_loop cfg0 (answering (Throws Error)) 3 init)))
     = [GetUpdates 0 30; GetUpdates 0 30; GetUpdates 0 30].
Proof. split; [reflexivity|split; reflexivity]. Qed.

(** The pause of 5 is made when the dispatch of an update raises: here the
    send to the actor system fails. *)
Example failed_dispatch_pauses :
  let w := mkWorld (fun _ => false)
                   (fun _ _ => Ok [mkUpdate 1 (Some (mkMessage 7 8 None
                                      (Some (of_string "hello"))))])
                   (fun _ => Some Error) (fun _ _ => false) (fun _ => true)
                   true in
  sleeps (trace (snd (polling_iteration cfg0 w init))) = [5]
  /\ fst (polling_iteration cfg0 w init) = Val Continue.
Proof. split; reflexivity. Qed.

(** A long-poll timeout is an empty batch: no log, no pause. *)
Example timeout_is_empty_batch :
  polling_iteration cfg0 (answering (Throws TimeoutError)) init
  = (Val Continue, later 1 [EvApi (GetUpdates 0 30) 35] init).
Proof. reflexivity. Qed.

(** ** Dispatching a batch *)

Section Dispatch.
Variable cfg : config.
Variable w : world.

Lemma process_update_trace (u : update) (st : state) :
  exists tr,
    trace (snd (process_update cfg w u st))
    = trace st ++ EvProcess (update_id u) :: tr
    /\ quiet tr
    /\ update_offset (snd (process_update cfg w u st)) = update_offset st.
Proof.
  destruct (pool_process_update_body cfg w u) as (body & E & Hb).
  rewrite E. unfold bind, emit, modify. simpl.
  match goal with |- context [body ?s] => specialize (Hb s) end.
  destruct Hb as (H1 & _ & tr & H2 & H3). simpl in H1, H2.
  exists tr. rewrite H2, <- app_assoc. auto.
Qed.

(** The loop [for update in updates: await self._process_update(update)]:
    the updates are dispatched in the order of the batch, up to the
    first dispatch that raises, and the offset is not touched. *)
Lemma dispatch_trace (l : list update) (st : state) :
  exists tr,
    trace (snd (for_each (process_update cfg w) l st)) = trace st ++ tr
    /\ offsets tr = []
    /\ update_offset (snd (for_each (process_update cfg w) l st))
       = update_offset st
    /\ (exists rest, map update_id l = processed tr ++ rest)
    /\ (fst (for_each (process_update cfg w) l st) = Val tt ->
        processed tr = map update_id l).
Proof.
  revert st. induction l as [|u l IH]; intros st.
  - exists []. simpl. rewrite app_nil_r. repeat split; auto. now exists [].
  - destruct (process_update_trace u st) as (tr1 & T1 & [Q1 Q1'] & O1).
    simpl for_each. unfold bind.
    destruct (process_update cfg w u st) as [[[]|e] st1]; simpl in T1, O1.
    + destruct (IH st1) as (tr2 & T2 & Q2 & O2 & [rest P2] & F2).
      exists (EvProcess (update_id u) :: tr1 ++ tr2).
      split; [rewrite T2, T1, <- app_assoc; reflexivity|].
      split; [simpl; now rewrite offsets_app, Q1, Q2|].
      split; [congruence|].
      split.
      * exists rest. simpl. rewrite processed_app, Q1', P2. reflexivity.
      * intros F. simpl. rewrite processed_app, Q1', (F2 F). reflexivity.
    + exists (EvProcess (update_id u) :: tr1). simpl.
      split; [assumption|]. split; [assumption|]. split; [assumption|].
      split; [|discriminate].
      exists (map update_id l). now rewrite Q1'.
Qed.
End Dispatch.

(** C1 (as amended). For every fetched non-empty batch, the fetch itself
    moves the offset to the id of the last update plus one, before any
    update of the batch is dispatched; the loop then dispatches the
    updates in the order received without touching the offset again, and
    it dispatches all of them when no dispatch raises. *)
Theorem offset_moves_at_fetch (cfg : config) (w : world) (st : state)
        (u0 : update) (batch : list update) :
  cancel_at w (clock st) = false ->
  api w (clock st)
      (GetUpdates (update_offset st) (TELEGRAM_POLLING_TIMEOUT cfg))
  = Ok (u0 :: batch) ->
  let z := update_id (last (u0 :: batch) u0) + 1 in
  let call :=
    EvApi (GetUpdates (update_offset st) (TELEGRAM_POLLING_TIMEOUT cfg))
          (effective_timeout cfg (Some (TELEGRAM_POLLING_TIMEOUT cfg + 5))) in
  exists tr,
    trace (snd (polling_body cfg w st)) = trace st ++ [call; EvOffset z] ++ tr
    /\ offsets tr = []
    /\ update_offset (snd (polling_body cfg w st)) = z
    /\ (exists rest, map update_id (u0 :: batch) = processed tr ++ rest)
    /\ (fst (polling_body cfg w st) = Val tt ->
        processed tr = map update_id (u0 :: batch)).
Proof.
  intros C A z call. unfold polling_body, bind.
  rewrite (get_updates_batch cfg w st u0 batch C A). fold z call.
  match goal with |- context [for_each _ _ ?s] =>
    destruct (dispatch_trace cfg w (u0 :: batch) s)
      as (tr & T & Q & O & P & F)
  end.
  exists tr.
  split; [rewrite T; cbn [trace]; rewrite <- app_assoc; reflexivity|].
  auto.
Qed.

Lemma offset_moves_at_fetch_witness :
  exists tr,
    trace (snd (polling_body cfg0 (answering (Ok [bare 101; bare 102; bare 105]))
                             init))
    = trace init ++ [EvApi (GetUpdates 0 30) 35; EvOffset 106] ++ tr
    /\ offsets tr = []
    /\ update_offset
         (snd (polling_body cfg0 (answering (Ok [bare 101; bare 102; bare 105]))
                            init)) = 106
    /\ (exists rest,
         map update_id [bare 101; bare 102; bare 105] = processed tr ++ rest)
    /\ (fst (polling_body cfg0 (answering (Ok [bare 101; bare 102; bare 105]))
                          init) = Val tt ->
        processed tr = map update_id [bare 101; bare 102; bare 105]).
Proof.
  apply (offset_moves_at_fetch cfg0
           (answering (Ok [bare 101; bare 102; bare 105])) init
           (bare 101) [bare 102; bare 105]); reflexivity.
Defined.

(** C1 as stated fails: the offset is set to 106 before the first update
    of the batch is dispatched. *)
Lemma offset_moves_before_dispatch :
  trace (snd (polling_iteration cfg0
                (answering (Ok [bare 101; bare 102; bare 105])) init))
  = [EvApi (GetUpdates 0 30) 35; EvOffset 106;
     EvProcess 101; EvProcess 102; EvProcess 105].
Proof. reflexivity. Qed.

(** A cancellation that arrives while the first update is being answered
    ends the loop with the offset past the two updates never dispatched. *)
Example cancelled_mid_batch :
  let start := mkMessage 7 8 None (Some (of_string "/start")) in
  let w := mkWorld (fun now => Nat.eqb now 1)
                   (fun _ _ => Ok [mkUpdate 101 (Some start); bare 102; bare 105])
                   (fun _ => None) (fun _ _ => false) (fun _ => true) true in
  fst (polling_iteration cfg0 w init) = Val Break
  /\ update_offset (snd (polling_iteration cfg0 w init)) = 106
  /\ processed (trace (snd (polling_iteration cfg0 w init))) = [101].
Proof. repeat split. Qed.

(** ** The offset and the pool across the turns of the loop *)

Lemma forall_last {A} (P : A -> Prop) (a : A) (l : list A) :
  Forall P (a :: l) -> P (last (a :: l) a).
Proof.
  revert a. induction l as [|b l IH]; intros a H.
  - now inversion H.
  - inversion H as [|? ? _ H']; subst.
    change (last (a :: b :: l) a) with (last (b :: l) a).
    rewrite (last_cons_default b a b). now apply IH.
Qed.

Section Invariants.
Variable cfg : config.
Variable w : world.

Hint Resolve io_log io_sleep io_send_to_bus io_api_call pool_of_io
     pool_start_typing pool_stop_typing pool_shutdown pool_handle_message
     : respects.

Lemma handler_io :
  respects io_only
    (log Err "Polling error";; sleep w 5;; ret Continue).
Proof. respects_tac. Qed.

(** Nothing after the fetch moves the offset. *)
Lemma polling_iteration_offset (st : state) :
  update_offset (snd (polling_iteration cfg w st))
  = update_offset (snd (get_updates cfg w st)).
Proof.
  unfold polling_iteration, try_except, polling_body, bind.
  destruct (get_updates cfg w st) as [[ups|e] st1]; simpl.
  - destruct (dispatch_trace cfg w ups st1) as (tr & _ & _ & O & _).
    destruct (for_each (process_update cfg w) ups st1) as [[[]|e] st2];
      simpl in *; [assumption|].
    destruct e; try assumption;
      (etransitivity; [apply (handler_io st2)|assumption]).
  - destruct e; try reflexivity; apply (handler_io st1).
Qed.

(** *** The offset never goes back, for a remote API that honours it *)

Lemma grows_of_pool {A} (m : M A) :
  respects pool_only m -> respects offset_grows m.
Proof. apply respects_weaken, pool_only_offset_grows. Qed.

Lemma grows_emit (e : event) : respects offset_grows (emit e).
Proof. intros st. unfold offset_grows. simpl. lia. Qed.

Lemma grows_process_update (u : update) :
  respects offset_grows (process_update cfg w u).
Proof.
  intros st. unfold offset_grows.
  destruct (process_update_trace cfg w u st) as (_ & _ & _ & O). lia.
Qed.

Lemma grows_get_updates :
  honours_offset w -> respects offset_grows (get_updates cfg w).
Proof.
  intros H st. unfold offset_grows.
  unfold get_updates, try_except, bind, gets, api_call, suspend, bind,
    emit, modify, tick. simpl.
  destruct (cancel_at w (clock st)); simpl; [lia|].
  destruct (api w (clock st) _) as [[|u0 b]| |e] eqn:A; simpl; try lia.
  - apply H in A. apply forall_last in A. simpl in A. lia.
  - destruct e; simpl; lia.
Qed.

Hint Resolve grows_of_pool grows_emit grows_process_update
     grows_get_updates : respects.

Lemma grows_polling_iteration :
  honours_offset w -> respects offset_grows (polling_iteration cfg w).
Proof. intros H. unfold polling_iteration, polling_body. respects_tac. Qed.
Hint Resolve grows_polling_iteration : respects.

Lemma grows_polling_loop (fuel : nat) :
  honours_offset w -> respects offset_grows (polling_loop cfg w fuel).
Proof.
  intros H. unfold polling_loop.
  assert (L : respects offset_grows (polling_while cfg w fuel)).
  { induction fuel as [|fuel IH]; simpl; respects_tac. }
  unfold log. respects_tac.
Qed.

Lemma grows_run_op (o : op) (st : state) :
  honours_offset w -> offset_grows st (run_op cfg w o st).
Proof.
  intros H. destruct o; simpl.
  - now apply grows_polling_iteration.
  - apply grows_of_pool, pool_handle_message.
  - apply grows_of_pool, pool_start_typing.
  - apply grows_of_pool, pool_stop_typing.
  - apply grows_of_pool, pool_shutdown.
Qed.

(** *** The keys of the pool stay distinct *)

Lemma distinct_of_pool {A} (m : M A) :
  respects pool_only m -> respects keeps_distinct m.
Proof. apply respects_weaken, pool_only_keeps_distinct. Qed.

Lemma distinct_emit (e : event) : respects keeps_distinct (emit e).
Proof. intros st H. exact H. Qed.

Lemma distinct_set_offset (z : Z) : respects keeps_distinct (set_offset z).
Proof. intros st H. exact H. Qed.

Lemma distinct_process_update (u : update) :
  respects keeps_distinct (process_update cfg w u).
Proof.
  destruct (pool_process_update_body cfg w u) as (body & E & Hb).
  rewrite E. apply respects_bind; [typeclasses eauto| |].
  - apply distinct_emit.
  - intros _. now apply distinct_of_pool.
Qed.

Hint Resolve distinct_of_pool distinct_emit distinct_set_offset
     distinct_process_update : respects.

Lemma distinct_get_updates : respects keeps_distinct (get_updates cfg w).
Proof. unfold get_updates, log. respects_tac. Qed.
Hint Resolve distinct_get_updates : respects.

Lemma distinct_polling_iteration :
  respects keeps_distinct (polling_iteration cfg w).
Proof. unfold polling_iteration, polling_body. respects_tac. Qed.

Lemma distinct_run_op (o : op) (st : state) :
  keeps_distinct st (run_op cfg w o st).
Proof.
  destruct o; simpl.
  - apply distinct_polling_iteration.
  - apply distinct_of_pool, pool_handle_message.
  - apply distinct_of_pool, pool_start_typing.
  - apply distinct_of_pool, pool_stop_typing.
  - apply distinct_of_pool, pool_shutdown.
Qed.

Lemma distinct_run_ops (ops : list op) (st : state) :
  distinct_keys st -> distinct_keys (run_ops cfg w ops st).
Proof.
  revert st. induction ops as [|o ops IH]; intros st H; simpl; [assumption|].
  apply IH. now apply distinct_run_op.
Qed.

Lemma grows_run_ops (ops : list op) (st : state) :
  honours_offset w -> update_offset st <= update_offset (run_ops cfg w ops st).
Proof.
  intros H. revert st. induction ops as [|o ops IH]; intros st; simpl; [lia|].
  pose proof (grows_run_op o st H) as G. unfold offset_grows in G.
  specialize (IH (run_op cfg w o st)). lia.
Qed.
End Invariants.

(** C6. After a fetch that returns a non-empty batch in ascending order of
    id, the offset is the greatest id plus one, when the fetch returns
    and still when the batch has been dispatched. *)
Theorem offset_after_batch (cfg : config) (w : world) (st : state)
        (u0 : update) (batch : list update) :
  cancel_at w (clock st) = false ->
  api w (clock st)
      (GetUpdates (update_offset st) (TELEGRAM_POLLING_TIMEOUT cfg))
  = Ok (u0 :: batch) ->
  ascending (map update_id (u0 :: batch)) = true ->
  update_offset (snd (get_updates cfg w st)) = max_id u0 batch + 1
  /\ update_offset (snd (polling_iteration cfg w st)) = max_id u0 batch + 1.
Proof.
  intros C A S.
  assert (G : update_offset (snd (get_updates cfg w st)) = max_id u0 batch + 1).
  { rewrite (get_updates_batch cfg w st u0 batch C A).
    cbn [snd update_offset]. now rewrite (max_id_last u0 batch S). }
  split; [exact G|].
  now rewrite polling_iteration_offset.
Qed.

(** The scenario of the batch 101, 102, 105: the offset ends at 106. *)
Lemma offset_after_batch_witness :
  update_offset
    (snd (get_updates cfg0 (answering (Ok [bare 101; bare 102; bare 105])) init))
  = 106
  /\ update_offset
       (snd (polling_iteration cfg0
               (answering (Ok [bare 101; bare 102; bare 105])) init))
     = 106.
Proof.
  exact (offset_after_batch cfg0
           (answering (Ok [bare 101; bare 102; bare 105])) init
           (bare 101) [bare 102; bare 105] eq_refl eq_refl eq_refl).
Defined.

(** The last id, not the greatest, is what the code reads: a batch out of
    order leaves the offset below its greatest id. *)
Example offset_after_unordered_batch :
  update_offset
    (snd (get_updates cfg0 (answering (Ok [bare 105; bare 101])) init)) = 102.
Proof. reflexivity. Qed.

(** C7 (as amended). When the remote API returns only updates whose ids
    are at or above the offset it was asked for, no operation of the actor
    and no run of the polling loop ever decreases the offset. *)
Theorem offset_never_decreases (cfg : config) (w : world) :
  honours_offset w ->
  (forall ops st,
     update_offset st <= update_offset (run_ops cfg w ops st))
  /\ (forall fuel st,
        update_offset st <= update_offset (snd (polling_loop cfg w fuel st))).
Proof.
  intros H. split.
  - intros ops st. now apply grows_run_ops.
  - intros fuel st. now apply (grows_polling_loop cfg w fuel H st).
Qed.

Lemma offset_never_decreases_witness :
  honours_offset prompt
  /\ (forall ops st,
        update_offset st <= update_offset (run_ops cfg0 prompt ops st))
  /\ (forall fuel st,
        update_offset st
        <= update_offset (snd (polling_loop cfg0 prompt fuel st))).
Proof.
  assert (H : honours_offset prompt).
  { intros now off timeout res E. simpl in E.
    injection E as <-. constructor; [simpl; lia|constructor]. }
  split; [exact H|].
  exact (offset_never_decreases cfg0 prompt H).
Defined.

(** C7 as stated fails: nothing in the code compares the new offset with
    the old one, so a batch of older ids takes the offset back. *)
Lemma offset_follows_the_last_id :
  update_offset
    (run_ops cfg0 (scripted [Ok [bare 199]; Ok [bare 5]]) [OpPoll] init) = 200
  /\ update_offset
       (run_ops cfg0 (scripted [Ok [bare 199]; Ok [bare 5]]) [OpPoll; OpPoll]
                init) = 6.
Proof. split; reflexivity. Qed.

(** An empty batch, a timeout and a failed fetch leave the offset as it
    is. *)
Example offset_kept_without_batch :
  update_offset (snd (polling_iteration cfg0 (answering (Ok [])) init)) = 0
  /\ update_offset
       (snd (polling_iteration cfg0 (answering (Throws TimeoutError)) init)) = 0
  /\ update_offset (snd (polling_iteration cfg0 (answering NotOk) init)) = 0.
Proof. repeat split. Qed.

(** ** The typing pool, step by step *)

Lemma bind_val {A B} (m : M A) (f : A -> M B) (st st' : state) (a : A) :
  m st = (Val a, st') -> bind m f st = f a st'.
Proof. intros H. unfold bind. now rewrite H. Qed.

Lemma pool_state_id (st : state) :
  pool_state (typing_tasks st) (typing_cleanup_counter st) [] st = st.
Proof. destruct st. unfold pool_state. simpl. now rewrite app_nil_r. Qed.

Lemma pool_state_twice (d d' : Dict.dict task) (c c' : Z)
      (tr tr' : list event) (st : state) :
  pool_state d' c' tr' (pool_state d c tr st) = pool_state d' c' (tr ++ tr') st.
Proof. unfold pool_state. simpl. now rewrite app_assoc. Qed.

Lemma stop_typing_run (chat : Z) (st : state) :
  stop_typing chat st
  = (Val tt,
     pool_state (Dict.del chat (typing_tasks st)) (typing_cleanup_counter st)
                (stop_events (Dict.get chat (typing_tasks st))) st).
Proof.
  unfold stop_typing, bind, gets.
  destruct (Dict.get chat (typing_tasks st)) as [t|] eqn:G.
  - reflexivity.
  - rewrite (del_absent chat _ G). simpl stop_events.
    now rewrite pool_state_id.
Qed.

Lemma fold_del_skip (ks : list Z) (k : Z) (v : task) (d : Dict.dict task) :
  ~ In k ks ->
  fold_left (fun d' k' => Dict.del k' d') ks ((k, v) :: d)
  = (k, v) :: fold_left (fun d' k' => Dict.del k' d') ks d.
Proof.
  revert d. induction ks as [|k0 ks IH]; intros d H; [reflexivity|].
  simpl in H. simpl fold_left.
  destruct (k =? k0) eqn:E; [apply Z.eqb_eq in E; intuition congruence|].
  apply IH. tauto.
Qed.

(** With distinct keys, deleting the keys of the finished tasks one by one
    is filtering them out. *)
Lemma cleaned_is_sweep (done : task -> bool) (d : Dict.dict task) :
  NoDup (Dict.keys d) ->
  fold_left (fun d' k => Dict.del k d')
            (map fst (filter (fun kv => done (snd kv)) d)) d
  = sweep done d.
Proof.
  induction d as [|[k v] d IH]; [reflexivity|].
  intros H. inversion H as [|? ? Hn Hd]; subst.
  unfold sweep. simpl filter. destruct (done v); simpl.
  - rewrite Z.eqb_refl. now apply IH.
  - rewrite fold_del_skip; [now rewrite IH|].
    intros Hin. apply Hn. apply in_map_iff in Hin as ([k' v'] & <- & Hin).
    apply filter_In in Hin as [Hin _].
    apply in_map_iff. now exists (k', v').
Qed.

Lemma sweep_idempotent (done : task -> bool) (d : Dict.dict task) :
  sweep done (sweep done d) = sweep done d.
Proof.
  unfold sweep. induction d as [|[k v] d IH]; [reflexivity|].
  simpl. destruct (done v) eqn:E; simpl; [assumption|].
  rewrite E. simpl. now rewrite IH.
Qed.

Lemma sweep_size (done : task -> bool) (d : Dict.dict task) :
  Dict.size (sweep done d) <= Dict.size d.
Proof.
  unfold sweep, Dict.size.
  pose proof (filter_length_le (fun kv => negb (done (snd kv))) d). lia.
Qed.

Lemma sweep_nodup (done : task -> bool) (d : Dict.dict task) :
  NoDup (Dict.keys d) -> NoDup (Dict.keys (sweep done d)).
Proof.
  unfold sweep. induction d as [|[k v] d IH]; [auto|].
  intros H. inversion H as [|? ? Hn Hd]; subst.
  simpl. destruct (done v); simpl; [auto|].
  constructor; [|auto].
  intros Hin. apply Hn. apply in_map_iff in Hin as ([k' v'] & <- & Hin).
  apply filter_In in Hin as [Hin _]. apply in_map_iff. now exists (k', v').
Qed.

Section PoolSteps.
Variable cfg : config.
Variable w : world.

Lemma cleanup_typing_tasks_run (st : state) :
  distinct_keys st ->
  exists tr,
    cleanup_typing_tasks w st
    = (Val tt,
       pool_state (sweep (task_done w (clock st)) (typing_tasks st))
                  (typing_cleanup_counter st) tr st)
    /\ cancels tr = [].
Proof.
  intros H. unfold cleanup_typing_tasks, bind, gets, set_tasks, modify.
  rewrite (cleaned_is_sweep _ _ H).
  destruct (map fst (filter _ (typing_tasks st))).
  - exists []. split; [|reflexivity].
    unfold ret, pool_state. simpl. now rewrite app_nil_r.
  - eexists [_]. split; reflexivity.
Qed.

(** [to_remove] turns of the eviction loop take the oldest entries away,
    cancelling each. *)
Lemma evict_oldest_run (n : nat) (st : state) :
  (n <= List.length (typing_tasks st))%nat ->
  repeat_ n evict_oldest st
  = (Val tt,
     pool_state (skipn n (typing_tasks st)) (typing_cleanup_counter st)
                (map (fun kv => EvCancel (snd kv)) (firstn n (typing_tasks st)))
                st).
Proof.
  revert st. induction n as [|n IH]; intros st H.
  - simpl. unfold ret. now rewrite pool_state_id.
  - destruct st as [off d c nx clk tr]. simpl in H.
    destruct d as [|[k t] d]; [simpl in H; lia|].
    simpl repeat_. unfold bind at 1. unfold evict_oldest at 1.
    unfold bind, gets, emit, modify, set_tasks. simpl.
    rewrite Z.eqb_refl. simpl.
    rewrite IH by (simpl in *; lia).
    unfold pool_state. simpl. now rewrite <- app_assoc.
Qed.

Lemma cancels_evicted (d : Dict.dict task) :
  cancels (map (fun kv => EvCancel (snd kv)) d) = map snd d.
Proof. induction d as [|[k t] d IH]; simpl; [reflexivity|now rewrite IH]. Qed.
End PoolSteps.

Section DictMore.
Context {V : Type}.
Implicit Types (d : Dict.dict V) (k : Z) (v : V).

Lemma not_in_get_none k d : ~ In k (Dict.keys d) -> Dict.get k d = None.
Proof.
  induction d as [|[k' v'] d IH]; simpl; [reflexivity|].
  intros H. destruct (k' =? k) eqn:E.
  - apply Z.eqb_eq in E. tauto.
  - apply IH. tauto.
Qed.

Lemma skipn_keys_incl (n : nat) k d :
  In k (Dict.keys (skipn n d)) -> In k (Dict.keys d).
Proof.
  unfold Dict.keys. intros H. apply in_map_iff in H as (kv & <- & H).
  apply in_map. revert H.
  rewrite <- (firstn_skipn n d) at 2. intros H. apply in_or_app. now right.
Qed.

Lemma get_set_same k v d : Dict.get k (Dict.set k v d) = Some v.
Proof.
  induction d as [|[k' v'] d IH]; simpl.
  - now rewrite Z.eqb_refl.
  - destruct (k' =? k) eqn:E; simpl; [now rewrite Z.eqb_refl|now rewrite E].
Qed.
End DictMore.

Lemma sweep_keys_incl (done : task -> bool) (k : Z) (d : Dict.dict task) :
  In k (Dict.keys (sweep done d)) -> In k (Dict.keys d).
Proof.
  unfold Dict.keys, sweep. intros H. apply in_map_iff in H as (kv & <- & H).
  apply filter_In in H as [H _]. now apply in_map.
Qed.

Section StartTyping.
Variable cfg : config.
Variable w : world.

Let M := TELEGRAM_MAX_TYPING_TASKS cfg.

(** The periodic clean-up. *)
Lemma periodic_run (b : bool) (st : state) :
  distinct_keys st ->
  exists tr,
    (if b then cleanup_typing_tasks w;; set_counter 0 else ret tt) st
    = (Val tt,
       pool_state
         (if b then sweep (task_done w (clock st)) (typing_tasks st)
          else typing_tasks st)
         (if b then 0 else typing_cleanup_counter st) tr st)
    /\ cancels tr = [].
Proof.
  intros H. destruct b.
  - destruct (cleanup_typing_tasks_run w st H) as (tr & E & Q).
    exists tr. split; [|exact Q].
    rewrite (bind_val _ _ _ _ _ E). reflexivity.
  - exists []. split; [|reflexivity].
    unfold ret. now rewrite pool_state_id.
Qed.

Lemma evictions_le (swept : Dict.dict task) :
  1 <= M -> (evictions M swept <= List.length swept)%nat.
Proof.
  intros HM. unfold evictions.
  destruct (Dict.size swept >=? M) eqn:E; [|lia].
  rewrite Z.geb_leb in E. apply Z.leb_le in E.
  unfold Dict.size in *.
  assert (Z.of_nat (List.length swept) / 10 <= Z.of_nat (List.length swept)).
  { apply Z.div_le_upper_bound; lia. }
  lia.
Qed.

(** The capacity check. *)
Lemma capacity_run (st : state) :
  distinct_keys st -> 1 <= M ->
  let d := typing_tasks st in
  let swept :=
    if Dict.size d >=? M then sweep (task_done w (clock st)) d else d in
  exists tr,
    (if Dict.size d >=? M then
       log Warning "Typing tasks limit reached, forcing cleanup";;
       cleanup_typing_tasks w;;
       d' <- gets typing_tasks;;
       if Dict.size d' >=? M then
         repeat_ (Z.to_nat (Z.max 1 (Dict.size d' / 10))) evict_oldest;;
         log Warning "Forcefully removed oldest typing tasks"
       else ret tt
     else ret tt) st
    = (Val tt,
       pool_state (skipn (evictions M swept) swept)
                  (typing_cleanup_counter st) tr st)
    /\ cancels tr = map snd (firstn (evictions M swept) swept).
Proof.
  intros H HM d swept. subst d swept.
  destruct (Dict.size (typing_tasks st) >=? M) eqn:E.
  - set (st1 := pool_state (typing_tasks st) (typing_cleanup_counter st)
                  [EvLog Warning "Typing tasks limit reached, forcing cleanup"]
                  st).
    assert (L : log Warning "Typing tasks limit reached, forcing cleanup" st
                = (Val tt, st1)) by reflexivity.
    rewrite (bind_val _ _ _ _ _ L).
    destruct (cleanup_typing_tasks_run w st1 H) as (tr & C & Q).
    rewrite (bind_val _ _ _ _ _ C).
    unfold st1 in *. rewrite pool_state_twice. cbn [clock pool_state typing_tasks
      typing_cleanup_counter] in *.
    set (swept := sweep (task_done w (clock st)) (typing_tasks st)) in *.
    set (st2 := pool_state swept (typing_cleanup_counter st) _ st).
    unfold bind at 1, gets at 1. cbn [typing_tasks st2 pool_state].
    pose proof (evictions_le swept HM) as Hle.
    unfold evictions in *.
    destruct (Dict.size swept >=? M) eqn:E2.
    + assert (R := evict_oldest_run
                     (Z.to_nat (Z.max 1 (Dict.size swept / 10))) st2 Hle).
      rewrite (bind_val _ _ _ _ _ R).
      unfold st2. rewrite pool_state_twice.
      unfold log, emit, modify. cbn [typing_tasks pool_state
        typing_cleanup_counter update_offset next_task clock trace].
      eexists. split.
      * unfold pool_state. cbn. rewrite <- !app_assoc. reflexivity.
      * rewrite cancels_app. change (cancels (?e :: ?l)) with (cancels l).
        rewrite cancels_app, Q, cancels_evicted. simpl.
        now rewrite app_nil_r.
    + eexists. split; [reflexivity|].
      rewrite cancels_app, Q. reflexivity.
  - unfold evictions. rewrite E. exists []. split; [|reflexivity].
    unfold ret. cbn [skipn]. now rewrite pool_state_id.
Qed.

(** The creation of the task, last. *)
Lemma create_run (chat : Z) (st : state) :
  (t <- fresh_task;;
   emit (EvCreateTask t chat);;
   d <- gets typing_tasks;;
   set_tasks (Dict.set chat t d)) st
  = (Val tt,
     mkState (update_offset st)
             (Dict.set chat (next_task st) (typing_tasks st))
             (typing_cleanup_counter st) (S (next_task st)) (clock st)
             (trace st ++ [EvCreateTask (next_task st) chat])).
Proof. reflexivity. Qed.
End StartTyping.

Lemma bind_gets {A B} (f : state -> A) (k : A -> M B) (st : state) :
  bind (gets f) k st = k (f st) st.
Proof. reflexivity. Qed.

Lemma set_counter_run (z : Z) (st : state) :
  set_counter z st = (Val tt, pool_state (typing_tasks st) z [] st).
Proof. unfold set_counter, modify, pool_state. now rewrite app_nil_r. Qed.

(** [_start_typing] from a pool with distinct keys, for a maximum of at
    least 1: it returns normally; the pool is the swept one less its
    oldest entries, then the new task; the tasks cancelled are the one the
    conversation had and the evicted ones, in that order. *)
Lemma start_typing_run (cfg : config) (w : world) (chat : Z) (st : state) :
  distinct_keys st ->
  1 <= TELEGRAM_MAX_TYPING_TASKS cfg ->
  let M := TELEGRAM_MAX_TYPING_TASKS cfg in
  let swept := swept_pool cfg w chat st in
  let k := evictions M swept in
  exists st' tr,
    start_typing cfg w chat st = (Val tt, st')
    /\ typing_tasks st' = skipn k swept ++ [(chat, next_task st)]
    /\ trace st' = trace st ++ tr
    /\ cancels tr
       = cancels (stop_events (Dict.get chat (typing_tasks st)))
         ++ map snd (firstn k swept)
    /\ (k <= List.length swept)%nat
    /\ Dict.size swept <= Dict.size (typing_tasks st)
    /\ NoDup (Dict.keys swept).
Proof.
  intros H HM M swept k.
  set (d := typing_tasks st).
  set (d1 := Dict.del chat d).
  assert (HM' : 1 <= M) by exact HM.
  unfold start_typing.
  rewrite (bind_val _ _ _ _ _ (stop_typing_run chat st)).
  rewrite bind_gets.
  rewrite (bind_val _ _ _ _ _ (set_counter_run _ _)).
  cbn [pool_state update_offset typing_tasks typing_cleanup_counter next_task
       clock trace].
  fold d d1.
  set (b := typing_cleanup_counter st + 1
            >=? TELEGRAM_TYPING_CLEANUP_THRESHOLD cfg) in *.
  assert (Esw : swept = if b || (Dict.size d1 >=? M)
                        then sweep (task_done w (clock st)) d1 else d1)
    by reflexivity.
  assert (H1 : NoDup (Dict.keys d1)) by (apply nodup_del; exact H).
  match goal with |- context [bind _ _ ?s] =>
    destruct (periodic_run w b s H1) as (tr4 & E4 & Q4)
  end.
  rewrite (bind_val _ _ _ _ _ E4). clear E4.
  rewrite !pool_state_twice.
  cbn [pool_state update_offset typing_tasks typing_cleanup_counter next_task
       clock trace].
  rewrite bind_gets.
  set (d2 := if b then sweep (task_done w (clock st)) d1 else d1).
  assert (H2 : NoDup (Dict.keys d2)).
  { unfold d2. destruct b; [now apply sweep_nodup|assumption]. }
  match goal with |- context [bind _ _ ?s] =>
    destruct (capacity_run cfg w s H2 HM) as (tr6 & E6 & Q6)
  end.
  cbn [pool_state update_offset typing_tasks typing_cleanup_counter next_task
       clock trace] in E6, Q6.
  fold M in E6, Q6 |- *.
  rewrite (bind_val _ _ _ _ _ E6). clear E6.
  rewrite !pool_state_twice.
  rewrite create_run.
  cbn [pool_state update_offset typing_tasks typing_cleanup_counter next_task
       clock trace].
  assert (Es : (if Dict.size d2 >=? M
                then sweep (task_done w (clock st)) d2 else d2) = swept).
  { rewrite Esw. unfold d2. destruct b; simpl orb.
    - rewrite sweep_idempotent. now destruct (Dict.size (sweep _ _) >=? M).
    - reflexivity. }
  rewrite Es in *. clear Es. fold k in Q6 |- *.
  assert (Hin : forall x, In x (Dict.keys swept) -> In x (Dict.keys d1)).
  { intros x. rewrite Esw.
    destruct (b || (Dict.size d1 >=? M)); [apply sweep_keys_incl|auto]. }
  assert (Hsz : Dict.size swept <= Dict.size d1).
  { rewrite Esw.
    destruct (b || (Dict.size d1 >=? M)); [apply sweep_size|lia]. }
  pose proof (size_del_le chat d) as Hd1. fold d1 in Hd1.
  pose proof (evictions_le cfg swept HM) as Hk. fold M k in Hk.
  assert (Hnd : NoDup (Dict.keys swept)).
  { rewrite Esw.
    destruct (b || (Dict.size d1 >=? M)); [now apply sweep_nodup|assumption]. }
  eexists. eexists. split; [reflexivity|].
  cbn [typing_tasks trace].
  split; [|split; [|split; [|split; [|split]]]].
  - apply set_absent, not_in_get_none.
    intros Hc. apply skipn_keys_incl, Hin in Hc.
    revert Hc. apply get_none_not_in. now apply get_del_same.
  - rewrite <- !app_assoc. reflexivity.
  - rewrite !cancels_app, Q4, Q6. simpl. now rewrite app_nil_r.
  - exact Hk.
  - fold d. lia.
  - exact Hnd.
Qed.

Lemma evictions_spec (M : Z) (swept : Dict.dict task) :
  (M <= Dict.size swept ->
   evictions M swept = Z.to_nat (Z.max 1 (Dict.size swept / 10)))
  /\ (Dict.size swept < M -> evictions M swept = 0%nat).
Proof.
  unfold evictions. split; intros L.
  - destruct (Dict.size swept >=? M) eqn:E; [reflexivity|].
    rewrite Z.geb_leb in E. apply Z.leb_gt in E. lia.
  - destruct (Dict.size swept >=? M) eqn:E; [|reflexivity].
    rewrite Z.geb_leb in E. apply Z.leb_le in E. lia.
Qed.

(** ** The pool never exceeds its maximum *)

#[local] Instance within_limit_preorder (M : Z) : PreOrder (within_limit M).
Proof. split; unfold within_limit; [intros s|intros a b c]; auto. Qed.

Section Limit.
Variable cfg : config.
Variable w : world.
Hypothesis at_least_one : 1 <= TELEGRAM_MAX_TYPING_TASKS cfg.

Let cap := TELEGRAM_MAX_TYPING_TASKS cfg.

Lemma limit_of_io {A} (m : M A) :
  respects io_only m -> respects (within_limit cap) m.
Proof.
  apply respects_weaken. intros s s' (_ & E & _).
  unfold within_limit, distinct_keys. now rewrite E.
Qed.

Lemma limit_emit (e : event) : respects (within_limit cap) (emit e).
Proof. intros st H. exact H. Qed.

Lemma limit_set_offset (z : Z) : respects (within_limit cap) (set_offset z).
Proof. intros st H. exact H. Qed.

Lemma limit_clear : respects (within_limit cap) (set_tasks []).
Proof.
  intros st _. split; [constructor|]. unfold Dict.size. simpl.
  subst cap. lia.
Qed.

Lemma limit_stop_typing (chat : Z) :
  respects (within_limit cap) (stop_typing chat).
Proof.
  intros st [H L]. rewrite stop_typing_run. split.
  - now apply nodup_del.
  - cbn [snd pool_state typing_tasks].
    pose proof (size_del_le chat (typing_tasks st)). lia.
Qed.

Lemma limit_start_typing (chat : Z) :
  respects (within_limit cap) (start_typing cfg w chat).
Proof.
  intros st [H L]. split; [now apply (pool_start_typing cfg w chat st)|].
  destruct (start_typing_run cfg w chat st H at_least_one)
    as (st' & tr & E & P & _ & _ & Hk & Hsz & _).
  rewrite E. cbn [snd]. rewrite P.
  destruct (evictions_spec cap (swept_pool cfg w chat st)) as [K1 K0].
  fold cap in Hk, Hsz |- *.
  unfold Dict.size in *. rewrite length_app, length_skipn. simpl.
  destruct (Z_lt_le_dec (Z.of_nat (List.length (swept_pool cfg w chat st))) cap)
    as [B|B].
  - rewrite (K0 B). lia.
  - rewrite (K1 B) in *. lia.
Qed.

Hint Resolve io_log io_sleep io_send_to_bus io_api_call io_send_message
     io_handle_command limit_of_io limit_emit limit_set_offset limit_clear
     limit_stop_typing limit_start_typing : respects.

Lemma limit_handle_message (m : actor_message) :
  respects (within_limit cap) (handle_message cfg w m).
Proof.
  unfold handle_message, send_bot_response, send_error_message. respects_tac.
Qed.

Lemma limit_shutdown : respects (within_limit cap) shutdown.
Proof. unfold shutdown. respects_tac. Qed.

Lemma limit_polling_iteration :
  respects (within_limit cap) (polling_iteration cfg w).
Proof.
  unfold polling_iteration, polling_body, get_updates, process_update.
  respects_tac.
Qed.

Lemma limit_run_op (o : op) (st : state) :
  within_limit cap st (run_op cfg w o st).
Proof.
  destruct o; simpl.
  - apply limit_polling_iteration.
  - apply limit_handle_message.
  - apply limit_start_typing.
  - apply limit_stop_typing.
  - apply limit_shutdown.
Qed.

(** In every state the actor can reach the pool has at most [TELEGRAM_MAX_TYPING_TASKS] entries. *)
Lemma pool_within_limit (ops : list op) :
  Dict.size (typing_tasks (run_ops cfg w ops init)) <= cap.
Proof.
  enough (G : forall st,
             distinct_keys st /\ Dict.size (typing_tasks st) <= cap ->
             distinct_keys (run_ops cfg w ops st)
             /\ Dict.size (typing_tasks (run_ops cfg w ops st)) <= cap).
  { apply G. split; [constructor|]. unfold Dict.size. simpl. subst cap. lia. }
  induction ops as [|o ops IH]; intros st Hst; simpl; [assumption|].
  apply IH. now apply limit_run_op.
Qed.
End Limit.

(** C5 (as amended). From a pool with distinct keys whose size is at or
    above the maximum [M] (at least 1), [start] returns normally and:
    the task of that conversation, if any, is stopped; finished tasks are
    swept when the periodic clean-up is due or the pool is still at or
    above [M]; if the pool is then still at or above [M], the oldest
    [max(1, size / 10)] entries are evicted, each cancelled, which is at
    least one and at most a tenth of the prior entries rounded up; if the
    pool is then below [M], nothing is evicted; the new task is put last,
    and the pool is no larger than it was before the call (so at most [M]
    from a pool of size [M]). *)
Theorem start_typing_at_capacity (cfg : config) (w : world) (chat : Z)
        (st : state) :
  distinct_keys st ->
  1 <= TELEGRAM_MAX_TYPING_TASKS cfg ->
  TELEGRAM_MAX_TYPING_TASKS cfg <= Dict.size (typing_tasks st) ->
  let M := TELEGRAM_MAX_TYPING_TASKS cfg in
  let d := typing_tasks st in
  let swept := swept_pool cfg w chat st in
  let k := evictions M swept in
  exists st' tr,
    start_typing cfg w chat st = (Val tt, st')
    /\ typing_tasks st' = skipn k swept ++ [(chat, next_task st)]
    /\ trace st' = trace st ++ tr
    /\ cancels tr
       = cancels (stop_events (Dict.get chat d)) ++ map snd (firstn k swept)
    /\ (M <= Dict.size swept ->
        k = Z.to_nat (Z.max 1 (Dict.size swept / 10)) /\ (1 <= k)%nat)
    /\ (Dict.size swept < M -> k = 0%nat)
    /\ Z.of_nat k <= (Dict.size d + 9) / 10
    /\ Dict.size (typing_tasks st') <= Dict.size d.
Proof.
  intros H HM HS M d swept k.
  destruct (start_typing_run cfg w chat st H HM)
    as (st' & tr & E & P & T & Q & Hk & Hsz & _).
  fold M swept k d in P, Q, Hk, Hsz.
  assert (HM' : 1 <= M) by exact HM.
  assert (HS' : M <= Dict.size d) by exact HS.
  destruct (evictions_spec M swept) as [K1 K0]. fold k in K1, K0.
  assert (0 <= Dict.size swept) by apply size_nonneg.
  exists st', tr.
  split; [exact E|]. split; [exact P|]. split; [exact T|]. split; [exact Q|].
  split; [|split; [exact K0|split]].
  - intros L. specialize (K1 L). split; [exact K1|lia].
  - assert (1 <= (Dict.size d + 9) / 10)
      by (apply Z.div_le_lower_bound; lia).
    assert (Dict.size swept / 10 <= (Dict.size d + 9) / 10)
      by (apply Z.div_le_mono; lia).
    destruct (Z_lt_le_dec (Dict.size swept) M) as [L|L].
    + rewrite (K0 L). lia.
    + rewrite (K1 L). lia.
  - rewrite P. unfold Dict.size in *. rewrite length_app, length_skipn. simpl.
    destruct (Z_lt_le_dec (Z.of_nat (List.length swept)) M) as [L|L].
    + rewrite (K0 L). lia.
    + specialize (K1 L). lia.
Qed.

Lemma start_typing_at_capacity_witness :
  exists st' tr,
    start_typing small (answering (Ok [])) 3
      (run_ops small (answering (Ok [])) [OpStart 1; OpStart 2] init)
    = (Val tt, st')
    /\ typing_tasks st' = [(2, 1%nat); (3, 2%nat)]
    /\ trace st'
       = trace (run_ops small (answering (Ok [])) [OpStart 1; OpStart 2] init)
         ++ tr
    /\ cancels tr = [0%nat].
Proof.
  destruct (start_typing_at_capacity small (answering (Ok [])) 3
              (run_ops small (answering (Ok [])) [OpStart 1; OpStart 2] init))
    as (st' & tr & E & P & T & Q & _).
  - unfold distinct_keys. simpl.
    constructor; [simpl; intros [H|[]]; discriminate|].
    constructor; [intros []|constructor].
  - simpl. lia.
  - vm_compute. discriminate.
  - exists st', tr. repeat split; assumption.
Defined.

(** C5 as stated fails at a pool of size [M]: when the sweep frees a place,
    no task is evicted and none is cancelled; when the conversation has a
    task already, that task (here the newest, not the oldest) is stopped
    and no other leaves the pool. *)
Lemma full_pool_without_eviction :
  let full := run_ops small first_task_finished [OpStart 1; OpStart 2] init in
  typing_tasks full = [(1, 0%nat); (2, 1%nat)]
  /\ Dict.size (typing_tasks full) = TELEGRAM_MAX_TYPING_TASKS small
  /\ start_typing small first_task_finished 3 full
     = (Val tt,
        mkState 0 [(2, 1%nat); (3, 2%nat)] 3 3%nat 0%nat
          [EvCreateTask 0%nat 1; EvCreateTask 1%nat 2;
           EvLog Warning "Typing tasks limit reached, forcing cleanup";
           EvLog Debug "Cleaned completed typing tasks";
           EvCreateTask 2%nat 3])
  /\ start_typing small first_task_finished 2 full
     = (Val tt,
        mkState 0 [(1, 0%nat); (2, 2%nat)] 3 3%nat 0%nat
          [EvCreateTask 0%nat 1; EvCreateTask 1%nat 2;
           EvCancel 1%nat; EvCreateTask 2%nat 2]).
Proof. repeat split. Qed.

(** ** One task for each conversation *)

Lemma stop_typing_absent (chat : Z) (st : state) :
  Dict.get chat (typing_tasks st) = None -> stop_typing chat st = (Val tt, st).
Proof.
  intros G. rewrite stop_typing_run, G, (del_absent chat _ G).
  simpl stop_events. now rewrite pool_state_id.
Qed.

(** A computation that, when it returns, has just created the task bound
    to [chat] in the pool. *)
Lemma start_typing_binds (cfg : config) (w : world) (chat : Z) (st : state) :
  fst (start_typing cfg w chat st) = Val tt ->
  exists t tr,
    Dict.get chat (typing_tasks (snd (start_typing cfg w chat st))) = Some t
    /\ trace (snd (start_typing cfg w chat st)) = tr ++ [EvCreateTask t chat].
Proof.
  set (P := fun m : M unit =>
              forall s, fst (m s) = Val tt ->
                exists t tr,
                  Dict.get chat (typing_tasks (snd (m s))) = Some t
                  /\ trace (snd (m s)) = tr ++ [EvCreateTask t chat]).
  assert (Hc : P (t <- fresh_task;; emit (EvCreateTask t chat);;
                  d <- gets typing_tasks;; set_tasks (Dict.set chat t d))).
  { intros s _. rewrite create_run. cbn [snd typing_tasks trace].
    eexists. eexists. split; [apply get_set_same|reflexivity]. }
  assert (Hb : forall A (m : M A) (f : A -> M unit),
             (forall a, P (f a)) -> P (bind m f)).
  { intros A m f Hf s. unfold bind.
    destruct (m s) as [[a|e] s1]; [apply Hf|discriminate]. }
  revert st. change (P (start_typing cfg w chat)). unfold start_typing.
  repeat first [exact Hc | apply Hb; intros ?].
Qed.

(** C8. In every state the actor can reach, the pool holds at most one
    task for each conversation; [start] begins by stopping the task the
    conversation has, which leaves the pool before the new task enters;
    and a second [stop] right after a [stop] changes nothing. *)
Theorem one_task_per_conversation (cfg : config) (w : world) (ops : list op)
        (chat : Z) :
  let st := run_ops cfg w ops init in
  NoDup (Dict.keys (typing_tasks st))
  /\ stop_typing chat st
     = (Val tt,
        pool_state (Dict.del chat (typing_tasks st)) (typing_cleanup_counter st)
                   (stop_events (Dict.get chat (typing_tasks st))) st)
  /\ Dict.get chat (Dict.del chat (typing_tasks st)) = None
  /\ (exists tr,
        trace (snd (start_typing cfg w chat st))
        = trace st ++ stop_events (Dict.get chat (typing_tasks st)) ++ tr)
  /\ (fst (start_typing cfg w chat st) = Val tt ->
      exists t tr,
        Dict.get chat (typing_tasks (snd (start_typing cfg w chat st))) = Some t
        /\ trace (snd (start_typing cfg w chat st)) = tr ++ [EvCreateTask t chat])
  /\ stop_typing chat (snd (stop_typing chat st))
     = (Val tt, snd (stop_typing chat st)).
Proof.
  intros st.
  assert (H : NoDup (Dict.keys (typing_tasks st))).
  { apply (distinct_run_ops cfg w ops init). constructor. }
  split; [exact H|].
  split; [apply stop_typing_run|].
  split; [now apply get_del_same|].
  split; [|split].
  - destruct (start_typing_after_stop cfg w chat) as (rest & E & Hr).
    rewrite E. rewrite (bind_val _ _ _ _ _ (stop_typing_run chat st)).
    match goal with |- context [rest ?s] => destruct (Hr s) as (_ & _ & tr & T & _) end.
    exists tr. rewrite T. cbn [pool_state trace]. now rewrite app_assoc.
  - apply start_typing_binds.
  - apply stop_typing_absent. rewrite stop_typing_run. cbn [snd pool_state typing_tasks].
    now apply get_del_same.
Qed.

(** Two conversations typing, the first one started anew, then stopped
    twice. *)
Example start_again_then_stop_twice :
  let w := answering (Ok []) in
  typing_tasks (run_ops cfg0 w [OpStart 1; OpStart 2; OpStart 1] init)
  = [(2, 1%nat); (1, 2%nat)]
  /\ cancels (trace (run_ops cfg0 w [OpStart 1; OpStart 2; OpStart 1] init))
     = [0%nat]
  /\ run_ops cfg0 w [OpStart 1; OpStart 2; OpStop 1; OpStop 1] init
     = run_ops cfg0 w [OpStart 1; OpStart 2; OpStop 1] init.
Proof. repeat split. Qed.

(** * Further properties of the actor *)

(** ** The splitter: sizes, count and edges of the chunks *)

Lemma split_step_bound (C B : Z) (chunks : list str) (current p : str) :
  C <= B ->
  Forall (short B) chunks -> short B current -> short B p ->
  Forall (short B) (fst (split_step C (chunks, current) p))
  /\ short B (snd (split_step C (chunks, current) p)).
Proof.
  unfold short, split_step. intros HB Hch Hcur Hp.
  destruct (len current + len p + 2 >? C) eqn:E; simpl.
  - split; [|assumption].
    destruct (truthy current); [|assumption].
    apply Forall_app. split; [assumption|].
    apply Forall_cons; [|apply Forall_nil].
    pose proof (strip_len current). lia.
  - split; [assumption|].
    rewrite Z.gtb_ltb in E. apply Z.ltb_ge in E.
    destruct (truthy current); rewrite !len_app.
    + change (len NLNL) with 2. lia.
    + pose proof (len_nonneg current). lia.
Qed.

Lemma fold_split_step_bound (C B : Z) (ps : list str) :
  C <= B -> Forall (short B) ps ->
  forall acc,
    Forall (short B) (fst acc) -> short B (snd acc) ->
    Forall (short B) (fst (fold_left (split_step C) ps acc))
    /\ short B (snd (fold_left (split_step C) ps acc)).
Proof.
  intros HB. induction 1 as [|p ps Hp Hps IH]; intros [chunks current] H1 H2.
  - auto.
  - cbn [fold_left]. cbn [fst snd] in H1, H2.
    destruct (split_step_bound C B chunks current p HB H1 H2 Hp) as [H3 H4].
    destruct (split_step C (chunks, current) p) as [chunks' current'].
    apply IH; assumption.
Qed.

Section Origin.
Variable C : Z.
Variable all : list str.

(** A chunk within the limit, or one paragraph beyond the limit, stripped. *)
Let placed (c : str) : Prop :=
  short C c \/ exists p, In p all /\ C < len p /\ c = strip p.

Let growing (current : str) : Prop :=
  truthy current = false
  \/ short C current
  \/ (In current all /\ C < len current).

Lemma placed_strip (current : str) :
  truthy current = true -> growing current -> placed (strip current).
Proof.
  intros T [F|[S|[I L]]].
  - congruence.
  - left. pose proof (strip_len current). unfold short in *. lia.
  - right. now exists current.
Qed.

Lemma split_step_origin (chunks : list str) (current p : str) :
  In p all ->
  Forall placed chunks -> growing current ->
  Forall placed (fst (split_step C (chunks, current) p))
  /\ growing (snd (split_step C (chunks, current) p)).
Proof.
  intros I Hch Hcur. unfold split_step.
  destruct (len current + len p + 2 >? C) eqn:E; cbn [fst snd].
  - split.
    + destruct (truthy current) eqn:T; [|assumption].
      apply Forall_app. split; [assumption|].
      apply Forall_cons; [now apply placed_strip|apply Forall_nil].
    + destruct (Z_le_gt_dec (len p) C) as [L|L].
      * right. now left.
      * right. right. split; [assumption|lia].
  - split; [assumption|]. right. left. unfold short.
    rewrite Z.gtb_ltb in E. apply Z.ltb_ge in E.
    pose proof (len_nonneg current).
    destruct (truthy current); rewrite !len_app.
    + change (len NLNL) with 2. lia.
    + lia.
Qed.

Lemma fold_split_step_origin (ps : list str) :
  incl ps all ->
  forall acc,
    Forall placed (fst acc) -> growing (snd acc) ->
    Forall placed (fst (fold_left (split_step C) ps acc))
    /\ growing (snd (fold_left (split_step C) ps acc)).
Proof.
  induction ps as [|p ps IH]; intros I [chunks current] H1 H2.
  - auto.
  - cbn [fold_left]. cbn [fst snd] in H1, H2.
    destruct (split_step_origin chunks current p (I p (or_introl eq_refl))
                                H1 H2) as [H3 H4].
    destruct (split_step C (chunks, current) p) as [chunks' current'].
    apply IH; [|assumption|assumption].
    intros x Hx. apply I. now right.
Qed.
End Origin.

(** X1. No chunk is longer than the larger of the limit and the longest
    paragraph; and a chunk beyond the limit can only come from one
    paragraph that is itself beyond the limit: every chunk is within the
    limit, or is one paragraph of the text, longer than the limit, with
    its two ends stripped. *)
Theorem chunk_within_longest_paragraph (C B : Z) (body : str) :
  C <= B ->
  Forall (short B) (split_nlnl body) ->
  Forall (short B) (split_long_message C body)
  /\ Forall (fun c => short C c
                      \/ exists p, In p (split_nlnl body)
                                   /\ C < len p /\ c = strip p)
            (split_long_message C body).
Proof.
  intros HB H. split.
  - unfold split_long_message.
    destruct (len body <=? C) eqn:E.
    + apply Z.leb_le in E.
      apply Forall_cons; [unfold short; lia|apply Forall_nil].
    + assert (H0 : short B []).
      { destruct (split_nlnl body) as [|p ps] eqn:Es;
          [now apply split_nlnl_nonempty in Es|].
        inversion H; subst. unfold short in *.
        pose proof (len_nonneg p). change (len []) with 0. lia. }
      destruct (fold_split_step_bound C B _ HB H ([], []) (Forall_nil _) H0)
        as [H1 H2].
      destruct (fold_left (split_step C) (split_nlnl body) ([], []))
        as [chunks current]. simpl in H1, H2.
      destruct (truthy current); [|assumption].
      apply Forall_app. split; [assumption|].
      apply Forall_cons; [|apply Forall_nil].
      pose proof (strip_len current). unfold short in *. lia.
  - unfold split_long_message.
    destruct (len body <=? C) eqn:E.
    + apply Z.leb_le in E.
      apply Forall_cons; [now left|apply Forall_nil].
    + destruct (fold_split_step_origin C (split_nlnl body) (split_nlnl body)
                  (incl_refl _) ([], []) (Forall_nil _) (or_introl eq_refl))
        as [H1 H2].
      destruct (fold_left (split_step C) (split_nlnl body) ([], []))
        as [chunks current]. cbn [fst snd] in H1, H2.
      pose proof (placed_strip C (split_nlnl body) current) as K.
      destruct (truthy current); [|assumption].
      apply Forall_app. split; [assumption|].
      apply Forall_cons; [|apply Forall_nil].
      apply K; [reflexivity|].
      destruct H2 as [F|H2]; [discriminate|now right].
Qed.

Lemma chunk_within_longest_paragraph_witness :
  Forall (short 6) (split_long_message 4 (paras ["abcdef"; "gh"]%string))
  /\ Forall (fun c => short 4 c
                      \/ exists p,
                           In p (split_nlnl (paras ["abcdef"; "gh"]%string))
                           /\ 4 < len p /\ c = strip p)
            (split_long_message 4 (paras ["abcdef"; "gh"]%string)).
Proof.
  apply (chunk_within_longest_paragraph 4 6 (paras ["abcdef"; "gh"]%string)).
  - lia.
  - change (split_nlnl (paras ["abcdef"; "gh"]%string))
      with [of_string "abcdef"; of_string "gh"].
    repeat (apply Forall_cons; [vm_compute; discriminate|]). apply Forall_nil.
Defined.

Lemma split_step_pending (C : Z) (acc : list str * str) (p : str) :
  (pending (split_step C acc p) <= S (pending acc))%nat.
Proof.
  destruct acc as [chunks current]. unfold pending, split_step.
  destruct (len current + len p + 2 >? C); cbn [fst snd].
  - destruct (truthy current); [rewrite length_app|];
      destruct (truthy p); simpl; lia.
  - destruct current as [|c current]; simpl.
    + destruct (truthy p); lia.
    + lia.
Qed.

Lemma fold_split_step_pending (C : Z) (ps : list str) (acc : list str * str) :
  (pending (fold_left (split_step C) ps acc) <= List.length ps + pending acc)%nat.
Proof.
  revert acc. induction ps as [|p ps IH]; intros acc; simpl; [lia|].
  specialize (IH (split_step C acc p)).
  pose proof (split_step_pending C acc p). lia.
Qed.

(** X2. The splitter never makes more chunks than the text has
    paragraphs. *)
Theorem chunks_no_more_than_paragraphs (C : Z) (body : str) :
  (List.length (split_long_message C body) <= List.length (split_nlnl body))%nat.
Proof.
  unfold split_long_message. destruct (len body <=? C).
  - destruct (split_nlnl body) eqn:E; [now apply split_nlnl_nonempty in E|].
    simpl. lia.
  - pose proof (fold_split_step_pending C (split_nlnl body) ([], [])) as H.
    unfold pending in H.
    destruct (fold_left (split_step C) (split_nlnl body) ([], []))
      as [chunks current]. simpl in H.
    destruct (truthy current); [rewrite length_app; simpl|]; lia.
Qed.

(** Paragraphs that fit together are merged: fewer chunks than
    paragraphs. *)
Example chunks_fewer_than_paragraphs :
  List.length (split_long_message 9 (paras ["aaa"; "bbb"; "ccc"]%string)) = 2%nat
  /\ List.length (split_nlnl (paras ["aaa"; "bbb"; "ccc"]%string)) = 3%nat.
Proof. split; reflexivity. Qed.

(** *** [strip] *)

Lemma lstrip_decompose (s : str) :
  exists pre, s = pre ++ lstrip s /\ forallb isspace pre = true.
Proof.
  induction s as [|c s (pre & E & F)].
  - exists []. split; reflexivity.
  - simpl. destruct (isspace c) eqn:Ec.
    + exists (c :: pre). simpl. rewrite Ec, F. split; [now rewrite <- E|reflexivity].
    + exists []. split; reflexivity.
Qed.

Lemma lstrip_fixed (s : str) : lstrip (lstrip s) = lstrip s.
Proof.
  induction s as [|c s IH]; [reflexivity|].
  simpl. destruct (isspace c) eqn:Ec; [exact IH|].
  simpl. now rewrite Ec.
Qed.

(** A string [lstrip] leaves alone is empty or begins with a character
    that is not white space. *)
Lemma lstrip_fixed_head (s : str) :
  lstrip s = s -> s = [] \/ starts_black s = true.
Proof.
  destruct s as [|c s]; [now left|].
  simpl. destruct (isspace c) eqn:Ec; [|now right].
  intros H. exfalso.
  pose proof (lstrip_length s) as L. rewrite H in L. simpl in L. lia.
Qed.

Lemma starts_black_prefix (a b : str) :
  a <> [] -> starts_black (a ++ b) = true -> starts_black a = true.
Proof. destruct a; [congruence|trivial]. Qed.

Lemma strip_fixed (s : str) : strip (strip s) = strip s.
Proof.
  unfold strip, rstrip.
  set (a := lstrip s).
  destruct (lstrip_decompose (rev a)) as (pre & E & _).
  set (c := lstrip (rev a)) in *.
  assert (Hc : lstrip c = c) by apply lstrip_fixed.
  assert (Hr : lstrip (rev c) = rev c).
  { destruct c as [|x c'] eqn:Ec; [reflexivity|].
    apply lstrip_black.
    assert (Ea : a = rev (x :: c') ++ rev pre).
    { rewrite <- rev_app_distr, <- E. now rewrite rev_involutive. }
    destruct (lstrip_fixed_head a (lstrip_fixed s)) as [H0|H0].
    - exfalso. rewrite H0 in Ea. symmetry in Ea.
      apply app_eq_nil in Ea as [Ea _].
      apply (f_equal (@List.length _)) in Ea. rewrite length_rev in Ea.
      discriminate.
    - rewrite Ea in H0. apply starts_black_prefix in H0; [exact H0|].
      intros N. apply (f_equal (@List.length _)) in N.
      rewrite length_rev in N. discriminate. }
  rewrite Hr, rev_involutive, Hc. reflexivity.
Qed.

Lemma fold_split_step_stripped (C : Z) (ps : list str) (acc : list str * str) :
  Forall (fun c => strip c = c) (fst acc) ->
  Forall (fun c => strip c = c) (fst (fold_left (split_step C) ps acc)).
Proof.
  revert acc. induction ps as [|p ps IH]; intros [chunks current] H;
    [exact H|].
  cbn [fold_left]. apply IH. unfold split_step.
  destruct (len current + len p + 2 >? C); cbn [fst]; [|exact H].
  destruct (truthy current); [|exact H].
  apply Forall_app. split; [exact H|].
  apply Forall_cons; [apply strip_fixed|apply Forall_nil].
Qed.

(** X3. When the text is longer than the limit, every chunk has been
    through [strip]: no chunk begins or ends with white space (a text
    within the limit is passed on untouched instead). *)
Theorem long_message_chunks_stripped (C : Z) (body : str) :
  C < len body ->
  Forall (fun c => strip c = c) (split_long_message C body).
Proof.
  intros H. unfold split_long_message.
  destruct (len body <=? C) eqn:E; [apply Z.leb_le in E; lia|].
  pose proof (fold_split_step_stripped C (split_nlnl body) ([], [])
                (Forall_nil _)) as F.
  destruct (fold_left (split_step C) (split_nlnl body) ([], []))
    as [chunks current]. cbn [fst] in F.
  destruct (truthy current); [|exact F].
  apply Forall_app. split; [exact F|].
  apply Forall_cons; [apply strip_fixed|apply Forall_nil].
Qed.

Lemma long_message_chunks_stripped_witness :
  Forall (fun c => strip c = c) (split_long_message 3 (paras [" a"; "b "]%string)).
Proof.
  apply (long_message_chunks_stripped 3 (paras [" a"; "b "]%string)).
  vm_compute. reflexivity.
Defined.

(** A short text keeps its blanks, and a long one can yield an empty
    chunk, from a paragraph of blanks. *)
Example stripping_edge_cases :
  split_long_message 9 (of_string " a ") = [of_string " a "]
  /\ split_long_message 3 (paras ["  "; "ab"]%string) = [[]; of_string "ab"].
Proof. split; reflexivity. Qed.

(** ** What the coroutines let out *)

Section Raises.
Variable P : exn -> Prop.

Lemma raises_ret {A} (a : A) : raises_only P (ret a).
Proof. intros st e H. discriminate. Qed.

Lemma raises_raise {A} (e : exn) : P e -> raises_only P (@raise A e).
Proof. intros H st e' E. injection E as <-. exact H. Qed.

Lemma raises_gets {A} (f : state -> A) : raises_only P (gets f).
Proof. intros st e H. discriminate. Qed.

Lemma raises_modify (f : state -> state) : raises_only P (modify f).
Proof. intros st e H. discriminate. Qed.

Lemma raises_emit (e : event) : raises_only P (emit e).
Proof. apply raises_modify. Qed.

Lemma raises_tick : raises_only P tick.
Proof. intros st e H. discriminate. Qed.

Lemma raises_fresh_task : raises_only P fresh_task.
Proof. intros st e H. discriminate. Qed.

Lemma raises_bind {A B} (m : M A) (f : A -> M B) :
  raises_only P m -> (forall a, raises_only P (f a)) ->
  raises_only P (bind m f).
Proof.
  intros Hm Hf st e. unfold bind.
  specialize (Hm st). destruct (m st) as [[a|e'] st1]; simpl in *.
  - apply Hf.
  - intros E. injection E as <-. now apply Hm.
Qed.

(** Whatever the block raises, only what the handler lets out counts. *)
Lemma raises_try_except {A} (m : M A) (h : exn -> M A) :
  (forall e, raises_only P (h e)) -> raises_only P (try_except m h).
Proof.
  intros Hh st e. unfold try_except.
  destruct (m st) as [[a|e'] st1]; simpl; [discriminate|apply Hh].
Qed.

Lemma raises_for_each {A} (f : A -> M unit) (l : list A) :
  (forall a, raises_only P (f a)) -> raises_only P (for_each f l).
Proof.
  intros Hf. induction l as [|x l IH]; simpl.
  - apply raises_ret.
  - apply raises_bind; auto.
Qed.

Lemma raises_repeat (n : nat) (m : M unit) :
  raises_only P m -> raises_only P (repeat_ n m).
Proof.
  intros Hm. induction n as [|n IH]; simpl.
  - apply raises_ret.
  - apply raises_bind; auto.
Qed.
End Raises.

(** What the block raises is what the handler gets. *)
Lemma raises_try_except_from (Q P : exn -> Prop) {A} (m : M A)
      (h : exn -> M A) :
  raises_only Q m -> (forall e, Q e -> raises_only P (h e)) ->
  raises_only P (try_except m h).
Proof.
  intros Hm Hh st e. unfold try_except.
  specialize (Hm st). destruct (m st) as [[a|e'] st1]; simpl in *;
    [discriminate|].
  apply Hh. now apply Hm.
Qed.

Lemma raises_weaken (P Q : exn -> Prop) {A} (m : M A) :
  (forall e, P e -> Q e) -> raises_only P m -> raises_only Q m.
Proof. intros H Hm st e E. apply H, (Hm st e E). Qed.

Create HintDb raises.

#[local] Hint Resolve raises_ret raises_gets raises_modify raises_emit
  raises_tick raises_fresh_task : raises.

(** Takes a goal [raises_only P m] apart along the shape of [m]. *)
Ltac raises_tac :=
  repeat (intros;
    match goal with
    | |- _ => solve [auto with raises]
    | |- raises_only _ (bind _ _) => apply raises_bind
    | |- raises_only _ (try_except _ _) => apply raises_try_except
    | |- raises_only _ (for_each _ _) => apply raises_for_each
    | |- raises_only _ (repeat_ _ _) => apply raises_repeat
    | |- raises_only _ (raise _) => apply raises_raise
    | |- raises_only _ (match ?x with _ => _ end) => destruct x eqn:?
    | |- raises_only _ _ => progress cbv zeta
    end).

Lemma not_exception_is_cancellation (e : exn) :
  is_Exception e = false -> is_cancellation e.
Proof. destruct e; try discriminate. reflexivity. Qed.

#[local] Hint Resolve not_exception_is_cancellation : raises.
#[local] Hint Extern 1 (is_cancellation CancelledError) => reflexivity : raises.

Section Escapes.
Variable cfg : config.
Variable w : world.

Lemma send_chunk_escapes (chat : Z) (chunk : str) :
  raises_only is_cancellation (send_chunk cfg w chat chunk).
Proof. unfold send_chunk, log. raises_tac. Qed.

Lemma send_message_escapes (chat : Z) (body : str) :
  raises_only is_cancellation (send_message cfg w chat body).
Proof.
  unfold send_message. apply raises_for_each. apply send_chunk_escapes.
Qed.

Lemma get_updates_escapes : raises_only is_cancellation (get_updates cfg w).
Proof. unfold get_updates, log. raises_tac. Qed.
End Escapes.

(** X4. Sending a message lets no failure out: it returns, or it is
    cancelled; and it touches neither the offset nor the pool. *)
Theorem send_message_lets_only_cancellation_out (cfg : config) (w : world)
        (chat : Z) (body : str) (st : state) :
  (fst (send_message cfg w chat body st) = Val tt
   \/ fst (send_message cfg w chat body st) = Exc CancelledError)
  /\ update_offset (snd (send_message cfg w chat body st)) = update_offset st
  /\ typing_tasks (snd (send_message cfg w chat body st)) = typing_tasks st.
Proof.
  split.
  - pose proof (send_message_escapes cfg w chat body st) as H.
    destruct (fst (send_message cfg w chat body st)) as [[]|e].
    + now left.
    + right. now rewrite (H e eq_refl).
  - destruct (io_send_message cfg w chat body st) as (H1 & H2 & _). auto.
Qed.

(** Both outcomes happen: every call rejected, and a cancellation at the
    first call. *)
Example send_message_outcomes :
  fst (send_message small (answering NotOk) 7 (of_string "hi") init) = Val tt
  /\ fst (send_message small
            (mkWorld (fun _ => true) (fun _ _ => Ok []) (fun _ => None)
                     (fun _ _ => false) (fun _ => true) true)
            7 (of_string "hi") init) = Exc CancelledError.
Proof. split; reflexivity. Qed.

(** ** A world without cancellation *)

Section Calm.
Variable cfg : config.
Variable w : world.
Hypothesis calm_w : calm w.

Lemma suspend_calm (st : state) :
  suspend w st = (Val (clock st), later 1 [] st).
Proof.
  destruct (calm_w (clock st)) as (C & _).
  unfold suspend, bind, tick. cbn beta iota. rewrite C.
  unfold ret, later. simpl. now rewrite app_nil_r.
Qed.

Lemma sleep_calm (secs : Z) (st : state) :
  sleep w secs st = (Val tt, later 1 [EvSleep secs] st).
Proof.
  unfold sleep, bind, emit, modify. cbn beta iota. rewrite suspend_calm.
  unfold later. simpl. now rewrite app_nil_r.
Qed.

Lemma api_call_calm (r : request) (timeout : option Z) :
  raises_only is_failure (api_call cfg w r timeout).
Proof.
  intros st e. destruct (calm_w (clock st)) as (C & A & _).
  rewrite (api_call_run cfg w r timeout st C). simpl.
  specialize (A r).
  destruct (api w (clock st) r) as [res| |e']; try discriminate.
  - intros E. injection E as <-. reflexivity.
  - intros E. injection E as <-. destruct e'; try reflexivity. congruence.
Qed.

Lemma send_to_bus_calm (target : string) (m : bus_message) :
  raises_only is_failure (send_to_bus w target m).
Proof.
  intros st e. unfold send_to_bus.
  destruct (has_actor_system w); [|discriminate].
  unfold bind, emit, modify. cbn beta iota. rewrite suspend_calm.
  destruct (calm_w (clock st)) as (_ & _ & B). simpl.
  destruct (bus w (clock st)) as [e'|] eqn:Eb; [|discriminate].
  intros E. injection E as <-. destruct e'; try reflexivity. congruence.
Qed.

Lemma sleep_never_fails (secs : Z) : raises_only is_failure (sleep w secs).
Proof. intros st e. rewrite sleep_calm. discriminate. Qed.

Hint Resolve api_call_calm send_to_bus_calm sleep_never_fails : raises.
Hint Extern 1 (is_failure _) => reflexivity : raises.

Lemma send_chunk_calm (chat : Z) (chunk : str) :
  raises_only is_failure (send_chunk cfg w chat chunk).
Proof.
  unfold send_chunk.
  apply (raises_try_except_from is_failure); [raises_tac|].
  intros e He. unfold is_failure in He. rewrite He.
  apply raises_bind; [unfold log; raises_tac|]. intros _.
  apply (raises_try_except_from is_failure); [raises_tac|].
  intros e2 He2. unfold is_failure in He2. rewrite He2.
  unfold log. raises_tac.
Qed.
Hint Resolve send_chunk_calm : raises.

Lemma process_update_calm (u : update) :
  raises_only is_failure (process_update cfg w u).
Proof.
  unfold process_update, handle_command, send_message,
    start_typing, stop_typing, cleanup_typing_tasks, evict_oldest,
    set_tasks, set_counter, log.
  raises_tac.
Qed.

Lemma get_updates_calm (st : state) :
  exists batch, fst (get_updates cfg w st) = Val batch.
Proof.
  pose proof (get_updates_escapes cfg w st) as H.
  unfold get_updates, try_except, bind, gets in *.
  destruct (calm_w (clock st)) as (C & A & _).
  rewrite (api_call_run cfg w _ _ st C) in *.
  specialize (A (GetUpdates (update_offset st) (TELEGRAM_POLLING_TIMEOUT cfg))).
  destruct (api w (clock st) _) as [[|u0 b]| |e]; simpl; eauto.
  destruct e; simpl; eauto. congruence.
Qed.

Lemma polling_body_calm : raises_only is_failure (polling_body cfg w).
Proof.
  unfold polling_body. apply raises_bind.
  - intros st e E. destruct (get_updates_calm st) as (b & Hb).
    rewrite Hb in E. discriminate.
  - intros ups. apply raises_for_each, process_update_calm.
Qed.

(** Whatever fails, the turn ends with the loop still going. *)
Lemma polling_iteration_calm (st : state) :
  fst (polling_iteration cfg w st) = Val Continue.
Proof.
  pose proof (polling_body_calm st) as H.
  unfold polling_iteration, try_except, bind.
  destruct (polling_body cfg w st) as [[[]|e] st1]; simpl in *; [reflexivity|].
  specialize (H e eq_refl).
  destruct e; try discriminate;
    unfold log, emit, modify; simpl; rewrite sleep_calm; reflexivity.
Qed.

Lemma polling_while_calm (fuel : nat) (st : state) :
  (forall now, running w now = true) ->
  fst (polling_while cfg w fuel st) = Val false.
Proof.
  intros R. revert st. induction fuel as [|fuel IH]; intros st; [reflexivity|].
  simpl. unfold bind at 1. unfold gets at 1. rewrite R.
  pose proof (polling_iteration_calm st) as H.
  unfold bind.
  destruct (polling_iteration cfg w st) as [[c|e] st1]; simpl in H;
    [|discriminate].
  injection H as ->. apply IH.
Qed.
End Calm.

(** X5. As long as the actor is running and nothing cancels it, the
    polling loop never ends, whatever the remote API, the bus and the
    dispatch of the updates do: after any number of turns it is still
    going (and has not logged that it stopped). *)
Theorem polling_loop_survives_failures (cfg : config) (w : world)
        (fuel : nat) (st : state) :
  calm w ->
  (forall now, running w now = true) ->
  fst (polling_loop cfg w fuel st) = Val false.
Proof.
  intros C R. unfold polling_loop, bind, log, emit, modify. cbn beta iota.
  match goal with |- context [polling_while cfg w fuel ?s] =>
    pose proof (polling_while_calm cfg w C fuel s R) as H;
    destruct (polling_while cfg w fuel s) as [[b|e] s1]
  end; simpl in H; [|discriminate].
  injection H as ->. reflexivity.
Qed.

Lemma polling_loop_survives_failures_witness :
  fst (polling_loop cfg0 (answering (Throws Error)) 5 init) = Val false.
Proof.
  apply (polling_loop_survives_failures cfg0 (answering (Throws Error)) 5 init).
  - intros now. split; [reflexivity|]. split; [intros r|]; discriminate.
  - reflexivity.
Defined.

(** ** The outcomes of a fetch *)

(** X6. A fetch lets nothing out but a cancellation. It ends in one of
    three ways: cancelled, with the offset as it was; with an empty batch
    (an empty answer, a timeout or any failure), with the offset as it
    was; or with a non-empty batch and the offset one past the id of its
    last update. The pool is never touched. *)
Theorem get_updates_outcomes (cfg : config) (w : world) (st : state) :
  let r := get_updates cfg w st in
  ((fst r = Exc CancelledError /\ update_offset (snd r) = update_offset st)
   \/ (fst r = Val [] /\ update_offset (snd r) = update_offset st)
   \/ (exists u0 batch,
         fst r = Val (u0 :: batch)
         /\ update_offset (snd r) = update_id (last (u0 :: batch) u0) + 1))
  /\ typing_tasks (snd r) = typing_tasks st.
Proof.
  cbv zeta.
  unfold get_updates, try_except, bind, gets, api_call, suspend, bind,
    emit, modify, tick. cbn beta iota.
  cbn [clock update_offset].
  destruct (cancel_at w (clock st)).
  { split; [left; split; reflexivity|reflexivity]. }
  unfold ret. cbn beta iota.
  destruct (api w (clock st) _) as [[|u0 b]| |e].
  - split; [right; left; split; reflexivity|reflexivity].
  - split; [|reflexivity]. right. right. exists u0, b.
    split; reflexivity.
  - split; [right; left; split; reflexivity|reflexivity].
  - destruct e;
      (split; [|reflexivity]);
      first [left; split; reflexivity | right; left; split; reflexivity].
Qed.

(** ** Cancelling the polling loop *)

Lemma get_updates_cancelled (cfg : config) (w : world) (st : state) :
  cancel_at w (clock st) = true ->
  get_updates cfg w st
  = (Exc CancelledError,
     later 1 [EvApi (GetUpdates (update_offset st) (TELEGRAM_POLLING_TIMEOUT cfg))
                    (effective_timeout cfg
                       (Some (TELEGRAM_POLLING_TIMEOUT cfg + 5)))] st).
Proof.
  intros C.
  unfold get_updates, try_except, bind, gets, api_call, suspend, bind,
    emit, modify, tick. cbn beta iota. cbn [clock].
  rewrite C. reflexivity.
Qed.

(** The loop after turns that go on. *)
Lemma polling_while_goes_on (cfg : config) (w : world) (n fuel : nat)
      (st : state) :
  turns_go_on cfg w n st ->
  polling_while cfg w (n + fuel) st
  = polling_while cfg w fuel (after_turns cfg w n st).
Proof.
  revert st. induction n as [|n IH]; intros st G; [reflexivity|].
  destruct (G 0%nat ltac:(lia)) as [R V]. cbn [after_turns] in R, V.
  change (S n + fuel)%nat with (S (n + fuel)). cbn [polling_while after_turns].
  rewrite bind_gets, R. unfold bind at 1.
  destruct (polling_iteration cfg w st) as [[c|e] st1] eqn:P;
    cbn [fst snd] in *; [|discriminate].
  injection V as ->. apply IH.
  intros i Hi. pose proof (G (S i) ltac:(lia)) as K.
  cbn [after_turns] in K. rewrite P in K. exact K.
Qed.

Lemma sleep_cancelled (w : world) (secs : Z) (st : state) :
  cancel_at w (clock st) = true ->
  sleep w secs st = (Exc CancelledError, later 1 [EvSleep secs] st).
Proof.
  intros C. unfold sleep, bind, emit, modify, suspend, bind, tick.
  cbn beta iota. cbn [clock]. rewrite C. reflexivity.
Qed.

(** X7. A cancellation that arrives while the loop waits for updates, in
    the first turn or after any number of turns that went on, ends the
    loop in good order: in that turn nothing is dispatched, the offset,
    the pool and the counter stay as the turns before left them, the loop
    logs that it stopped and [_polling_loop] returns. *)
Theorem polling_loop_cancelled_at_fetch (cfg : config) (w : world)
        (n fuel : nat) (st : state) :
  let st0 := later 0 [EvLog Info "Started Telegram polling"] st in
  let s := after_turns cfg w n st0 in
  turns_go_on cfg w n st0 ->
  running w (clock s) = true ->
  cancel_at w (clock s) = true ->
  polling_loop cfg w (n + S fuel) st
  = (Val true,
     later 1 [EvApi (GetUpdates (update_offset s) (TELEGRAM_POLLING_TIMEOUT cfg))
                    (effective_timeout cfg
                       (Some (TELEGRAM_POLLING_TIMEOUT cfg + 5)));
              EvLog Info "Stopped Telegram polling"] s).
Proof.
  intros st0 s G R C.
  assert (B : polling_iteration cfg w s
              = (Val Break,
                 later 1 [EvApi (GetUpdates (update_offset s)
                                            (TELEGRAM_POLLING_TIMEOUT cfg))
                                (effective_timeout cfg
                                   (Some (TELEGRAM_POLLING_TIMEOUT cfg + 5)))]
                       s)).
  { unfold polling_iteration, try_except, polling_body, bind.
    rewrite (get_updates_cancelled cfg w s C). reflexivity. }
  unfold polling_loop.
  rewrite (bind_val (log Info "Started Telegram polling") _ st st0 tt eq_refl).
  assert (W : polling_while cfg w (n + S fuel) st0
              = (Val true,
                 later 1 [EvApi (GetUpdates (update_offset s)
                                            (TELEGRAM_POLLING_TIMEOUT cfg))
                                (effective_timeout cfg
                                   (Some (TELEGRAM_POLLING_TIMEOUT cfg + 5)))]
                       s)).
  { rewrite (polling_while_goes_on cfg w n (S fuel) st0 G). fold s.
    cbn [polling_while]. rewrite bind_gets, R.
    rewrite (bind_val _ _ _ _ _ B). reflexivity. }
  rewrite (bind_val _ _ _ _ _ W).
  unfold later, bind, log, emit, modify, ret. simpl.
  now rewrite <- !app_assoc.
Qed.

Lemma polling_loop_cancelled_at_fetch_witness :
  let w := mkWorld (fun now => Nat.eqb now 1) (fun _ _ => Ok [bare 7])
                   (fun _ => None) (fun _ _ => false) (fun _ => true) true in
  polling_loop cfg0 w 4 init
  = (Val true,
     mkState 8 [] 0 0%nat 2%nat
             [EvLog Info "Started Telegram polling";
              EvApi (GetUpdates 0 30) 35; EvOffset 8; EvProcess 7;
              EvApi (GetUpdates 8 30) 35;
              EvLog Info "Stopped Telegram polling"]).
Proof.
  intros w.
  refine (eq_trans (polling_loop_cancelled_at_fetch cfg0 w 1 2 init _ _ _) _).
  - intros i Hi. destruct i as [|i]; [split; reflexivity|lia].
  - reflexivity.
  - reflexivity.
  - reflexivity.
Defined.

(** X8. A cancellation that arrives during the pause after a failed
    dispatch, in the first turn or after any number of turns that went
    on, is not caught: the pause is outside the [try], so the loop lets the
    cancellation out and never logs that it stopped. *)
Theorem polling_loop_cancelled_in_pause (cfg : config) (w : world)
        (n fuel : nat) (st st1 : state) (e : exn) :
  let st0 := later 0 [EvLog Info "Started Telegram polling"] st in
  let s := after_turns cfg w n st0 in
  turns_go_on cfg w n st0 ->
  running w (clock s) = true ->
  polling_body cfg w s = (Exc e, st1) ->
  is_Exception e = true ->
  cancel_at w (clock st1) = true ->
  polling_loop cfg w (n + S fuel) st
  = (Exc CancelledError,
     later 1 [EvLog Err "Polling error"; EvSleep 5] st1).
Proof.
  intros st0 s G R B E C.
  assert (I : polling_iteration cfg w s
              = (Exc CancelledError,
                 later 1 [EvLog Err "Polling error"; EvSleep 5] st1)).
  { unfold polling_iteration, try_except.
    unfold bind at 1. rewrite B.
    destruct e; try discriminate;
      unfold bind, log, emit, modify; cbn beta iota;
      (rewrite sleep_cancelled by exact C);
      unfold later; simpl; now rewrite <- app_assoc. }
  unfold polling_loop.
  rewrite (bind_val (log Info "Started Telegram polling") _ st st0 tt eq_refl).
  unfold bind at 1.
  rewrite (polling_while_goes_on cfg w n (S fuel) st0 G). fold s.
  cbn [polling_while]. rewrite bind_gets, R.
  unfold bind at 1. rewrite I. reflexivity.
Qed.

Lemma polling_loop_cancelled_in_pause_witness :
  let w := mkWorld (fun now => Nat.eqb now 3)
                   (fun now _ =>
                      match now with
                      | 1%nat => Ok [mkUpdate 1 (Some (mkMessage 7 8 None
                                      (Some (of_string "hello"))))]
                      | _ => Ok []
                      end)
                   (fun _ => Some Error) (fun _ _ => false) (fun _ => true)
                   true in
  fst (polling_loop cfg0 w 4 init) = Exc CancelledError
  /\ sleeps (trace (snd (polling_loop cfg0 w 4 init))) = [5]
  /\ api_calls (trace (snd (polling_loop cfg0 w 4 init)))
     = [GetUpdates 0 30; GetUpdates 0 30].
Proof.
  intros w.
  set (s := after_turns cfg0 w 1
              (later 0 [EvLog Info "Started Telegram polling"] init)).
  assert (G : turns_go_on cfg0 w 1
                (later 0 [EvLog Info "Started Telegram polling"] init)).
  { intros i Hi. destruct i as [|i]; [split; reflexivity|lia]. }
  assert (R : running w (clock s) = true) by reflexivity.
  assert (B : polling_body cfg0 w s
              = (Exc Error, snd (polling_body cfg0 w s)))
    by (vm_compute; reflexivity).
  assert (C : cancel_at w (clock (snd (polling_body cfg0 w s))) = true)
    by (vm_compute; reflexivity).
  change (polling_loop cfg0 w 4 init) with (polling_loop cfg0 w (1 + 3) init).
  rewrite (polling_loop_cancelled_in_pause cfg0 w 1 2 init
             (snd (polling_body cfg0 w s)) Error G R B eq_refl C).
  split; [reflexivity|]. split; vm_compute; reflexivity.
Defined.

(** ** The typing task *)

Lemma later_zero (st : state) : later 0 [] st = st.
Proof. destruct st. unfold later. simpl. now rewrite app_nil_r. Qed.

Lemma later_twice (n m : nat) (a b : list event) (st : state) :
  later n a (later m b st) = later (n + m) (b ++ a) st.
Proof.
  unfold later. simpl. f_equal; [lia|now rewrite app_assoc].
Qed.

Lemma sleep_run (w : world) (secs : Z) (st : state) :
  cancel_at w (clock st) = false ->
  sleep w secs st = (Val tt, later 1 [EvSleep secs] st).
Proof.
  intros C. unfold sleep, bind, emit, modify, suspend, bind, tick.
  cbn beta iota. cbn [clock]. rewrite C. reflexivity.
Qed.

Lemma api_call_cancelled (cfg : config) (w : world) (r : request)
      (timeout : option Z) (st : state) :
  cancel_at w (clock st) = true ->
  api_call cfg w r timeout st
  = (Exc CancelledError, later 1 [EvApi r (effective_timeout cfg timeout)] st).
Proof.
  intros C. unfold api_call, bind, emit, modify, suspend, bind, tick.
  cbn beta iota. cbn [clock]. rewrite C. reflexivity.
Qed.

Section TypingTask.
Variable cfg : config.
Variable w : world.
Variable interval : Z.
Variable chat : Z.

Let call := EvApi (SendChatAction chat) (TELEGRAM_API_DEFAULT_TIMEOUT cfg).

Lemma typing_turn_good (st : state) :
  cancel_at w (clock st) = false ->
  failure (api w (clock st) (SendChatAction chat)) = None ->
  cancel_at w (S (clock st)) = false ->
  typing_turn cfg w interval chat st
  = (Val tt, later 2 [call; EvSleep interval] st).
Proof.
  intros C F C'. unfold typing_turn, bind.
  rewrite (api_call_run cfg w _ None st C).
  destruct (api w (clock st) (SendChatAction chat)); try discriminate.
  rewrite sleep_run by exact C'.
  rewrite later_twice. reflexivity.
Qed.

Lemma good_turns_step (n : nat) (st st' : state) :
  clock st' = (2 + clock st)%nat ->
  good_turns w (S n) chat st -> good_turns w n chat st'.
Proof.
  intros E G i Hi. rewrite E.
  replace (2 * i + (2 + clock st))%nat with (2 * S i + clock st)%nat by lia.
  apply G. lia.
Qed.

Lemma typing_while_good (n fuel : nat) (st : state) :
  good_turns w n chat st ->
  typing_while cfg w interval (n + fuel) chat st
  = typing_while cfg w interval fuel chat
      (later (2 * n) (typing_trace cfg interval n chat) st).
Proof.
  revert st. induction n as [|n IH]; intros st G.
  - simpl. now rewrite later_zero.
  - destruct (G 0%nat ltac:(lia)) as (C & F & C'). simpl in C, F, C'.
    change (S n + fuel)%nat with (S (n + fuel)). cbn [typing_while].
    rewrite (bind_val _ _ _ _ _ (typing_turn_good st C F C')).
    rewrite IH by (apply (good_turns_step n st); [reflexivity|exact G]).
    rewrite later_twice. f_equal. f_equal. lia.
Qed.

Lemma typing_loop_io (fuel : nat) :
  respects io_only (typing_loop cfg w interval fuel chat).
Proof.
  assert (L : respects io_only (typing_while cfg w interval fuel chat)).
  { induction fuel as [|fuel IH]; simpl; unfold typing_turn;
      respects_tac; auto using io_api_call, io_sleep. }
  unfold typing_loop. respects_tac.
Qed.

Lemma typing_loop_raises (fuel : nat) :
  raises_only is_failure (typing_loop cfg w interval fuel chat).
Proof.
  unfold typing_loop. apply raises_try_except. intros e.
  destruct e; first [apply raises_ret | apply raises_raise; reflexivity].
Qed.
End TypingTask.

(** X9. The typing task never lets its cancellation out: it returns (when
    cancelled), runs on, or ends with a failure that is an [Exception];
    and it touches neither the offset nor the pool. *)
Theorem typing_loop_swallows_cancellation (cfg : config) (w : world)
        (interval : Z) (fuel : nat) (chat : Z) (st : state) :
  let r := typing_loop cfg w interval fuel chat st in
  fst r <> Exc CancelledError
  /\ update_offset (snd r) = update_offset st
  /\ typing_tasks (snd r) = typing_tasks st.
Proof.
  cbv zeta. split.
  - intros E. apply (typing_loop_raises cfg w interval chat fuel st) in E.
    discriminate.
  - destruct (typing_loop_io cfg w interval chat fuel st) as (H1 & H2 & _).
    auto.
Qed.

(** X10. After any number of good turns, the first call of the remote API
    that fails ends the typing task with that failure: no pause, no
    second try, and nothing tells the actor. *)
Theorem typing_loop_dies_at_first_failure (cfg : config) (w : world)
        (interval : Z) (n fuel : nat) (chat : Z) (st : state) (e : exn) :
  good_turns w n chat st ->
  cancel_at w (2 * n + clock st) = false ->
  failure (api w (2 * n + clock st) (SendChatAction chat)) = Some e ->
  is_Exception e = true ->
  typing_loop cfg w interval (n + S fuel) chat st
  = (Exc e,
     later (S (2 * n))
           (typing_trace cfg interval n chat
            ++ [EvApi (SendChatAction chat) (TELEGRAM_API_DEFAULT_TIMEOUT cfg)])
           st).
Proof.
  intros G C F E. unfold typing_loop, try_except.
  rewrite (typing_while_good cfg w interval chat n (S fuel) st G).
  cbn [typing_while]. unfold typing_turn. unfold bind at 1. unfold bind at 1.
  rewrite api_call_run by exact C. cbn [clock later].
  destruct (api w (2 * n + clock st) (SendChatAction chat)) as [res| |e'];
    simpl in F; try discriminate; injection F as <-.
  - rewrite later_twice. reflexivity.
  - rewrite later_twice. destruct e'; try discriminate; reflexivity.
Qed.

Lemma typing_loop_dies_at_first_failure_witness :
  typing_loop cfg0 (scripted [Ok []; Ok []; NotOk]) 4 5 7 init
  = (Exc Error,
     later 3 [EvApi (SendChatAction 7) 10; EvSleep 4;
              EvApi (SendChatAction 7) 10] init).
Proof.
  apply (typing_loop_dies_at_first_failure cfg0
           (scripted [Ok []; Ok []; NotOk]) 4 1 3 7 init Error).
  - intros i Hi. assert (i = 0%nat) as -> by lia.
    split; [reflexivity|split; reflexivity].
  - reflexivity.
  - reflexivity.
  - reflexivity.
Defined.

(** X11. After any number of good turns, a cancellation that arrives
    during the call or during the pause makes the typing task return
    normally, with no further call. *)
Theorem typing_loop_returns_when_cancelled (cfg : config) (w : world)
        (interval : Z) (n fuel : nat) (chat : Z) (st : state) :
  good_turns w n chat st ->
  let call := EvApi (SendChatAction chat) (TELEGRAM_API_DEFAULT_TIMEOUT cfg) in
  (cancel_at w (2 * n + clock st) = true ->
   typing_loop cfg w interval (n + S fuel) chat st
   = (Val true,
      later (S (2 * n)) (typing_trace cfg interval n chat ++ [call]) st))
  /\ (cancel_at w (2 * n + clock st) = false ->
      failure (api w (2 * n + clock st) (SendChatAction chat)) = None ->
      cancel_at w (S (2 * n + clock st)) = true ->
      typing_loop cfg w interval (n + S fuel) chat st
      = (Val true,
         later (S (S (2 * n)))
               (typing_trace cfg interval n chat ++ [call; EvSleep interval])
               st)).
Proof.
  intros G call. split.
  - intros C. unfold typing_loop, try_except.
    rewrite (typing_while_good cfg w interval chat n (S fuel) st G).
    cbn [typing_while]. unfold typing_turn. unfold bind at 1. unfold bind at 1.
    rewrite api_call_cancelled by exact C.
    rewrite later_twice. reflexivity.
  - intros C F C'. unfold typing_loop, try_except.
    rewrite (typing_while_good cfg w interval chat n (S fuel) st G).
    cbn [typing_while]. unfold typing_turn. unfold bind at 1. unfold bind at 1.
    rewrite api_call_run by exact C. cbn [clock later].
    destruct (api w (2 * n + clock st) (SendChatAction chat));
      try discriminate.
    rewrite sleep_cancelled by exact C'.
    rewrite !later_twice. unfold ret, later. simpl.
    rewrite <- ?app_assoc. reflexivity.
Qed.

Lemma typing_loop_returns_when_cancelled_witness :
  typing_loop cfg0
    (mkWorld (fun now => Nat.eqb now 3) (fun _ _ => Ok []) (fun _ => None)
             (fun _ _ => false) (fun _ => true) true) 4 9 7 init
  = (Val true,
     later 4 [EvApi (SendChatAction 7) 10; EvSleep 4;
              EvApi (SendChatAction 7) 10; EvSleep 4] init).
Proof.
  refine (proj2 (typing_loop_returns_when_cancelled cfg0
           (mkWorld (fun now => Nat.eqb now 3) (fun _ _ => Ok [])
                    (fun _ => None) (fun _ _ => false) (fun _ => true) true)
           4 1 7 7 init _) eq_refl eq_refl eq_refl).
  intros i Hi. assert (i = 0%nat) as -> by lia.
  split; [reflexivity|split; reflexivity].
Defined.

(** While every call goes well the task runs on: [n] turns are [n] calls,
    each followed by a pause of the interval. *)
Example typing_loop_runs_on :
  typing_loop cfg0 (answering (Ok [])) 4 3 7 init
  = (Val false, later 6 (typing_trace cfg0 4 3 7) init).
Proof. reflexivity. Qed.

(** ** What each coroutine puts in the trace *)

#[local] Instance emits_only_preorder (allowed : event -> bool) :
  PreOrder (emits_only allowed).
Proof.
  split.
  - intros s. exists []. split; [now rewrite app_nil_r|reflexivity].
  - intros a b c (t1 & E1 & F1) (t2 & E2 & F2).
    exists (t1 ++ t2). split; [now rewrite E2, E1, app_assoc|].
    rewrite forallb_app, F1, F2. reflexivity.
Qed.

Section Emits.
Variable allowed : event -> bool.

Lemma emits_emit (e : event) :
  allowed e = true -> respects (emits_only allowed) (emit e).
Proof.
  intros H st. exists [e]. split; [reflexivity|]. simpl. now rewrite H.
Qed.

Lemma emits_silent {A} (m : M A) :
  (forall st, trace (snd (m st)) = trace st) ->
  respects (emits_only allowed) m.
Proof.
  intros H st. exists []. split; [now rewrite H, app_nil_r|reflexivity].
Qed.

Lemma emits_tick : respects (emits_only allowed) tick.
Proof. now apply emits_silent. Qed.

Lemma emits_fresh_task : respects (emits_only allowed) fresh_task.
Proof. now apply emits_silent. Qed.

Lemma emits_set_tasks (d : Dict.dict task) :
  respects (emits_only allowed) (set_tasks d).
Proof. now apply emits_silent. Qed.

Lemma emits_set_counter (z : Z) : respects (emits_only allowed) (set_counter z).
Proof. now apply emits_silent. Qed.
End Emits.

Lemma emits_weaken (a b : event -> bool) {A} (m : M A) :
  (forall e, a e = true -> b e = true) ->
  respects (emits_only a) m -> respects (emits_only b) m.
Proof.
  intros H Hm st. destruct (Hm st) as (tr & E & F).
  exists tr. split; [exact E|].
  apply forallb_forall. intros e He.
  apply H. revert e He. now apply forallb_forall.
Qed.

Lemma wire_is_outbound (e : event) : is_wire e = true -> is_outbound e = true.
Proof. destruct e; simpl; congruence. Qed.

#[local] Hint Resolve emits_emit emits_tick emits_fresh_task emits_set_tasks
  emits_set_counter : respects.
#[local] Hint Extern 1 (is_wire _ = true) => reflexivity : respects.
#[local] Hint Extern 1 (is_outbound _ = true) => reflexivity : respects.

Section Outbound.
Variable cfg : config.
Variable w : world.

Lemma wire_send_chunk (chat : Z) (chunk : str) :
  respects (emits_only is_wire) (send_chunk cfg w chat chunk).
Proof. unfold send_chunk, api_call, suspend, log. respects_tac. Qed.

Lemma wire_send_message (chat : Z) (body : str) :
  respects (emits_only is_wire) (send_message cfg w chat body).
Proof.
  unfold send_message. apply respects_for_each; [typeclasses eauto|].
  intros chunk. apply wire_send_chunk.
Qed.

Lemma wire_handle_command (chat : Z) (command : str) :
  respects (emits_only is_wire) (handle_command cfg w chat command).
Proof.
  unfold handle_command.
  destruct (list_eq_dec N.eq_dec command (of_string "/start"));
    apply wire_send_message.
Qed.

(** A send to the bus leaves the pool alone and puts one event in the
    trace, or none when there is no actor system. *)
Lemma send_to_bus_trace (target : string) (m : bus_message) (st : state) :
  typing_tasks (snd (send_to_bus w target m st)) = typing_tasks st
  /\ trace (snd (send_to_bus w target m st))
     = trace st ++ (if has_actor_system w then [EvBus target m] else [])
  /\ (has_actor_system w = false -> fst (send_to_bus w target m st) = Val tt).
Proof.
  unfold send_to_bus. destruct (has_actor_system w).
  - unfold bind, emit, modify, suspend, bind, tick. cbn beta iota. cbn [clock].
    destruct (cancel_at w (clock st)).
    + repeat split. discriminate.
    + unfold ret. cbn beta iota.
      destruct (bus w (clock st)); repeat split; discriminate.
  - unfold ret. simpl. rewrite app_nil_r. auto.
Qed.

Lemma outbound_send_to_bus (target : string) (m : bus_message) :
  respects (emits_only is_outbound) (send_to_bus w target m).
Proof.
  intros st. destruct (send_to_bus_trace target m st) as (_ & T & _).
  eexists. split; [exact T|]. now destruct (has_actor_system w).
Qed.
End Outbound.

(** X12. Whatever message the actor system delivers, [handle_message]
    leaves the offset alone, never creates a task and never cancels the
    task of another conversation: a bot response and an error stop the
    typing task of their own conversation first, and all that follows are
    calls of the remote API, lines of the log and sends to the bus. *)
Theorem handle_message_stops_own_typing_only (cfg : config) (w : world)
        (m : actor_message) (st : state) :
  let st' := snd (handle_message cfg w m st) in
  let found := match conversation_of m with
               | Some chat => Dict.get chat (typing_tasks st)
               | None => None
               end in
  typing_tasks st'
  = match conversation_of m with
    | Some chat => Dict.del chat (typing_tasks st)
    | None => typing_tasks st
    end
  /\ update_offset st' = update_offset st
  /\ exists tr,
       trace st' = trace st ++ stop_events found ++ tr
       /\ forallb is_outbound tr = true.
Proof.
  cbv zeta.
  assert (R : forall chat (rest : M unit),
             respects io_only rest ->
             respects (emits_only is_outbound) rest ->
             let st' := snd (bind (stop_typing chat) (fun _ => rest) st) in
             typing_tasks st' = Dict.del chat (typing_tasks st)
             /\ update_offset st' = update_offset st
             /\ exists tr,
                  trace st'
                  = trace st ++ stop_events (Dict.get chat (typing_tasks st)) ++ tr
                  /\ forallb is_outbound tr = true).
  { intros chat rest Hio Hout. cbv zeta.
    rewrite (bind_val _ _ _ _ _ (stop_typing_run chat st)).
    match goal with |- context [rest ?s] =>
      destruct (Hio s) as (O & T & _); destruct (Hout s) as (tr & E & F)
    end.
    rewrite T, O, E. cbn [pool_state typing_tasks update_offset trace].
    split; [reflexivity|]. split; [reflexivity|].
    exists tr. split; [now rewrite app_assoc|exact F]. }
  destruct m as [user chat name body|chat body|chat ty| |]; cbn [conversation_of].
  - cbn [handle_message].
    destruct (io_send_to_bus w "user_session" (UserMessage user chat name body) st)
      as (O & T & _).
    destruct (outbound_send_to_bus w "user_session"
                (UserMessage user chat name body) st) as (tr & E & F).
    split; [exact T|]. split; [exact O|]. exists tr. auto.
  - apply (R chat).
    + apply respects_bind; [typeclasses eauto|apply io_send_message|].
      intros _. apply io_send_to_bus.
    + apply respects_bind; [typeclasses eauto| |].
      * apply (emits_weaken is_wire); [exact wire_is_outbound|].
        apply wire_send_message.
      * intros _. apply outbound_send_to_bus.
  - apply (R chat).
    + apply io_send_message.
    + apply (emits_weaken is_wire); [exact wire_is_outbound|].
      apply wire_send_message.
  - simpl. repeat split. exists []. now rewrite app_nil_r.
  - simpl. repeat split. exists []. now rewrite app_nil_r.
Qed.

Lemma send_message_calm (cfg : config) (w : world) (chat : Z) (body : str)
      (st : state) :
  calm w -> fst (send_message cfg w chat body st) = Val tt.
Proof.
  intros C.
  pose proof (send_message_escapes cfg w chat body st) as H1.
  assert (H2 : raises_only is_failure (send_message cfg w chat body)).
  { unfold send_message. apply raises_for_each. intros chunk.
    now apply send_chunk_calm. }
  specialize (H2 st).
  destruct (fst (send_message cfg w chat body st)) as [[]|e]; [reflexivity|].
  rewrite (H1 e eq_refl) in H2. specialize (H2 _ eq_refl). discriminate.
Qed.

(** X13. When nothing is cancelled, a bot response is handed on to the
    session actor after the attempt to send it, whether the sends went
    through or every one of them failed: the last event is the send of
    the same response to [user_session], and all between the stop and it
    are calls of the remote API and lines of the log. *)
Theorem bot_response_always_forwarded (cfg : config) (w : world) (chat : Z)
        (body : str) (st : state) :
  calm w ->
  has_actor_system w = true ->
  exists tr,
    trace (snd (send_bot_response cfg w chat body st))
    = trace st ++ stop_events (Dict.get chat (typing_tasks st)) ++ tr
      ++ [EvBus "user_session" (BotResponse chat body)]
    /\ forallb is_wire tr = true.
Proof.
  intros C A. unfold send_bot_response.
  rewrite (bind_val _ _ _ _ _ (stop_typing_run chat st)).
  set (st1 := pool_state _ _ _ st).
  pose proof (send_message_calm cfg w chat body st1 C) as V.
  destruct (wire_send_message cfg w chat body st1) as (tr & E & F).
  unfold bind at 1.
  destruct (send_message cfg w chat body st1) as [[[]|e] st2];
    simpl in V, E; [|discriminate].
  destruct (send_to_bus_trace w "user_session" (BotResponse chat body) st2)
    as (_ & T & _).
  rewrite T, A, E. unfold st1. cbn [pool_state trace].
  exists tr. split; [now rewrite <- !app_assoc|exact F].
Qed.

Lemma bot_response_always_forwarded_witness :
  exists tr,
    trace (snd (send_bot_response small (answering NotOk) 7 (of_string "hi")
                  init))
    = trace init ++ stop_events (Dict.get 7 (typing_tasks init)) ++ tr
      ++ [EvBus "user_session" (BotResponse 7 (of_string "hi"))]
    /\ forallb is_wire tr = true.
Proof.
  apply (bot_response_always_forwarded small (answering NotOk) 7
           (of_string "hi") init).
  - intros now. split; [reflexivity|]. split; [intros r|]; discriminate.
  - reflexivity.
Defined.

(** ** Dispatching one update *)

(** X14. An update that is not a plain text (no message, no text or an
    empty one, or a command) starts no typing task and sends nothing to
    the bus: the pool, the counter and the offset are as before, and after
    the mark of the dispatch the trace holds only calls of the remote API
    and lines of the log. *)
Theorem process_update_without_plain_text (cfg : config) (w : world)
        (u : update) (st : state) :
  plain_text u = None ->
  let st' := snd (process_update cfg w u st) in
  typing_tasks st' = typing_tasks st
  /\ update_offset st' = update_offset st
  /\ exists tr,
       trace st' = trace st ++ EvProcess (update_id u) :: tr
       /\ forallb is_wire tr = true.
Proof.
  intros H. cbv zeta. unfold process_update, plain_text in *.
  unfold bind at 1, emit at 1, modify at 1. cbn beta iota.
  set (st0 := mkState _ _ _ _ _ (trace st ++ [EvProcess (update_id u)])).
  assert (Q : forall m : M unit,
             respects io_only m -> respects (emits_only is_wire) m ->
             typing_tasks (snd (m st0)) = typing_tasks st
             /\ update_offset (snd (m st0)) = update_offset st
             /\ exists tr,
                  trace (snd (m st0)) = trace st ++ EvProcess (update_id u) :: tr
                  /\ forallb is_wire tr = true).
  { intros m Hio Hw.
    destruct (Hio st0) as (O & T & _). destruct (Hw st0) as (tr & E & F).
    rewrite O, T, E. unfold st0. cbn [typing_tasks update_offset trace].
    split; [reflexivity|]. split; [reflexivity|].
    exists tr. split; [now rewrite <- app_assoc|exact F]. }
  destruct (upd_message u) as [m|].
  - cbv zeta in H |- *.
    destruct (negb (truthy match text m with Some t => t | None => [] end)).
    + apply Q; [apply respects_ret|apply respects_ret]; typeclasses eauto.
    + destruct (startswith_slash match text m with Some t => t | None => [] end);
        [|discriminate].
      apply Q; [apply io_handle_command|apply wire_handle_command].
  - apply Q; [apply respects_ret|apply respects_ret]; typeclasses eauto.
Qed.

Lemma process_update_without_plain_text_witness :
  let u := mkUpdate 5 (Some (mkMessage 7 8 None (Some (of_string "/help")))) in
  let st' := snd (process_update small (answering (Ok [])) u init) in
  typing_tasks st' = typing_tasks init
  /\ update_offset st' = update_offset init
  /\ exists tr,
       trace st' = trace init ++ EvProcess (update_id u) :: tr
       /\ forallb is_wire tr = true.
Proof.
  exact (process_update_without_plain_text small (answering (Ok []))
           (mkUpdate 5 (Some (mkMessage 7 8 None (Some (of_string "/help")))))
           init eq_refl).
Defined.

(** A command is answered at once: the welcome text for [/start] and
    nothing else, the other text for everything else that begins with a
    slash. *)
Example commands_answered :
  let upd (body : string) :=
    mkUpdate 5 (Some (mkMessage 7 8 None (Some (of_string body)))) in
  api_calls (trace (snd (process_update small (answering (Ok []))
                           (upd "/start"%string) init)))
  = [SendMessage 7 (of_string "welcome") true]
  /\ api_calls (trace (snd (process_update small (answering (Ok []))
                              (upd "/start now"%string) init)))
     = [SendMessage 7 (of_string "unknown command") true].
Proof. split; reflexivity. Qed.

#[local] Instance keeps_clock_preorder : PreOrder keeps_clock.
Proof. split; unfold keeps_clock; [intros s|intros a b c]; congruence. Qed.

(** [_start_typing] has no suspension point. *)
Lemma start_typing_keeps_clock (cfg : config) (w : world) (chat : Z) :
  respects keeps_clock (start_typing cfg w chat).
Proof.
  assert (E : forall e, respects keeps_clock (emit e))
    by (intros e st; reflexivity).
  assert (L : forall l msg, respects keeps_clock (log l msg))
    by (intros l msg st; reflexivity).
  assert (T : forall d, respects keeps_clock (set_tasks d))
    by (intros d st; reflexivity).
  assert (K : forall z, respects keeps_clock (set_counter z))
    by (intros z st; reflexivity).
  assert (F : respects keeps_clock fresh_task) by (intros st; reflexivity).
  unfold start_typing, stop_typing, cleanup_typing_tasks, evict_oldest.
  respects_tac.
Qed.

(** A send to the bus: one suspension point, where a cancellation or the
    bus itself can raise. *)
Lemma send_to_bus_run (w : world) (target : string) (m : bus_message)
      (st : state) :
  send_to_bus w target m st
  = if has_actor_system w
    then (match (if cancel_at w (clock st) then Some CancelledError
                 else bus w (clock st))
          with
          | Some e => Exc e
          | None => Val tt
          end,
          later 1 [EvBus target m] st)
    else (Val tt, st).
Proof.
  unfold send_to_bus. destruct (has_actor_system w); [|reflexivity].
  unfold bind, emit, modify, suspend, bind, tick. cbn beta iota. cbn [clock].
  destruct (cancel_at w (clock st)); [reflexivity|].
  unfold ret. cbn beta iota. destruct (bus w (clock st)); reflexivity.
Qed.

(** X15. A plain text starts the typing task of its conversation and is
    then handed to the bus: when the dispatch ends the pool holds for the
    conversation the task just created, and the creation is followed at
    once by the send to the bus of the user id, the chat id, the user name
    and the text (if there is an actor system). When that send raises (a
    cancellation arrives while it waits, or the bus fails), nothing
    follows and the exception goes out of [_process_update]; otherwise
    the line of the log follows and [_process_update] returns. *)
Theorem process_update_plain_text (cfg : config) (w : world) (u : update)
        (m : message) (txt : str) (st : state) :
  plain_text u = Some (m, txt) ->
  distinct_keys st ->
  1 <= TELEGRAM_MAX_TYPING_TASKS cfg ->
  let st' := snd (process_update cfg w u st) in
  let forward :=
    if has_actor_system w
    then [EvBus "telegram"
                (ProcessUserMessage (from_id m) (chat_id m) (username m) txt)]
    else [] in
  let raised :=
    if has_actor_system w
    then if cancel_at w (clock st) then Some CancelledError
         else bus w (clock st)
    else None in
  exists t pre,
    Dict.get (chat_id m) (typing_tasks st') = Some t
    /\ fst (process_update cfg w u st)
       = match raised with
         | Some e => Exc e
         | None => Val tt
         end
    /\ trace st'
       = pre ++ EvCreateTask t (chat_id m)
           :: forward
           ++ match raised with
              | Some _ => []
              | None => [EvLog Debug "Queued message"]
              end.
Proof.
  intros H D HM. cbv zeta.
  set (st0 := mkState (update_offset st) (typing_tasks st)
                (typing_cleanup_counter st) (next_task st) (clock st)
                (trace st ++ [EvProcess (update_id u)])).
  set (msg := ProcessUserMessage (from_id m) (chat_id m) (username m) txt).
  assert (D0 : distinct_keys st0) by exact D.
  destruct (start_typing_run cfg w (chat_id m) st0 D0 HM)
    as (st1 & tr1 & E1 & _).
  assert (V : fst (start_typing cfg w (chat_id m) st0) = Val tt)
    by now rewrite E1.
  destruct (start_typing_binds cfg w (chat_id m) st0 V) as (t & pre & G & T).
  pose proof (start_typing_keeps_clock cfg w (chat_id m) st0) as K.
  unfold keeps_clock in K.
  rewrite E1 in G, T, K. cbn [snd] in G, T, K.
  change (clock st0) with (clock st) in K.
  assert (EQ : process_update cfg w u st
               = bind (send_to_bus w "telegram" msg)
                      (fun _ => log Debug "Queued message") st1).
  { unfold plain_text in H. unfold process_update.
    destruct (upd_message u) as [m'|]; [|discriminate].
    cbv zeta in H |- *.
    destruct (negb (truthy match text m' with Some t => t | None => [] end));
      [discriminate|].
    destruct (startswith_slash match text m' with Some t => t | None => [] end);
      [discriminate|].
    injection H as -> <-.
    rewrite (bind_val (emit (EvProcess (update_id u))) _ st st0 tt eq_refl).
    rewrite (bind_val _ _ _ _ _ E1). reflexivity. }
  rewrite EQ. clear EQ.
  unfold bind. rewrite send_to_bus_run, K.
  exists t, pre.
  destruct (has_actor_system w).
  - destruct (cancel_at w (clock st)).
    + cbn [fst snd later typing_tasks trace]. rewrite T.
      split; [exact G|]. split; [reflexivity|].
      now rewrite <- !app_assoc.
    + destruct (bus w (clock st)) as [e|].
      * cbn [fst snd later typing_tasks trace]. rewrite T.
        split; [exact G|]. split; [reflexivity|].
        now rewrite <- !app_assoc.
      * unfold log, emit, modify.
        cbn [fst snd later typing_tasks trace]. rewrite T.
        split; [exact G|]. split; [reflexivity|].
        now rewrite <- !app_assoc.
  - unfold log, emit, modify. cbn [fst snd typing_tasks trace]. rewrite T.
    split; [exact G|]. split; [reflexivity|].
    now rewrite <- !app_assoc.
Qed.

Lemma process_update_plain_text_witness :
  let m := mkMessage 7 8 None (Some (of_string "hello")) in
  let w := mkWorld (fun _ => false) (fun _ _ => Ok []) (fun _ => Some Error)
                   (fun _ _ => false) (fun _ => true) true in
  exists t pre,
    Dict.get 7 (typing_tasks (snd (process_update small w
                                     (mkUpdate 5 (Some m)) init))) = Some t
    /\ fst (process_update small w (mkUpdate 5 (Some m)) init) = Exc Error
    /\ trace (snd (process_update small w (mkUpdate 5 (Some m)) init))
       = pre ++ EvCreateTask t 7
           :: [EvBus "telegram" (ProcessUserMessage 8 7 None (of_string "hello"))]
           ++ [].
Proof.
  intros m w.
  apply (process_update_plain_text small w
           (mkUpdate 5 (Some m)) m (of_string "hello") init).
  - reflexivity.
  - constructor.
  - vm_compute. discriminate.
Defined.

(** The same text when the bus takes it: the line of the log follows and
    the dispatch returns. *)
Example plain_text_queued :
  let m := mkMessage 7 8 None (Some (of_string "hello")) in
  let st' := snd (process_update small (answering (Ok []))
                    (mkUpdate 5 (Some m)) init) in
  fst (process_update small (answering (Ok [])) (mkUpdate 5 (Some m)) init)
  = Val tt
  /\ trace st'
     = [EvProcess 5; EvCreateTask 0%nat 7;
        EvBus "telegram" (ProcessUserMessage 8 7 None (of_string "hello"));
        EvLog Debug "Queued message"].
Proof. split; reflexivity. Qed.

(** A send to the bus that fails leaves the typing task running: nothing
    stops it until a response or an error for that conversation comes. *)
Example typing_outlives_a_failed_forward :
  let w := mkWorld (fun _ => false) (fun _ _ => Ok []) (fun _ => Some Error)
                   (fun _ _ => false) (fun _ => true) true in
  let u := mkUpdate 5 (Some (mkMessage 7 8 None (Some (of_string "hello")))) in
  fst (process_update small w u init) = Exc Error
  /\ typing_tasks (snd (process_update small w u init)) = [(7, 0%nat)]
  /\ cancels (trace (snd (process_update small w u init))) = [].
Proof. repeat split. Qed.

(** ** Clean-up and shutdown of the pool *)

(** X16. From a pool with distinct keys, [_cleanup_typing_tasks] removes
    exactly the entries whose task has finished, keeps the others in their
    order, cancels nothing, and leaves the offset and the counter alone; a
    second clean-up right after changes nothing more in the pool. *)
Theorem cleanup_removes_finished_only (w : world) (st : state) :
  distinct_keys st ->
  let st' := snd (cleanup_typing_tasks w st) in
  fst (cleanup_typing_tasks w st) = Val tt
  /\ typing_tasks st'
     = filter (fun kv => negb (task_done w (clock st) (snd kv))) (typing_tasks st)
  /\ update_offset st' = update_offset st
  /\ typing_cleanup_counter st' = typing_cleanup_counter st
  /\ (exists tr, trace st' = trace st ++ tr /\ cancels tr = [])
  /\ typing_tasks (snd (cleanup_typing_tasks w st')) = typing_tasks st'.
Proof.
  intros H. cbv zeta.
  destruct (cleanup_typing_tasks_run w st H) as (tr & E & Q).
  rewrite E. cbn [fst snd pool_state typing_tasks update_offset
                  typing_cleanup_counter trace].
  split; [reflexivity|]. split; [reflexivity|]. split; [reflexivity|].
  split; [reflexivity|]. split; [now exists tr|].
  set (st1 := pool_state _ _ tr st).
  assert (H1 : distinct_keys st1).
  { unfold distinct_keys, st1. cbn [pool_state typing_tasks].
    now apply sweep_nodup. }
  destruct (cleanup_typing_tasks_run w st1 H1) as (tr' & E' & _).
  rewrite E'. unfold st1. cbn [snd pool_state typing_tasks clock].
  apply sweep_idempotent.
Qed.

Lemma cleanup_removes_finished_only_witness :
  typing_tasks
    (snd (cleanup_typing_tasks first_task_finished
            (run_ops small first_task_finished [OpStart 1; OpStart 2] init)))
  = [(2, 1%nat)].
Proof.
  destruct (cleanup_removes_finished_only first_task_finished
              (run_ops small first_task_finished [OpStart 1; OpStart 2] init))
    as (_ & E & _).
  - unfold distinct_keys. simpl.
    constructor; [simpl; intros [H|[]]; discriminate|].
    constructor; [intros []|constructor].
  - rewrite E. reflexivity.
Defined.

Lemma for_each_emit {A} (f : A -> event) (l : list A) (st : state) :
  for_each (fun a => emit (f a)) l st = (Val tt, later 0 (map f l) st).
Proof.
  revert st. induction l as [|a l IH]; intros st.
  - simpl. unfold ret. now rewrite later_zero.
  - simpl for_each. rewrite (bind_val (emit (f a)) _ st (later 0 [f a] st) tt eq_refl).
    rewrite IH, later_twice. reflexivity.
Qed.

(** X17. [shutdown], for an actor whose polling task and session exist
    and whose session closes without an error, returns after it has
    cancelled the polling task, then every task of the pool exactly once in
    the order of insertion, emptied the pool, closed the session and
    logged; the offset and the counter are as before. *)
Theorem shutdown_cancels_every_task (st : state) :
  shutdown st
  = (Val tt,
     mkState (update_offset st) [] (typing_cleanup_counter st) (next_task st)
       (clock st)
       (trace st
        ++ EvCancelPolling
           :: map (fun kv => EvCancel (snd kv)) (typing_tasks st)
        ++ [EvCloseSession; EvLog Info "TelegramInterfaceActor shutdown"]))
  /\ cancels (trace (snd (shutdown st)))
     = cancels (trace st) ++ map snd (typing_tasks st).
Proof.
  assert (E : shutdown st
              = (Val tt,
                 mkState (update_offset st) [] (typing_cleanup_counter st)
                   (next_task st) (clock st)
                   (trace st
                    ++ EvCancelPolling
                       :: map (fun kv => EvCancel (snd kv)) (typing_tasks st)
                    ++ [EvCloseSession;
                        EvLog Info "TelegramInterfaceActor shutdown"]))).
  { unfold shutdown.
    rewrite (bind_val (emit EvCancelPolling) _ st (later 0 [EvCancelPolling] st)
               tt eq_refl).
    rewrite bind_gets. cbn [later typing_tasks].
    rewrite (bind_val _ _ _ _ _ (for_each_emit _ _ _)).
    rewrite later_twice.
    unfold bind, set_tasks, modify, emit, log, emit, modify, later. simpl.
    now rewrite <- !app_assoc. }
  split; [exact E|].
  rewrite E. cbn [snd trace].
  rewrite cancels_app. f_equal.
  change (cancels (EvCancelPolling :: ?l)) with (cancels l).
  rewrite cancels_app, cancels_evicted. simpl. now rewrite app_nil_r.
Qed.

(** ** The calls of a whole message *)

Section Calls.
Variable cfg : config.
Variable w : world.
Hypothesis calm_w : calm w.

Lemma log_run (l : level) (msg : string) (st : state) :
  log l msg st = (Val tt, later 0 [EvLog l msg] st).
Proof. reflexivity. Qed.

(** One send, when nothing is cancelled. *)
Lemma try_send (r : request) (st : state) :
  (_ <- api_call cfg w r None;; ret tt) st
  = (match failure (api w (clock st) r) with
     | None => Val tt
     | Some e => Exc e
     end,
     later 1 [EvApi r (effective_timeout cfg None)] st)
  /\ (forall e, failure (api w (clock st) r) = Some e -> is_Exception e = true).
Proof.
  destruct (calm_w (clock st)) as (C & A & _). specialize (A r).
  unfold bind. rewrite (api_call_run cfg w r None st C).
  destruct (api w (clock st) r) as [res| |e]; simpl.
  - split; [reflexivity|discriminate].
  - split; [reflexivity|]. intros e E. now injection E as <-.
  - split; [reflexivity|]. intros e' E. injection E as <-.
    destruct e; try reflexivity. congruence.
Qed.

(** One chunk, when nothing is cancelled: one call, and a second one
    when the first failed; then on to the next chunk. *)
Lemma send_chunk_run (chat : Z) (chunk : str) (st : state) :
  exists tr,
    send_chunk cfg w chat chunk st
    = (Val tt,
       later (match failure (api w (clock st) (SendMessage chat chunk true))
              with Some _ => 2 | None => 1 end) tr st)
    /\ api_calls tr
       = SendMessage chat chunk true
         :: match failure (api w (clock st) (SendMessage chat chunk true))
            with
            | Some _ => [SendMessage chat chunk false]
            | None => []
            end.
Proof.
  unfold send_chunk. unfold try_except at 1.
  destruct (try_send (SendMessage chat chunk true) st) as [E1 F1].
  rewrite E1.
  destruct (failure (api w (clock st) (SendMessage chat chunk true)))
    as [e|].
  - rewrite (F1 e eq_refl).
    rewrite (bind_val _ _ _ _ _ (log_run _ _ _)). rewrite later_twice.
    unfold try_except.
    match goal with |- context [bind _ _ ?s] =>
      destruct (try_send (SendMessage chat chunk false) s) as [E2 F2]
    end.
    rewrite E2.
    match type of F2 with forall e, ?f = _ -> _ => destruct f as [e2|] end.
    + rewrite (F2 e2 eq_refl), log_run, !later_twice.
      eexists. split; reflexivity.
    + rewrite !later_twice.
      eexists. split; reflexivity.
  - eexists. split; reflexivity.
Qed.

Lemma for_each_send_chunk_calls (chat : Z) (chunks : list str) (st : state) :
  exists tr,
    fst (for_each (send_chunk cfg w chat) chunks st) = Val tt
    /\ trace (snd (for_each (send_chunk cfg w chat) chunks st)) = trace st ++ tr
    /\ api_calls tr = sends chat chunks (retries w chat (clock st) chunks).
Proof.
  revert st. induction chunks as [|c chunks IH]; intros st.
  - exists []. simpl. now rewrite app_nil_r.
  - destruct (send_chunk_run chat c st) as (tr1 & R1 & A1).
    simpl for_each. unfold bind. rewrite R1.
    match goal with |- context [for_each _ _ ?s] =>
      destruct (IH s) as (tr2 & V2 & T2 & A2)
    end.
    exists (tr1 ++ tr2).
    split; [exact V2|].
    split; [rewrite T2; cbn [later trace]; now rewrite app_assoc|].
    unfold api_calls in *. rewrite flat_map_app, A1, A2.
    cbn [retries].
    destruct (failure (api w (clock st) (SendMessage chat c true)));
      reflexivity.
Qed.
End Calls.

(** X18. When nothing is cancelled, [_send_message] returns and its calls
    are, chunk after chunk in the order of the chunks, one send with
    Markdown, followed by one plain send exactly for the chunks whose
    send with Markdown failed: never more than two calls for a chunk,
    never a chunk out of order, and no plain send of a chunk that went
    through. *)
Theorem send_message_calls_in_order (cfg : config) (w : world) (chat : Z)
        (body : str) (st : state) :
  calm w ->
  let chunks := split_long_message (TELEGRAM_MAX_MESSAGE_LENGTH cfg) body in
  exists tr,
    fst (send_message cfg w chat body st) = Val tt
    /\ trace (snd (send_message cfg w chat body st)) = trace st ++ tr
    /\ api_calls tr = sends chat chunks (retries w chat (clock st) chunks).
Proof.
  intros C. cbv zeta. unfold send_message.
  now apply for_each_send_chunk_calls.
Qed.

Lemma send_message_calls_in_order_witness :
  exists tr,
    fst (send_message small (scripted [Ok []; NotOk; Ok []]) 7
              (paras ["aaa"; "bbb"; "ccc"]%string) init) = Val tt
    /\ trace (snd (send_message small (scripted [Ok []; NotOk; Ok []]) 7
                     (paras ["aaa"; "bbb"; "ccc"]%string) init))
       = trace init ++ tr
    /\ api_calls tr
       = sends 7 [paras ["aaa"; "bbb"]%string; of_string "ccc"] [false; true].
Proof.
  apply (send_message_calls_in_order small (scripted [Ok []; NotOk; Ok []]) 7
           (paras ["aaa"; "bbb"; "ccc"]%string) init).
  intros now. split; [reflexivity|]. split; [|discriminate].
  intros r. simpl.
  destruct now as [|[|[|[|now]]]]; simpl; discriminate.
Defined.

(** The second chunk meets a rejection and is sent again, plain. *)
Example second_chunk_retried :
  api_calls (trace (snd (send_message small (scripted [Ok []; NotOk; Ok []]) 7
                           (paras ["aaa"; "bbb"; "ccc"]%string) init)))
  = sends 7 [paras ["aaa"; "bbb"]%string; of_string "ccc"] [false; true].
Proof. reflexivity. Qed.

(** ** The pool limit, through whole runs of the loop *)

Lemma limit_log (cap : Z) (l : level) (msg : string) :
  respects (within_limit cap) (log l msg).
Proof. intros st H. exact H. Qed.

Lemma limit_polling_while (cfg : config) (w : world) (fuel : nat) :
  1 <= TELEGRAM_MAX_TYPING_TASKS cfg ->
  respects (within_limit (TELEGRAM_MAX_TYPING_TASKS cfg))
           (polling_while cfg w fuel).
Proof.
  intros H. induction fuel as [|fuel IH]; simpl.
  - apply respects_ret; typeclasses eauto.
  - apply respects_bind; [typeclasses eauto|apply respects_gets; typeclasses eauto|].
    intros now. destruct (running w now).
    + apply respects_bind; [typeclasses eauto| |].
      * now apply limit_polling_iteration.
      * intros c. destruct c; first [exact IH|apply respects_ret; typeclasses eauto].
    + apply respects_ret; typeclasses eauto.
Qed.

Lemma limit_polling_loop (cfg : config) (w : world) (fuel : nat) :
  1 <= TELEGRAM_MAX_TYPING_TASKS cfg ->
  respects (within_limit (TELEGRAM_MAX_TYPING_TASKS cfg))
           (polling_loop cfg w fuel).
Proof.
  intros H. unfold polling_loop.
  apply respects_bind; [typeclasses eauto|apply limit_log|]. intros _.
  apply respects_bind; [typeclasses eauto|now apply limit_polling_while|].
  intros finished.
  apply respects_bind; [typeclasses eauto| |].
  - destruct finished; [apply limit_log|apply respects_ret; typeclasses eauto].
  - intros _. apply respects_ret; typeclasses eauto.
Qed.

(** X19. With a maximum of at least one, the typing pool never holds more
    than [TELEGRAM_MAX_TYPING_TASKS] tasks and never two for one
    conversation: this holds after any sequence of polling turns, bus
    messages, starts, stops and shutdowns from the initial state, and it
    still holds after a whole run of [_polling_loop] of any length begun
    there, however that run ends. *)
Theorem typing_pool_never_exceeds_maximum (cfg : config) (w : world)
        (ops : list op) (fuel : nat) :
  1 <= TELEGRAM_MAX_TYPING_TASKS cfg ->
  (distinct_keys (run_ops cfg w ops init)
   /\ Dict.size (typing_tasks (run_ops cfg w ops init))
      <= TELEGRAM_MAX_TYPING_TASKS cfg)
  /\ (distinct_keys (snd (polling_loop cfg w fuel (run_ops cfg w ops init)))
      /\ Dict.size
           (typing_tasks
              (snd (polling_loop cfg w fuel (run_ops cfg w ops init))))
         <= TELEGRAM_MAX_TYPING_TASKS cfg).
Proof.
  intros H.
  assert (G : forall st,
             distinct_keys st
             /\ Dict.size (typing_tasks st) <= TELEGRAM_MAX_TYPING_TASKS cfg ->
             distinct_keys (run_ops cfg w ops st)
             /\ Dict.size (typing_tasks (run_ops cfg w ops st))
                <= TELEGRAM_MAX_TYPING_TASKS cfg).
  { induction ops as [|o ops IH]; intros st Hst; simpl; [assumption|].
    apply IH. now apply (limit_run_op cfg w H o st). }
  assert (I : distinct_keys (run_ops cfg w ops init)
              /\ Dict.size (typing_tasks (run_ops cfg w ops init))
                 <= TELEGRAM_MAX_TYPING_TASKS cfg).
  { apply G. split; [constructor|]. unfold Dict.size. simpl. lia. }
  split; [exact I|].
  exact (limit_polling_loop cfg w fuel H _ I).
Qed.

Lemma typing_pool_never_exceeds_maximum_witness :
  Dict.size
    (typing_tasks
       (snd (polling_loop small (answering (Ok [])) 3
               (run_ops small (answering (Ok []))
                        [OpStart 1; OpStart 2; OpStart 3; OpStart 4] init))))
  <= 2.
Proof.
  apply (typing_pool_never_exceeds_maximum small (answering (Ok []))
           [OpStart 1; OpStart 2; OpStart 3; OpStart 4] 3).
  simpl. lia.
Defined.

(** ** A start below the limit *)

(** X20. From a pool with distinct keys that, the task of the conversation
    apart, is below the maximum, [_start_typing] returns normally, evicts
    nothing and cancels no task but the one the conversation had: the pool
    is the old one without that task (and without the finished tasks when
    the periodic clean-up was due), with the new task put last. *)
Theorem start_typing_below_limit (cfg : config) (w : world) (chat : Z)
        (st : state) :
  distinct_keys st ->
  1 <= TELEGRAM_MAX_TYPING_TASKS cfg ->
  Dict.size (Dict.del chat (typing_tasks st)) < TELEGRAM_MAX_TYPING_TASKS cfg ->
  exists st' tr,
    start_typing cfg w chat st = (Val tt, st')
    /\ typing_tasks st'
       = (if typing_cleanup_counter st + 1
             >=? TELEGRAM_TYPING_CLEANUP_THRESHOLD cfg
          then sweep (task_done w (clock st)) (Dict.del chat (typing_tasks st))
          else Dict.del chat (typing_tasks st))
         ++ [(chat, next_task st)]
    /\ trace st' = trace st ++ tr
    /\ cancels tr = cancels (stop_events (Dict.get chat (typing_tasks st))).
Proof.
  intros D HM Hlt.
  destruct (start_typing_run cfg w chat st D HM)
    as (st' & tr & E & P & T & C & _).
  assert (B : (Dict.size (Dict.del chat (typing_tasks st))
               >=? TELEGRAM_MAX_TYPING_TASKS cfg) = false).
  { unfold Z.geb. destruct (Z.compare_spec
      (Dict.size (Dict.del chat (typing_tasks st)))
      (TELEGRAM_MAX_TYPING_TASKS cfg)); try reflexivity; lia. }
  assert (S : swept_pool cfg w chat st
              = if typing_cleanup_counter st + 1
                   >=? TELEGRAM_TYPING_CLEANUP_THRESHOLD cfg
                then sweep (task_done w (clock st))
                           (Dict.del chat (typing_tasks st))
                else Dict.del chat (typing_tasks st)).
  { unfold swept_pool. cbv zeta. rewrite B, orb_false_r. reflexivity. }
  assert (K : evictions (TELEGRAM_MAX_TYPING_TASKS cfg)
                        (swept_pool cfg w chat st) = 0%nat).
  { unfold evictions.
    assert (L : Dict.size (swept_pool cfg w chat st)
                < TELEGRAM_MAX_TYPING_TASKS cfg).
    { rewrite S.
      destruct (typing_cleanup_counter st + 1
                >=? TELEGRAM_TYPING_CLEANUP_THRESHOLD cfg); [|exact Hlt].
      pose proof (sweep_size (task_done w (clock st))
                             (Dict.del chat (typing_tasks st))). lia. }
    unfold Z.geb. destruct (Z.compare_spec
      (Dict.size (swept_pool cfg w chat st))
      (TELEGRAM_MAX_TYPING_TASKS cfg)); try reflexivity; lia. }
  cbv zeta in P, C. rewrite K in P, C. simpl in P, C.
  rewrite app_nil_r in C. rewrite S in P.
  exists st', tr. repeat split; assumption.
Qed.

Lemma start_typing_below_limit_witness :
  exists st' tr,
    start_typing small (answering (Ok [])) 1
      (run_ops small (answering (Ok [])) [OpStart 1; OpStart 2] init)
    = (Val tt, st')
    /\ typing_tasks st' = [(2, 1%nat); (1, 2%nat)]
    /\ trace st'
       = trace (run_ops small (answering (Ok [])) [OpStart 1; OpStart 2] init)
         ++ tr
    /\ cancels tr = [0%nat].
Proof.
  destruct (start_typing_below_limit small (answering (Ok [])) 1
              (run_ops small (answering (Ok [])) [OpStart 1; OpStart 2] init))
    as (st' & tr & E & P & T & C).
  - unfold distinct_keys. simpl.
    constructor; [simpl; intros [H|[]]; discriminate|].
    constructor; [intros []|constructor].
  - simpl. lia.
  - vm_compute. reflexivity.
  - exists st', tr. repeat split; assumption.
Defined.

(** ** The clean-up counter *)

#[local] Instance keeps_counter_preorder : PreOrder keeps_counter.
Proof.
  split; unfold keeps_counter; [intros s|intros a b c]; congruence.
Qed.

#[local] Instance counter_in_range_preorder (T : Z) :
  PreOrder (counter_in_range T).
Proof. split; unfold counter_in_range; [intros s|intros a b c]; auto. Qed.

Section Counter.
Variable cfg : config.
Variable w : world.

Lemma counter_emit (e : event) : respects keeps_counter (emit e).
Proof. intros st. reflexivity. Qed.

Lemma counter_log (l : level) (msg : string) :
  respects keeps_counter (log l msg).
Proof. intros st. reflexivity. Qed.

Lemma counter_tick : respects keeps_counter tick.
Proof. intros st. reflexivity. Qed.

Lemma counter_fresh_task : respects keeps_counter fresh_task.
Proof. intros st. reflexivity. Qed.

Lemma counter_set_offset (z : Z) : respects keeps_counter (set_offset z).
Proof. intros st. reflexivity. Qed.

Lemma counter_set_tasks (d : Dict.dict task) :
  respects keeps_counter (set_tasks d).
Proof. intros st. reflexivity. Qed.

#[local] Hint Resolve counter_emit counter_log counter_tick counter_fresh_task
  counter_set_offset counter_set_tasks : respects.

Lemma counter_api_call (r : request) (timeout : option Z) :
  respects keeps_counter (api_call cfg w r timeout).
Proof. unfold api_call, suspend. respects_tac. Qed.

Lemma counter_sleep (secs : Z) : respects keeps_counter (sleep w secs).
Proof. unfold sleep, suspend. respects_tac. Qed.

Lemma counter_send_to_bus (target : string) (m : bus_message) :
  respects keeps_counter (send_to_bus w target m).
Proof. unfold send_to_bus, suspend. respects_tac. Qed.

#[local] Hint Resolve counter_api_call counter_sleep counter_send_to_bus
  : respects.

Lemma counter_send_message (chat : Z) (body : str) :
  respects keeps_counter (send_message cfg w chat body).
Proof. unfold send_message, send_chunk. respects_tac. Qed.

Lemma counter_stop_typing (chat : Z) :
  respects keeps_counter (stop_typing chat).
Proof. unfold stop_typing. respects_tac. Qed.

Lemma counter_cleanup : respects keeps_counter (cleanup_typing_tasks w).
Proof. unfold cleanup_typing_tasks. respects_tac. Qed.

Lemma counter_evict_oldest : respects keeps_counter evict_oldest.
Proof. unfold evict_oldest. respects_tac. Qed.

#[local] Hint Resolve counter_send_message counter_stop_typing counter_cleanup
  counter_evict_oldest : respects.

Lemma counter_handle_message (m : actor_message) :
  respects keeps_counter (handle_message cfg w m).
Proof.
  unfold handle_message, send_bot_response, send_error_message. respects_tac.
Qed.

Lemma counter_shutdown : respects keeps_counter shutdown.
Proof. unfold shutdown. respects_tac. Qed.

Lemma counter_get_updates : respects keeps_counter (get_updates cfg w).
Proof. unfold get_updates. respects_tac. Qed.

Lemma cleanup_returns (st : state) :
  fst (cleanup_typing_tasks w st) = Val tt.
Proof.
  unfold cleanup_typing_tasks, bind, gets, set_tasks, modify. simpl.
  destruct (map fst (filter (fun kv => task_done w (clock st) (snd kv))
                            (typing_tasks st))); reflexivity.
Qed.

(** What [_start_typing] leaves in the counter, however it ends. *)
Lemma start_typing_counter (chat : Z) (st : state) :
  typing_cleanup_counter (snd (start_typing cfg w chat st))
  = if typing_cleanup_counter st + 1 >=? TELEGRAM_TYPING_CLEANUP_THRESHOLD cfg
    then 0
    else typing_cleanup_counter st + 1.
Proof.
  unfold start_typing.
  rewrite (bind_val _ _ _ _ _ (stop_typing_run chat st)).
  rewrite bind_gets.
  rewrite (bind_val _ _ _ _ _ (set_counter_run _ _)).
  cbn [pool_state typing_cleanup_counter].
  match goal with |- context [bind _ ?k ?s] =>
    set (rest := k); set (s2 := s)
  end.
  assert (R : forall s, typing_cleanup_counter (snd (rest tt s))
                        = typing_cleanup_counter s).
  { intros s. subst rest. cbv beta.
    match goal with |- typing_cleanup_counter (snd (?m s)) = _ =>
      enough (Q : respects keeps_counter m) by exact (Q s)
    end.
    respects_tac. }
  destruct (typing_cleanup_counter st + 1
            >=? TELEGRAM_TYPING_CLEANUP_THRESHOLD cfg).
  - unfold bind at 1. unfold bind at 1.
    pose proof (cleanup_returns s2) as V.
    pose proof (counter_cleanup s2) as Q.
    destruct (cleanup_typing_tasks w s2) as [[[]|e] s3]; simpl in V;
      [|discriminate].
    rewrite set_counter_run. rewrite R. reflexivity.
  - unfold bind at 1. unfold ret. rewrite R. reflexivity.
Qed.

Lemma range_start_typing (chat : Z) :
  respects (counter_in_range (TELEGRAM_TYPING_CLEANUP_THRESHOLD cfg))
           (start_typing cfg w chat).
Proof.
  intros st H. rewrite start_typing_counter.
  destruct (Z.geb_spec (typing_cleanup_counter st + 1)
                       (TELEGRAM_TYPING_CLEANUP_THRESHOLD cfg)); lia.
Qed.

Lemma range_of_keeps {A} (m : M A) :
  respects keeps_counter m ->
  respects (counter_in_range (TELEGRAM_TYPING_CLEANUP_THRESHOLD cfg)) m.
Proof.
  apply respects_weaken. intros s s' E. unfold counter_in_range.
  now rewrite E.
Qed.

#[local] Hint Resolve range_start_typing : respects.
#[local] Hint Extern 1 (respects (counter_in_range _) _) =>
  (apply range_of_keeps; solve [auto with respects]) : respects.

Lemma range_polling_iteration :
  respects (counter_in_range (TELEGRAM_TYPING_CLEANUP_THRESHOLD cfg))
           (polling_iteration cfg w).
Proof.
  unfold polling_iteration, polling_body, process_update, handle_command.
  pose proof counter_get_updates.
  respects_tac.
Qed.

Lemma range_run_op (o : op) (st : state) :
  counter_in_range (TELEGRAM_TYPING_CLEANUP_THRESHOLD cfg) st
                   (run_op cfg w o st).
Proof.
  destruct o; simpl.
  - apply range_polling_iteration.
  - apply range_of_keeps, counter_handle_message.
  - apply range_start_typing.
  - apply range_of_keeps, counter_stop_typing.
  - apply range_of_keeps, counter_shutdown.
Qed.
End Counter.

(** X21. With a clean-up threshold [T] of at least one, the clean-up
    counter counts the starts modulo [T]: in every state the actor reaches
    from the initial one it is at or above 0 and below [T]; a
    [_start_typing] takes it from [c] to [(c + 1) mod T], however the call
    ends; and [_stop_typing], [handle_message] and [shutdown] leave it as
    it is. *)
Theorem cleanup_counter_counts_starts (cfg : config) (w : world)
        (ops : list op) (chat : Z) (m : actor_message) :
  1 <= TELEGRAM_TYPING_CLEANUP_THRESHOLD cfg ->
  let T := TELEGRAM_TYPING_CLEANUP_THRESHOLD cfg in
  let st := run_ops cfg w ops init in
  0 <= typing_cleanup_counter st < T
  /\ typing_cleanup_counter (snd (start_typing cfg w chat st))
     = (typing_cleanup_counter st + 1) mod T
  /\ typing_cleanup_counter (snd (stop_typing chat st))
     = typing_cleanup_counter st
  /\ typing_cleanup_counter (snd (handle_message cfg w m st))
     = typing_cleanup_counter st
  /\ typing_cleanup_counter (snd (shutdown st)) = typing_cleanup_counter st.
Proof.
  intros H T st.
  assert (G : forall s, 0 <= typing_cleanup_counter s < T ->
                        0 <= typing_cleanup_counter (run_ops cfg w ops s) < T).
  { induction ops as [|o os IH]; intros s Hs; simpl; [assumption|].
    apply IH. now apply (range_run_op cfg w o s). }
  assert (I : 0 <= typing_cleanup_counter st < T).
  { apply G. simpl. subst T. lia. }
  split; [exact I|]. split.
  - rewrite start_typing_counter. fold T.
    destruct (Z.geb_spec (typing_cleanup_counter st + 1) T) as [G1|G1].
    + replace (typing_cleanup_counter st + 1) with T by lia.
      now rewrite Z.mod_same by lia.
    + now rewrite Z.mod_small by lia.
  - split; [apply counter_stop_typing|].
    split; [apply counter_handle_message|apply counter_shutdown].
Qed.

Lemma cleanup_counter_counts_starts_witness :
  typing_cleanup_counter
    (snd (start_typing small (answering (Ok [])) 7
            (run_ops small (answering (Ok []))
                     [OpStart 1; OpStart 2; OpStop 1] init)))
  = 3 mod 10.
Proof.
  refine (proj1 (proj2 (cleanup_counter_counts_starts small
           (answering (Ok [])) [OpStart 1; OpStart 2; OpStop 1] 7 MsgOther _))).
  simpl. lia.
Defined.
